(** * Format-preserving encryption (FF1, FF3, FF3-1): the C library, embedded

    A shallow embedding of [src/ff1.c], [src/ff3.c], [src/ff3-1.c],
    [src/fpe.c] and [src/utils.c].

    Conventions.
    - Every C integer ([unsigned int], [int], [unsigned char],
      [unsigned long long]) is a [Z]; the casts of the source are written
      out ([u8], [u32], [s32]).
    - A numeral string ([unsigned int *] with its [len]) is a [list Z]; a
      byte string ([unsigned char *] with its length) is a [list Z] of
      values below 256.  The length argument of the C call is the length of
      the list.
    - A function that returns [0] / [-1] returns an [outcome]; a write past
      the end of one of the fixed-size local buffers of the source is the
      third outcome, [Overflow].
    - OpenSSL ([EVP_*]) and libm ([log2], [ceil]) are not part of the
      repository; they are the fields of the class [Platform]. *)

From Stdlib Require Import ZArith List Lia Bool.
Import ListNotations.
Local Open Scope Z_scope.

(** ** Machine integers *)

(** [(unsigned char) x] *)
Definition u8 (x : Z) : Z := x mod 256.

(** [(unsigned int) x] *)
Definition u32 (x : Z) : Z := x mod 2 ^ 32.

(** [(int) x] *)
Definition s32 (x : Z) : Z := (x + 2 ^ 31) mod 2 ^ 32 - 2 ^ 31.

(** [static inline unsigned int ceildiv(unsigned int a, unsigned int b)]:
    [(a + b - 1) / b] in [unsigned int]. *)
Definition ceildiv (a b : Z) : Z := u32 (a + b - 1) / b.
Arguments u8 x : simpl never.
Arguments u32 x : simpl never.
Arguments s32 x : simpl never.

(** ** Outcomes *)

Inductive outcome (A : Type) : Type :=
| Ok (a : A)
| Err
| Overflow.
Arguments Ok {A} a.
Arguments Err {A}.
Arguments Overflow {A}.

Definition bind {A B : Type} (o : outcome A) (k : A -> outcome B) : outcome B :=
  match o with
  | Ok a => k a
  | Err => Err
  | Overflow => Overflow
  end.

Notation "x <- e ;; k" := (bind e (fun x => k))
  (at level 61, e at next level, right associativity).
Notation "' p <- e ;; k" := (bind e (fun p => k))
  (at level 61, p pattern, e at next level, right associativity).

(** Lists indexed by C integers. *)
Definition zlength {A : Type} (l : list A) : Z := Z.of_nat (length l).
Definition take {A : Type} (n : Z) (l : list A) : list A := firstn (Z.to_nat n) l.
Definition drop {A : Type} (n : Z) (l : list A) : list A := skipn (Z.to_nat n) l.
Definition zeros (n : Z) : list Z := repeat 0 (Z.to_nat n).
Arguments zlength {A} l : simpl never.
Arguments take {A} n l : simpl never.
Arguments drop {A} n l : simpl never.
Arguments zeros n : simpl never.

(** [l[i] = v] for [i] inside [l]. *)
Fixpoint upd (i : nat) (v : Z) (l : list Z) : list Z :=
  match l, i with
  | [], _ => []
  | _ :: rest, O => v :: rest
  | x :: rest, S k => x :: upd k v rest
  end.

(** A write of [n] bytes (or digits) at offset [off] of a local array of
    [cap] elements. *)
Definition guard_write (cap off n : Z) : outcome unit :=
  if off + n <=? cap then Ok tt else Overflow.

(** ** Numeral codec ([num_to_bytes], [bytes_to_num] and their [_rev] forms) *)

Module Codec.

(** The inner loop of [num_to_bytes]:
    [for (j = out_len - 1; j >= 0; j--) { tmp = out[j] * radix + carry;
       out[j] = (unsigned char)(tmp & 0xFF); carry = (unsigned int)(tmp >> 8); }].
    The bytes after the head are visited first.  [tmp] is an
    [unsigned long long]; it stays below [2^64] as [out[j] < 2^8] and
    [radix], [carry] are [unsigned int]. *)
Fixpoint mul_add_bytes (radix : Z) (out : list Z) (carry : Z) : list Z * Z :=
  match out with
  | [] => ([], carry)
  | byte :: rest =>
      let '(rest', carry1) := mul_add_bytes radix rest carry in
      let tmp := byte * radix + carry1 in
      (u8 (Z.land tmp 255) :: rest', u32 (Z.shiftr tmp 8))
  end.

(** [num_to_bytes(x, len, radix, out, out_len)] of ff1.c (and ff3.c):
    [memset(out, 0, out_len)], then one pass of the inner loop per digit,
    [x[0]] first. *)
Definition num_to_bytes (x : list Z) (len : Z) (radix : Z) (out_len : Z) : list Z :=
  fold_left (fun out xi => fst (mul_add_bytes radix out xi))
            (take len x) (zeros out_len).

(** [num_to_bytes_rev]: the same with the digits taken from [x[len-1]]
    down to [x[0]]. *)
Definition num_to_bytes_rev (x : list Z) (len : Z) (radix : Z) (out_len : Z) : list Z :=
  fold_left (fun out xi => fst (mul_add_bytes radix out xi))
            (rev (take len x)) (zeros out_len).

(** The inner loop of [bytes_to_num]:
    [for (j = 0; j < byte_len; j++) { tmp = (remainder << 8) | temp[j];
       temp[j] = (unsigned char)(tmp / radix); remainder = (unsigned int)(tmp % radix); }]. *)
Fixpoint div_bytes (radix : Z) (temp : list Z) (remainder : Z) : list Z * Z :=
  match temp with
  | [] => ([], remainder)
  | byte :: rest =>
      let tmp := Z.lor (Z.shiftl remainder 8) byte in
      let '(rest', r) := div_bytes radix rest (u32 (tmp mod radix)) in
      (u8 (tmp / radix) :: rest', r)
  end.

(** [len] passes of the division loop; the remainders in the order they
    are produced (least significant digit first). *)
Fixpoint digits_of_bytes (radix : Z) (len : nat) (temp : list Z) : list Z :=
  match len with
  | O => []
  | S n => let '(q, r) := div_bytes radix temp 0 in r :: digits_of_bytes radix n q
  end.

(** [bytes_to_num(bytes, byte_len, x, len, radix)]: the input is copied
    into [unsigned char temp[256]]; the remainders fill [x[len-1]] down to
    [x[0]]. *)
Definition bytes_to_num (bytes : list Z) (byte_len : Z) (len : Z) (radix : Z)
  : outcome (list Z) :=
  _ <- guard_write 256 0 byte_len;;
  Ok (rev (digits_of_bytes radix (Z.to_nat len) (take byte_len bytes))).

(** [bytes_to_num_rev]: the remainders fill [x[0]] up to [x[len-1]]. *)
Definition bytes_to_num_rev (bytes : list Z) (byte_len : Z) (len : Z) (radix : Z)
  : outcome (list Z) :=
  _ <- guard_write 256 0 byte_len;;
  Ok (digits_of_bytes radix (Z.to_nat len) (take byte_len bytes)).

End Codec.


(** ** The platform: OpenSSL's EVP interface and libm *)

Inductive EVP_CIPHER : Type :=
| EVP_aes_128_ecb
| EVP_aes_192_ecb
| EVP_aes_256_ecb
| EVP_sm4_ecb.

(** [EVP_CIPHER_CTX *]: fresh from [EVP_CIPHER_CTX_new], or keyed by a
    successful [EVP_EncryptInit_ex] (padding disabled). *)
Inductive EVP_CIPHER_CTX : Type :=
| evp_fresh
| evp_keyed (cipher : EVP_CIPHER) (k : list Z).

Class Platform : Type := {
  (** the build flag [HAVE_OPENSSL_SM4] *)
  HAVE_OPENSSL_SM4 : bool;
  (** [EVP_EncryptInit_ex(c, cipher, NULL, key, NULL) != 0] *)
  EVP_EncryptInit_ex : EVP_CIPHER -> list Z -> bool;
  (** [EVP_EncryptUpdate(c, out, &outlen, in, 16)] on a keyed context:
      the block written to [out], or [None] when the call returns 0 *)
  EVP_EncryptUpdate : EVP_CIPHER -> list Z -> list Z -> option (list Z);
  (** [ceil(n * log2((double)radix))] *)
  ceil_mul_log2 : Z -> Z -> Z
}.

(** ** The context ([struct fpe_ctx_st], fpe_internal.h) *)

Definition FPE_ALGO_AES : Z := 0.
Definition FPE_ALGO_SM4 : Z := 1.
Definition FPE_MODE_FF1 : Z := 0.
Definition FPE_MODE_FF3 : Z := 1.
Definition FPE_MODE_FF3_1 : Z := 2.

(** The union [params].  Its three members begin with [minlen]; the four
    bytes after it are [ff1.maxlen] and, at the same place, the first four
    bytes of [ff3.reversed_key] and [ff3_1.reversed_key] (one array of 32
    bytes).  The record holds [minlen] and these 32 bytes: a store to
    [ff1.maxlen] is a store to [reversed_key[0 .. 3]]. *)
Record FPE_PARAMS : Type := {
  minlen : Z;
  reversed_key : list Z
}.

Record FPE_CTX : Type := {
  ctx_mode : Z;
  ctx_algo : Z;
  ctx_radix : Z;
  ctx_key_bits : Z;
  ctx_key : list Z;            (* unsigned char key[32] *)
  ctx_key_len : Z;
  ctx_cipher_ctx : option EVP_CIPHER_CTX;   (* None: NULL *)
  ctx_params : FPE_PARAMS
}.

(** ** utils.c *)

Definition fpe_validate_radix (radix : Z) : Z :=
  if (radix <? 2) || (radix >? 65536) then -1 else 0.

Definition fpe_validate_tweak (mode : Z) (tweak_len : Z) : Z :=
  if mode =? FPE_MODE_FF1 then 0
  else if mode =? FPE_MODE_FF3 then
    if negb (tweak_len =? 8) && negb (tweak_len =? 7) && negb (tweak_len =? 0)
    then -1 else 0
  else if mode =? FPE_MODE_FF3_1 then
    if negb (tweak_len =? 7) && negb (tweak_len =? 8) && negb (tweak_len =? 0)
    then -1 else 0
  else -1.

(** [fpe_secure_zero(ptr, len)]: [while (len--) *p++ = 0]. *)
Definition fpe_secure_zero (buf : list Z) (len : Z) : list Z :=
  zeros len ++ drop len buf.

(** [fpe_reverse_bytes(bytes, len)]: the loop
    [for (i = 0; i < len >> 1; i++) swap(bytes[i], bytes[len - i - 1])]. *)
Fixpoint reverse_loop (n : nat) (i : nat) (len : nat) (bytes : list Z) : list Z :=
  match n with
  | O => bytes
  | S n' =>
      let tmp := nth i bytes 0 in
      let bytes := upd i (nth (len - i - 1) bytes 0) bytes in
      let bytes := upd (len - i - 1) tmp bytes in
      reverse_loop n' (S i) len bytes
  end.

Definition fpe_reverse_bytes (bytes : list Z) (len : Z) : list Z :=
  reverse_loop (Z.to_nat (Z.shiftr len 1)) 0 (Z.to_nat len) bytes.

(** ** fpe.c: context management *)

(** [fpe_reverse_key(key, reversed, len)]: [reversed[i] = key[len - 1 - i]]
    for [i < len]; the bytes of [reversed] from [len] on are left as they
    were. *)
Definition fpe_reverse_key (key reversed : list Z) (len : Z) : list Z :=
  map (fun i => nth (Z.to_nat len - 1 - i) key 0) (seq 0 (Z.to_nat len))
  ++ drop len reversed.

(** [memcpy(dst, src, n)] *)
Definition memcpy (dst src : list Z) (n : Z) : list Z :=
  take n src ++ drop n dst.

(** [FPE_CTX_new]: [calloc(1, sizeof(FPE_CTX))]. *)
Definition FPE_CTX_new : FPE_CTX :=
  {| ctx_mode := 0; ctx_algo := 0; ctx_radix := 0; ctx_key_bits := 0;
     ctx_key := zeros 32; ctx_key_len := 0; ctx_cipher_ctx := None;
     ctx_params := {| minlen := 0; reversed_key := zeros 32 |} |}.

(** The memory of the context as [FPE_CTX_free] leaves it just before
    [free(ctx)]. *)
Definition FPE_CTX_free (ctx : FPE_CTX) : FPE_CTX :=
  {| ctx_mode := ctx_mode ctx; ctx_algo := ctx_algo ctx;
     ctx_radix := ctx_radix ctx; ctx_key_bits := ctx_key_bits ctx;
     ctx_key := fpe_secure_zero (ctx_key ctx) 32;
     ctx_key_len := ctx_key_len ctx;
     ctx_cipher_ctx := None;
     ctx_params := {| minlen := 0;
                      reversed_key := fpe_secure_zero (reversed_key (ctx_params ctx)) 32 |} |}.

Section Library.
Context {PF : Platform}.

(** The selection of the [EVP_CIPHER] in [FPE_CTX_init] (the same in both
    branches): [NULL] is [None]. *)
Definition select_cipher (algo bits : Z) : option EVP_CIPHER :=
  if algo =? FPE_ALGO_AES then
    if bits =? 128 then Some EVP_aes_128_ecb
    else if bits =? 192 then Some EVP_aes_192_ecb
    else if bits =? 256 then Some EVP_aes_256_ecb
    else None
  else if HAVE_OPENSSL_SM4 && (algo =? FPE_ALGO_SM4) then Some EVP_sm4_ecb
  else None.

Definition set_cipher_ctx (ctx : FPE_CTX) (c : option EVP_CIPHER_CTX) : FPE_CTX :=
  {| ctx_mode := ctx_mode ctx; ctx_algo := ctx_algo ctx;
     ctx_radix := ctx_radix ctx; ctx_key_bits := ctx_key_bits ctx;
     ctx_key := ctx_key ctx; ctx_key_len := ctx_key_len ctx;
     ctx_cipher_ctx := c; ctx_params := ctx_params ctx |}.

Definition set_params (ctx : FPE_CTX) (p : FPE_PARAMS) : FPE_CTX :=
  {| ctx_mode := ctx_mode ctx; ctx_algo := ctx_algo ctx;
     ctx_radix := ctx_radix ctx; ctx_key_bits := ctx_key_bits ctx;
     ctx_key := ctx_key ctx; ctx_key_len := ctx_key_len ctx;
     ctx_cipher_ctx := ctx_cipher_ctx ctx; ctx_params := p |}.

(** [FPE_CTX_init(ctx, mode, algo, key, bits, radix)]: the value returned
    and the context it leaves.  [ctx] and [key] are not [NULL];
    [EVP_CIPHER_CTX_new] does not run out of memory. *)
Definition FPE_CTX_init (ctx : FPE_CTX) (mode algo : Z) (key : list Z)
           (bits radix : Z) : Z * FPE_CTX :=
  if negb (fpe_validate_radix radix =? 0) then (-1, ctx)
  else if negb (if algo =? FPE_ALGO_AES
                then (bits =? 128) || (bits =? 192) || (bits =? 256)
                else if algo =? FPE_ALGO_SM4 then bits =? 128
                else false)
  then (-1, ctx)
  else
    (* store configuration, copy key *)
    let key_len := bits / 8 in
    let ctx :=
      {| ctx_mode := mode; ctx_algo := algo; ctx_radix := radix;
         ctx_key_bits := bits;
         ctx_key := memcpy (ctx_key ctx) key key_len;
         ctx_key_len := key_len;
         ctx_cipher_ctx := ctx_cipher_ctx ctx;
         ctx_params := ctx_params ctx |} in
    if mode =? FPE_MODE_FF1 then
      let ctx := set_cipher_ctx ctx (Some evp_fresh) in
      match select_cipher algo bits with
      | None => (-1, ctx)
      | Some cipher =>
          if negb (EVP_EncryptInit_ex cipher (take key_len key)) then (-1, ctx)
          else
            let ctx := set_cipher_ctx ctx (Some (evp_keyed cipher (take key_len key))) in
            (* params.ff1.minlen = 2; params.ff1.maxlen = 0; *)
            let ctx := set_params ctx
                         {| minlen := 2;
                            reversed_key :=
                              memcpy (reversed_key (ctx_params ctx)) (zeros 4) 4 |} in
            (0, ctx)
      end
    else if (mode =? FPE_MODE_FF3) || (mode =? FPE_MODE_FF3_1) then
      let ctx := set_cipher_ctx ctx (Some evp_fresh) in
      match select_cipher algo bits with
      | None => (-1, ctx)
      | Some cipher =>
          (* unsigned char reversed_key[32], not initialised: its bytes
             past key_len are never read *)
          let rk := fpe_reverse_key key (zeros 32) key_len in
          if negb (EVP_EncryptInit_ex cipher (take key_len rk)) then (-1, ctx)
          else
            let ctx := set_cipher_ctx ctx (Some (evp_keyed cipher (take key_len rk))) in
            let ctx := set_params ctx
                         {| minlen := 2;
                            reversed_key :=
                              memcpy (reversed_key (ctx_params ctx)) rk key_len |} in
            (0, ctx)
      end
    else (0, ctx).

(** One 16-byte block through [EVP_EncryptUpdate]; [Err] is the source's
    [return -1]. *)
Definition encrypt_block (c : EVP_CIPHER_CTX) (blk : list Z) : outcome (list Z) :=
  match c with
  | evp_fresh => Err
  | evp_keyed cipher k =>
      match EVP_EncryptUpdate cipher k blk with
      | Some out => Ok out
      | None => Err
      end
  end.

(** [for (i = i0; i < i0 + n; i++) body] and [for (i = n - 1; i >= 0; i--) body],
    each stopping at the first [return -1] or overflow. *)
Fixpoint for_up {St : Type} (n : nat) (i : Z) (body : Z -> St -> outcome St)
         (s : St) : outcome St :=
  match n with
  | O => Ok s
  | S n' => s' <- body i s;; for_up n' (i + 1) body s'
  end.

Fixpoint for_down {St : Type} (n : nat) (body : Z -> St -> outcome St)
         (s : St) : outcome St :=
  match n with
  | O => Ok s
  | S n' => s' <- body (Z.of_nat n') s;; for_down n' body s'
  end.

Definition xor_bytes (a b : list Z) : list Z :=
  map (fun p => Z.lxor (fst p) (snd p)) (combine a b).

(** ** ff1.c *)

(** The 16-byte block [P] of [ff1_encrypt] and [ff1_decrypt]. *)
Definition ff1_build_P (radix u len tweak_len : Z) : list Z :=
  [ 1; 2; 1;
    u8 (Z.land (Z.shiftr radix 16) 255);
    u8 (Z.land (Z.shiftr radix 8) 255);
    u8 (Z.land radix 255);
    10;
    u8 (Z.land u 255);
    u8 (Z.land (Z.shiftr len 24) 255);
    u8 (Z.land (Z.shiftr len 16) 255);
    u8 (Z.land (Z.shiftr len 8) 255);
    u8 (Z.land len 255);
    u8 (Z.land (Z.shiftr tweak_len 24) 255);
    u8 (Z.land (Z.shiftr tweak_len 16) 255);
    u8 (Z.land (Z.shiftr tweak_len 8) 255);
    u8 (Z.land tweak_len 255) ].

(** Step 2 of [ff1_prf]: [R = E(Q_i xor R)] for the [Q_len / 16] blocks of [Q]. *)
Fixpoint cbc_mac_loop (c : EVP_CIPHER_CTX) (n : nat) (i : Z) (Q R : list Z)
  : outcome (list Z) :=
  match n with
  | O => Ok R
  | S n' =>
      let Ri := xor_bytes (take 16 (drop (i * 16) Q)) R in
      R' <- encrypt_block c Ri;;
      cbc_mac_loop c n' (i + 1) Q R'
  end.

(** Step 3 of [ff1_prf] for [S_len > 16]: blocks [j = 1 .. num_extra_blocks]
    of [E(R xor (0^12 || be32(j)))], each copied to [S + j * 16]. *)
Fixpoint ctr_loop (c : EVP_CIPHER_CTX) (n : nat) (j : Z)
         (num_extra_blocks S_len S_cap : Z) (R S : list Z) : outcome (list Z) :=
  match n with
  | O => Ok S
  | S n' =>
      let tmp := zeros 12 ++
                 [ Z.land (Z.shiftr j 24) 255; Z.land (Z.shiftr j 16) 255;
                   Z.land (Z.shiftr j 8) 255; Z.land j 255 ] in
      let tmp := xor_bytes tmp R in
      SS <- encrypt_block c tmp;;
      let copy_len := if j =? num_extra_blocks then S_len - j * 16 else 16 in
      _ <- guard_write S_cap (j * 16) copy_len;;
      ctr_loop c n' (j + 1) num_extra_blocks S_len S_cap R
               (take (j * 16) S ++ take copy_len SS)
  end.

(** [ff1_prf(ctx, P, P_len, Q, Q_len, S, S_len)]; [S] points to [S_cap]
    bytes.  The result is what the call leaves in [S[0 .. S_len)]. *)
Definition ff1_prf (ctx : FPE_CTX) (P : list Z) (P_len : Z) (Q : list Z) (Q_len : Z)
           (S_cap S_len : Z) : outcome (list Z) :=
  match ctx_cipher_ctx ctx with
  | None => Err
  | Some c =>
      if negb (P_len =? 16) then Err
      else
        R <- encrypt_block c (take 16 P);;
        R <- cbc_mac_loop c (Z.to_nat (Q_len / 16)) 0 Q R;;
        if S_len <=? 16 then
          _ <- guard_write S_cap 0 S_len;;
          Ok (take S_len R)
        else
          _ <- guard_write S_cap 0 16;;
          let num_extra_blocks := ceildiv S_len 16 - 1 in
          ctr_loop c (Z.to_nat num_extra_blocks) 1 num_extra_blocks S_len S_cap R
                   (take 16 R)
  end.

(** The part of one round that [ff1_encrypt] and [ff1_decrypt] share: the
    assembly of [Q] in [unsigned char Q[256]], the call of [ff1_prf] into
    [S[256]], the copy to [y_bytes[256]] and the conversion to [y_num]. *)
Definition ff1_round_y (ctx : FPE_CTX) (P tweak : list Z) (tweak_len radix b d : Z)
           (i m other_len : Z) (pB : list Z) : outcome (list Z) :=
  (* if (tweak_len > 0) { memcpy(Q + Q_len, tweak, tweak_len); Q_len += tweak_len; } *)
  Q <- (if tweak_len >? 0
        then _ <- guard_write 256 0 tweak_len;; Ok (take tweak_len tweak)
        else Ok []);;
  let Q_len := if tweak_len >? 0 then tweak_len else 0 in
  let pad_amount := - s32 tweak_len - s32 b - 1 in
  let padding_len := u32 (Z.rem (Z.rem pad_amount 16 + 16) 16) in
  (* memset(Q + Q_len, 0, padding_len); Q_len += padding_len; *)
  _ <- guard_write 256 Q_len padding_len;;
  let Q := Q ++ zeros padding_len in
  let Q_len := Q_len + padding_len in
  (* Q[Q_len++] = (unsigned char)i; *)
  _ <- guard_write 256 Q_len 1;;
  let Q := Q ++ [u8 i] in
  let Q_len := Q_len + 1 in
  (* memset(Q + Q_len, 0, b); num_to_bytes(pB, other_len, radix, B_bytes, b);
     memcpy(Q + Q_len, B_bytes, b); Q_len += b; *)
  _ <- guard_write 256 Q_len b;;
  _ <- guard_write 256 0 b;;
  let B_bytes := Codec.num_to_bytes pB other_len radix b in
  let Q := Q ++ take b B_bytes in
  let Q_len := Q_len + b in
  S <- ff1_prf ctx P 16 Q Q_len 256 d;;
  (* memcpy(y_bytes, S, d); *)
  _ <- guard_write 256 0 d;;
  let y_bytes := take d S in
  (* unsigned int y_num[256]; bytes_to_num(y_bytes, d, y_num, m, radix); *)
  _ <- guard_write 256 0 m;;
  Codec.bytes_to_num y_bytes d m radix.

(** [c = (NUM(A) + y) mod radix^m] of [ff1_encrypt]:
    [for (j = m - 1; j >= 0; j--) { sum = pA[j] + y_num[j] + carry;
       pA[j] = (unsigned int)(sum % radix); carry = (unsigned int)(sum / radix); }]. *)
Fixpoint add_digits_down (radix : Z) (a y : list Z) (carry : Z) : list Z * Z :=
  match a, y with
  | aj :: a', yj :: y' =>
      let '(r, carry1) := add_digits_down radix a' y' carry in
      let sum := aj + yj + carry1 in
      (u32 (sum mod radix) :: r, u32 (sum / radix))
  | _, _ => ([], carry)
  end.

(** [c = (NUM(A) - y) mod radix^m] of [ff1_decrypt]:
    [for (j = m - 1; j >= 0; j--) { diff = (long long)pA[j] - y_num[j] - borrow;
       if (diff < 0) { diff += radix; borrow = 1; } else { borrow = 0; }
       pA[j] = (unsigned int)diff; }]. *)
Fixpoint sub_digits_down (radix : Z) (a y : list Z) (borrow : Z) : list Z * Z :=
  match a, y with
  | aj :: a', yj :: y' =>
      let '(r, borrow1) := sub_digits_down radix a' y' borrow in
      let diff := aj - yj - borrow1 in
      if diff <? 0 then (u32 (diff + radix) :: r, 1) else (u32 diff :: r, 0)
  | _, _ => ([], borrow)
  end.

(** The loops above on the first [m] entries of the buffer [pA] points to. *)
Definition ff1_add (radix m : Z) (pA y_num : list Z) : list Z :=
  fst (add_digits_down radix (take m pA) (take m y_num) 0) ++ drop m pA.

Definition ff1_sub (radix m : Z) (pA y_num : list Z) : list Z :=
  fst (sub_digits_down radix (take m pA) (take m y_num) 0) ++ drop m pA.

(** The body of the round loop of [ff1_encrypt]; the state is the pair of
    buffers [pA] and [pB] point to. *)
Definition ff1_encrypt_round (ctx : FPE_CTX) (P tweak : list Z)
           (tweak_len radix u v len b d : Z) (i : Z) (st : list Z * list Z)
  : outcome (list Z * list Z) :=
  let '(pA, pB) := st in
  let m := if negb (Z.land i 1 =? 0) then v else u in
  let other_len := len - m in
  y_num <- ff1_round_y ctx P tweak tweak_len radix b d i m other_len pB;;
  let pA := ff1_add radix m pA y_num in
  (* swap_ptr = pA; pA = pB; pB = swap_ptr; *)
  Ok (pB, pA).

(** The body of the round loop of [ff1_decrypt]. *)
Definition ff1_decrypt_round (ctx : FPE_CTX) (P tweak : list Z)
           (tweak_len radix u v len b d : Z) (i : Z) (st : list Z * list Z)
  : outcome (list Z * list Z) :=
  let '(pA, pB) := st in
  (* swap first *)
  let '(pA, pB) := (pB, pA) in
  let m := if negb (Z.land i 1 =? 0) then v else u in
  let other_len := len - m in
  y_num <- ff1_round_y ctx P tweak tweak_len radix b d i m other_len pB;;
  let pA := ff1_sub radix m pA y_num in
  Ok (pA, pB).

Definition FF1_ROUNDS : nat := 10.

(** [ff1_encrypt(ctx, in, out, len, tweak, tweak_len)]; the result is what
    the call leaves in [out[0 .. len)]. *)
Definition ff1_encrypt (ctx : FPE_CTX) (in_ tweak : list Z) : outcome (list Z) :=
  let len := zlength in_ in
  let tweak_len := zlength tweak in
  if (len <? 2) || (len >? 0xFFFFFFFF) then Err
  else
    let radix := ctx_radix ctx in
    let u := len / 2 in
    let v := len - u in
    if len >? 256 then Err
    else
      let A := take u in_ in
      let B := take v (drop u in_) in
      let b := ceildiv (u32 (ceil_mul_log2 v radix)) 8 in
      let d := u32 (4 * ceildiv b 4 + 4) in
      let P := ff1_build_P radix u len tweak_len in
      st <- for_up FF1_ROUNDS 0
              (ff1_encrypt_round ctx P tweak tweak_len radix u v len b d) (A, B);;
      Ok (take u (fst st) ++ take v (snd st)).

(** [ff1_decrypt(ctx, in, out, len, tweak, tweak_len)]. *)
Definition ff1_decrypt (ctx : FPE_CTX) (in_ tweak : list Z) : outcome (list Z) :=
  let len := zlength in_ in
  let tweak_len := zlength tweak in
  if len <? 2 then Err
  else
    let radix := ctx_radix ctx in
    let u := len / 2 in
    let v := len - u in
    if len >? 256 then Err
    else
      let A := take u in_ in
      let B := take v (drop u in_) in
      let b := ceildiv (u32 (ceil_mul_log2 v radix)) 8 in
      let d := u32 (4 * ceildiv b 4 + 4) in
      let P := ff1_build_P radix u len tweak_len in
      st <- for_down FF1_ROUNDS
              (ff1_decrypt_round ctx P tweak tweak_len radix u v len b d) (A, B);;
      Ok (take u (fst st) ++ take v (snd st)).

(** ** ff3.c and ff3-1.c

    The static helpers of the two files ([num_to_bytes_rev],
    [bytes_to_num_rev], the round function) are the same text up to the
    names of the constants; the two engines differ in how the tweak halves
    are derived. *)

(** [ff3_round_encrypt(ctx, T, round, B, B_len, radix, W, W_len)]; the
    result is what the call leaves in [W]. *)
Definition ff3_round_encrypt (ctx : FPE_CTX) (T : list Z) (round : Z)
           (B : list Z) (B_len radix W_len : Z) : outcome (list Z) :=
  match ctx_cipher_ctx ctx with
  | None => Err
  | Some c =>
      let plaintext := zeros 16 in
      let plaintext := memcpy plaintext T 4 in
      let plaintext := upd 3 (Z.lxor (nth 3 plaintext 0) (u8 round)) plaintext in
      let b := ceildiv (u32 (ceil_mul_log2 B_len radix)) 8 in
      let b := if b >? 12 then 12 else b in
      (* num_to_bytes_rev(B, B_len, radix, plaintext + (16 - b), b) *)
      let plaintext := take (16 - b) plaintext
                       ++ Codec.num_to_bytes_rev B B_len radix b in
      let plaintext := fpe_reverse_bytes plaintext 16 in
      ciphertext <- encrypt_block c plaintext;;
      let ciphertext := fpe_reverse_bytes ciphertext 16 in
      Ok (take (if W_len <? 16 then W_len else 16) ciphertext)
  end.

(** [ff3_1_round_encrypt] of ff3-1.c. *)
Definition ff3_1_round_encrypt (ctx : FPE_CTX) (T : list Z) (round : Z)
           (B : list Z) (B_len radix W_len : Z) : outcome (list Z) :=
  match ctx_cipher_ctx ctx with
  | None => Err
  | Some c =>
      let plaintext := zeros 16 in
      let plaintext := memcpy plaintext T 4 in
      let plaintext := upd 3 (Z.lxor (nth 3 plaintext 0) (u8 round)) plaintext in
      let b := ceildiv (u32 (ceil_mul_log2 B_len radix)) 8 in
      let b := if b >? 12 then 12 else b in
      let plaintext := take (16 - b) plaintext
                       ++ Codec.num_to_bytes_rev B B_len radix b in
      let plaintext := fpe_reverse_bytes plaintext 16 in
      ciphertext <- encrypt_block c plaintext;;
      let ciphertext := fpe_reverse_bytes ciphertext 16 in
      Ok (take (if W_len <? 16 then W_len else 16) ciphertext)
  end.

(** [for (j = 0; j < m; j++) { sum = pA[j] + y[j] + carry;
       pA[j] = (unsigned int)(sum % radix); carry = (unsigned int)(sum / radix); }]. *)
Fixpoint add_digits_up (radix : Z) (a y : list Z) (carry : Z) : list Z :=
  match a, y with
  | aj :: a', yj :: y' =>
      let sum := aj + yj + carry in
      u32 (sum mod radix) :: add_digits_up radix a' y' (u32 (sum / radix))
  | _, _ => []
  end.

(** [for (j = 0; j < m; j++) { diff = (long long)pA[j] - y[j] - borrow;
       if (diff < 0) { diff += radix; borrow = 1; } else { borrow = 0; }
       pA[j] = (unsigned int)diff; }]. *)
Fixpoint sub_digits_up (radix : Z) (a y : list Z) (borrow : Z) : list Z :=
  match a, y with
  | aj :: a', yj :: y' =>
      let diff := aj - yj - borrow in
      if diff <? 0 then u32 (diff + radix) :: sub_digits_up radix a' y' 1
      else u32 diff :: sub_digits_up radix a' y' 0
  | _, _ => []
  end.

Definition ff3_add (radix m : Z) (pA y : list Z) : list Z :=
  add_digits_up radix (take m pA) (take m y) 0 ++ drop m pA.

Definition ff3_sub (radix m : Z) (pA y : list Z) : list Z :=
  sub_digits_up radix (take m pA) (take m y) 0 ++ drop m pA.

(** The body of the round loop of [ff3_encrypt] and of [ff3_1_encrypt],
    over the round function [F] of the file.  (The [b] the loop computes
    is not used.) *)
Definition ff3_encrypt_round
           (F : FPE_CTX -> list Z -> Z -> list Z -> Z -> Z -> Z -> outcome (list Z))
           (ctx : FPE_CTX) (Tl Tr : list Z) (radix u v len : Z)
           (i : Z) (st : list Z * list Z) : outcome (list Z * list Z) :=
  let '(pA, pB) := st in
  let T := if negb (Z.land i 1 =? 0) then Tl else Tr in
  let m := if negb (Z.land i 1 =? 0) then v else u in
  let other_len := len - m in
  (* unsigned char W[16]; the round function copies at most 16 bytes to it *)
  W <- F ctx T i pB other_len radix 16;;
  (* unsigned int y[256]; bytes_to_num_rev(W, 16, y, m, radix); *)
  _ <- guard_write 256 0 m;;
  y <- Codec.bytes_to_num_rev W 16 m radix;;
  let pA := ff3_add radix m pA y in
  Ok (pB, pA).

(** The body of the round loop of [ff3_decrypt] and of [ff3_1_decrypt]. *)
Definition ff3_decrypt_round
           (F : FPE_CTX -> list Z -> Z -> list Z -> Z -> Z -> Z -> outcome (list Z))
           (ctx : FPE_CTX) (Tl Tr : list Z) (radix u v len : Z)
           (i : Z) (st : list Z * list Z) : outcome (list Z * list Z) :=
  let '(pA, pB) := st in
  let '(pA, pB) := (pB, pA) in
  let T := if negb (Z.land i 1 =? 0) then Tl else Tr in
  let m := if negb (Z.land i 1 =? 0) then v else u in
  let other_len := len - m in
  W <- F ctx T i pB other_len radix 16;;
  _ <- guard_write 256 0 m;;
  y <- Codec.bytes_to_num_rev W 16 m radix;;
  let pA := ff3_sub radix m pA y in
  Ok (pA, pB).

Definition FF3_ROUNDS : nat := 8.
Definition FF3_1_ROUNDS : nat := 8.

(** The tweak halves of ff3.c:
    [Tl[4] = {0}; Tr[4] = {0};
     if (tweak_len >= 4) memcpy(Tl, tweak, 4);
     if (tweak_len >= 8) memcpy(Tr, tweak + 4, 4);
     else if (tweak_len == 7) memcpy(Tr, tweak + 4, 3);]. *)
Definition ff3_tweak_halves (tweak : list Z) (tweak_len : Z) : list Z * list Z :=
  let Tl := zeros 4 in
  let Tr := zeros 4 in
  let Tl := if tweak_len >=? 4 then memcpy Tl tweak 4 else Tl in
  let Tr := if tweak_len >=? 8 then memcpy Tr (drop 4 tweak) 4
            else if tweak_len =? 7 then memcpy Tr (drop 4 tweak) 3
            else Tr in
  (Tl, Tr).

(** The tweak halves of ff3-1.c:
    [Tl[4] = {0}; Tr[4] = {0};
     if (tweak_len >= 7) {
       Tl[0] = tweak[0]; Tl[1] = tweak[1]; Tl[2] = tweak[2]; Tl[3] = tweak[3] & 0xF0;
       Tr[0] = tweak[3] & 0x0F; Tr[1] = tweak[4]; Tr[2] = tweak[5]; Tr[3] = tweak[6]; }]. *)
Definition ff3_1_tweak_halves (tweak : list Z) (tweak_len : Z) : list Z * list Z :=
  if tweak_len >=? 7 then
    ([ nth 0 tweak 0; nth 1 tweak 0; nth 2 tweak 0; Z.land (nth 3 tweak 0) 0xF0 ],
     [ Z.land (nth 3 tweak 0) 0x0F; nth 4 tweak 0; nth 5 tweak 0; nth 6 tweak 0 ])
  else (zeros 4, zeros 4).

Definition ff3_encrypt (ctx : FPE_CTX) (in_ tweak : list Z) : outcome (list Z) :=
  let len := zlength in_ in
  let tweak_len := zlength tweak in
  if (len <? 2) || (len >? 256) then Err
  else if negb (tweak_len =? 8) && negb (tweak_len =? 7) && negb (tweak_len =? 0)
  then Err
  else
    let radix := ctx_radix ctx in
    let u := (len + 1) / 2 in
    let v := len - u in
    let A := take u in_ in
    let B := take v (drop u in_) in
    let '(Tl, Tr) := ff3_tweak_halves tweak tweak_len in
    st <- for_up FF3_ROUNDS 0
            (ff3_encrypt_round ff3_round_encrypt ctx Tl Tr radix u v len) (A, B);;
    Ok (take u (fst st) ++ take v (snd st)).

Definition ff3_decrypt (ctx : FPE_CTX) (in_ tweak : list Z) : outcome (list Z) :=
  let len := zlength in_ in
  let tweak_len := zlength tweak in
  if (len <? 2) || (len >? 256) then Err
  else if negb (tweak_len =? 8) && negb (tweak_len =? 7) && negb (tweak_len =? 0)
  then Err
  else
    let radix := ctx_radix ctx in
    let u := (len + 1) / 2 in
    let v := len - u in
    let A := take u in_ in
    let B := take v (drop u in_) in
    let '(Tl, Tr) := ff3_tweak_halves tweak tweak_len in
    st <- for_down FF3_ROUNDS
            (ff3_decrypt_round ff3_round_encrypt ctx Tl Tr radix u v len) (A, B);;
    Ok (take u (fst st) ++ take v (snd st)).

Definition ff3_1_encrypt (ctx : FPE_CTX) (in_ tweak : list Z) : outcome (list Z) :=
  let len := zlength in_ in
  let tweak_len := zlength tweak in
  if (len <? 2) || (len >? 256) then Err
  else if negb (tweak_len =? 7) && negb (tweak_len =? 8) && negb (tweak_len =? 0)
  then Err
  else
    let radix := ctx_radix ctx in
    let u := (len + 1) / 2 in
    let v := len - u in
    let A := take u in_ in
    let B := take v (drop u in_) in
    let '(Tl, Tr) := ff3_1_tweak_halves tweak tweak_len in
    st <- for_up FF3_1_ROUNDS 0
            (ff3_encrypt_round ff3_1_round_encrypt ctx Tl Tr radix u v len) (A, B);;
    Ok (take u (fst st) ++ take v (snd st)).

Definition ff3_1_decrypt (ctx : FPE_CTX) (in_ tweak : list Z) : outcome (list Z) :=
  let len := zlength in_ in
  let tweak_len := zlength tweak in
  if (len <? 2) || (len >? 256) then Err
  else if negb (tweak_len =? 7) && negb (tweak_len =? 8) && negb (tweak_len =? 0)
  then Err
  else
    let radix := ctx_radix ctx in
    let u := (len + 1) / 2 in
    let v := len - u in
    let A := take u in_ in
    let B := take v (drop u in_) in
    let '(Tl, Tr) := ff3_1_tweak_halves tweak tweak_len in
    st <- for_down FF3_1_ROUNDS
            (ff3_decrypt_round ff3_1_round_encrypt ctx Tl Tr radix u v len) (A, B);;
    Ok (take u (fst st) ++ take v (snd st)).

(** ** fpe.c: the unified interface *)

Definition FPE_encrypt (ctx : FPE_CTX) (in_ tweak : list Z) : outcome (list Z) :=
  if negb (fpe_validate_tweak (ctx_mode ctx) (zlength tweak) =? 0) then Err
  else if ctx_mode ctx =? FPE_MODE_FF1 then ff1_encrypt ctx in_ tweak
  else if ctx_mode ctx =? FPE_MODE_FF3 then ff3_encrypt ctx in_ tweak
  else if ctx_mode ctx =? FPE_MODE_FF3_1 then ff3_1_encrypt ctx in_ tweak
  else Err.

Definition FPE_decrypt (ctx : FPE_CTX) (in_ tweak : list Z) : outcome (list Z) :=
  if negb (fpe_validate_tweak (ctx_mode ctx) (zlength tweak) =? 0) then Err
  else if ctx_mode ctx =? FPE_MODE_FF1 then ff1_decrypt ctx in_ tweak
  else if ctx_mode ctx =? FPE_MODE_FF3 then ff3_decrypt ctx in_ tweak
  else if ctx_mode ctx =? FPE_MODE_FF3_1 then ff3_1_decrypt ctx in_ tweak
  else Err.

End Library.

(** ** utils.c: alphabets, strings and hexadecimal text

    A [char] is the value of its byte, [0 .. 255]; a C string
    ([const char *]) is the list of its chars, the terminating NUL left
    out, so that [strlen] is the length of the list.  Where a function
    takes a buffer and a count ([str] and [len]), the list is what it
    reads.  Pointers are not [NULL]. *)

Definition c_string (s : list Z) : Prop := Forall (fun c => 1 <= c <= 255) s.

(** [strchr(s, c)] as an offset into [s].  The terminating NUL belongs
    to the string: [strchr(s, '\0')] points to it. *)
Fixpoint strchr (s : list Z) (c : Z) : option Z :=
  match s with
  | [] => if c =? 0 then Some 0 else None
  | x :: rest => if x =? c then Some 0 else option_map Z.succ (strchr rest c)
  end.

(** [fpe_char_to_index(alphabet, c)]: [-1] when [strchr] finds nothing,
    [(int)(pos - alphabet)] otherwise. *)
Definition fpe_char_to_index (alphabet : list Z) (c : Z) : Z :=
  match strchr alphabet c with
  | None => -1
  | Some off => s32 off
  end.

(** [fpe_index_to_char(alphabet, index)]: ['\0'] when
    [index >= strlen(alphabet)]. *)
Definition fpe_index_to_char (alphabet : list Z) (index : Z) : Z :=
  if index >=? zlength alphabet then 0 else nth (Z.to_nat index) alphabet 0.

(** [fpe_str_to_array(alphabet, str, arr, len)]: the digits written to
    [arr], or [-1] at the first char that [fpe_char_to_index] does not
    find. *)
Fixpoint fpe_str_to_array (alphabet : list Z) (str : list Z) : outcome (list Z) :=
  match str with
  | [] => Ok []
  | c :: rest =>
      let idx := fpe_char_to_index alphabet c in
      if idx <? 0 then Err
      else arr <- fpe_str_to_array alphabet rest;; Ok (u32 idx :: arr)
  end.

(** [fpe_array_to_str(alphabet, arr, str, len)]: the chars written to
    [str] (a NUL follows them), or [-1] at the first [arr[i] >= radix],
    where [radix = strlen(alphabet)]. *)
Fixpoint fpe_array_to_str (alphabet : list Z) (arr : list Z) : outcome (list Z) :=
  match arr with
  | [] => Ok []
  | a :: rest =>
      if a >=? zlength alphabet then Err
      else str <- fpe_array_to_str alphabet rest;;
           Ok (nth (Z.to_nat a) alphabet 0 :: str)
  end.

(** The two nested loops of [fpe_validate_alphabet]:
    [for (i) for (j = i + 1; j < len; j++) if (alphabet[i] == alphabet[j]) return 0]. *)
Fixpoint has_duplicate (s : list Z) : bool :=
  match s with
  | [] => false
  | c :: rest => existsb (Z.eqb c) rest || has_duplicate rest
  end.

(** [fpe_validate_alphabet(alphabet)]: the radix, or [0]. *)
Definition fpe_validate_alphabet (alphabet : list Z) : Z :=
  let len := zlength alphabet in
  if (len <? 2) || (len >? 65536) then 0
  else if has_duplicate alphabet then 0
  else u32 len.

Definition fpe_validate_buffer_size (len required : Z) : Z :=
  if len >=? required then 0 else -1.

(** [hex_char_to_int(c)]; the char constants are ['0'] = 48, ['9'] = 57,
    ['a'] = 97, ['f'] = 102, ['A'] = 65, ['F'] = 70.  (A [char] above 127
    fails the three tests whether [char] is signed or not.) *)
Definition hex_char_to_int (c : Z) : Z :=
  if (c >=? 48) && (c <=? 57) then c - 48
  else if (c >=? 97) && (c <=? 102) then c - 97 + 10
  else if (c >=? 65) && (c <=? 70) then c - 65 + 10
  else -1.

(** The loop of [fpe_hex_to_bytes] over the pairs of chars: whether it
    ran to its end, and the bytes it wrote. *)
Fixpoint hex_pairs (hex : list Z) : bool * list Z :=
  match hex with
  | h :: l :: rest =>
      let high := hex_char_to_int h in
      let low := hex_char_to_int l in
      if (high <? 0) || (low <? 0) then (false, [])
      else
        let '(ok, bytes) := hex_pairs rest in
        (ok, u8 (Z.lor (Z.shiftl high 4) low) :: bytes)
  | _ => (true, [])
  end.

(** [fpe_hex_to_bytes(hex, bytes, max_bytes)]: the value returned and the
    bytes written to [bytes]. *)
Definition fpe_hex_to_bytes (hex : list Z) (max_bytes : Z) : Z * list Z :=
  let hex_len := zlength hex in
  if negb (hex_len mod 2 =? 0) then (-1, [])
  else
    let byte_len := hex_len / 2 in
    if byte_len >? max_bytes then (-1, [])
    else
      let '(ok, bytes) := hex_pairs hex in
      if ok then (s32 byte_len, bytes) else (-1, bytes).

(** ["0123456789ABCDEF"] *)
Definition hex_chars : list Z :=
  [48; 49; 50; 51; 52; 53; 54; 55; 56; 57; 65; 66; 67; 68; 69; 70].

(** [fpe_bytes_to_hex(bytes, len, hex)]: the chars written to [hex] (a
    NUL follows them); the call returns 0. *)
Definition fpe_bytes_to_hex (bytes : list Z) : list Z :=
  flat_map (fun b => [ nth (Z.to_nat (Z.land (Z.shiftr b 4) 0xF)) hex_chars 0;
                       nth (Z.to_nat (Z.land b 0xF)) hex_chars 0 ]) bytes.

Section StringInterface.
Context {PF : Platform}.

(** [FPE_encrypt_str(ctx, alphabet, in, out, tweak, tweak_len)]: the
    string left in [out].  [malloc] does not fail. *)
Definition FPE_encrypt_str (ctx : FPE_CTX) (alphabet in_ tweak : list Z)
  : outcome (list Z) :=
  let radix := fpe_validate_alphabet alphabet in
  if (radix =? 0) || negb (radix =? ctx_radix ctx) then Err
  else
    let len := u32 (zlength in_) in
    if len =? 0 then Err
    else
      in_arr <- fpe_str_to_array alphabet (take len in_);;
      out_arr <- FPE_encrypt ctx in_arr tweak;;
      fpe_array_to_str alphabet out_arr.

Definition FPE_decrypt_str (ctx : FPE_CTX) (alphabet in_ tweak : list Z)
  : outcome (list Z) :=
  let radix := fpe_validate_alphabet alphabet in
  if (radix =? 0) || negb (radix =? ctx_radix ctx) then Err
  else
    let len := u32 (zlength in_) in
    if len =? 0 then Err
    else
      in_arr <- fpe_str_to_array alphabet (take len in_);;
      out_arr <- FPE_decrypt ctx in_arr tweak;;
      fpe_array_to_str alphabet out_arr.

(** [FPE_encrypt_oneshot] and [FPE_decrypt_oneshot]: a fresh context,
    [FPE_CTX_init], the operation when the initialisation returned 0,
    [FPE_CTX_free].  [calloc] does not fail. *)
Definition FPE_encrypt_oneshot (mode algo : Z) (key : list Z) (key_bits radix : Z)
           (in_ tweak : list Z) : outcome (list Z) :=
  let '(ret, ctx) := FPE_CTX_init FPE_CTX_new mode algo key key_bits radix in
  if ret =? 0 then FPE_encrypt ctx in_ tweak else Err.

Definition FPE_decrypt_oneshot (mode algo : Z) (key : list Z) (key_bits radix : Z)
           (in_ tweak : list Z) : outcome (list Z) :=
  let '(ret, ctx) := FPE_CTX_init FPE_CTX_new mode algo key key_bits radix in
  if ret =? 0 then FPE_decrypt ctx in_ tweak else Err.

Definition FPE_encrypt_str_oneshot (mode algo : Z) (key : list Z) (key_bits : Z)
           (alphabet in_ tweak : list Z) : outcome (list Z) :=
  let radix := fpe_validate_alphabet alphabet in
  if radix =? 0 then Err
  else
    let '(ret, ctx) := FPE_CTX_init FPE_CTX_new mode algo key key_bits radix in
    if ret =? 0 then FPE_encrypt_str ctx alphabet in_ tweak else Err.

Definition FPE_decrypt_str_oneshot (mode algo : Z) (key : list Z) (key_bits : Z)
           (alphabet in_ tweak : list Z) : outcome (list Z) :=
  let radix := fpe_validate_alphabet alphabet in
  if radix =? 0 then Err
  else
    let '(ret, ctx) := FPE_CTX_init FPE_CTX_new mode algo key key_bits radix in
    if ret =? 0 then FPE_decrypt_str ctx alphabet in_ tweak else Err.

End StringInterface.

(** ** A platform to run the library on

    AES as FIPS 197 defines it, for the three key sizes; no SM4.  It serves
    to evaluate the library on concrete inputs. *)

Module AES.

(** Multiplication by [x] and general multiplication in GF(2^8) modulo
    [x^8 + x^4 + x^3 + x + 1]. *)
Definition xtime (a : Z) : Z :=
  let a2 := Z.shiftl a 1 in
  if a2 >=? 256 then Z.lxor (a2 - 256) 0x1b else a2.

Fixpoint gmul (n : nat) (a b : Z) : Z :=
  match n with
  | O => 0
  | S n' => Z.lxor (if Z.odd b then a else 0) (gmul n' (xtime a) (Z.shiftr b 1))
  end.

Fixpoint gpow (n : nat) (a : Z) : Z :=
  match n with
  | O => 1
  | S n' => gmul 8 a (gpow n' a)
  end.

Definition rotl8 (b : Z) (i : Z) : Z :=
  Z.land (Z.lor (Z.shiftl b i) (Z.shiftr b (8 - i))) 255.

(** The S-box: the inverse [b = a^254], then the affine map. *)
Definition sbox_entry (a : Z) : Z :=
  let b := gpow 254 a in
  Z.lxor (Z.lxor (Z.lxor b (rotl8 b 1)) (Z.lxor (rotl8 b 2) (rotl8 b 3)))
         (Z.lxor (rotl8 b 4) 0x63).

Definition sbox : list Z :=
  Eval vm_compute in map (fun a => sbox_entry (Z.of_nat a)) (seq 0 256).

Definition sub_byte (b : Z) : Z := nth (Z.to_nat b) sbox 0.

Definition xor_word (a b : list Z) : list Z :=
  map (fun p => Z.lxor (fst p) (snd p)) (combine a b).

Definition rot_word (w : list Z) : list Z := skipn 1 w ++ firstn 1 w.

(** Key expansion: the words [w[Nk] ..], given the words so far in
    reverse order. *)
Fixpoint expand (n : nat) (Nk i : nat) (rc : Z) (rev_w : list (list Z))
  : list (list Z) :=
  match n with
  | O => rev rev_w
  | S n' =>
      let temp := nth 0 rev_w [] in
      let '(temp, rc') :=
        if (i mod Nk =? 0)%nat
        then (xor_word (map sub_byte (rot_word temp)) [rc; 0; 0; 0], xtime rc)
        else if (6 <? Nk)%nat && (i mod Nk =? 4)%nat
             then (map sub_byte temp, rc)
             else (temp, rc) in
      expand n' Nk (S i) rc' (xor_word (nth (Nk - 1) rev_w []) temp :: rev_w)
  end.

Fixpoint words (n : nat) (k : list Z) : list (list Z) :=
  match n with
  | O => []
  | S n' => firstn 4 k :: words n' (skipn 4 k)
  end.

Fixpoint chunks (n : nat) (w : list (list Z)) : list (list Z) :=
  match n with
  | O => []
  | S n' => concat (firstn 4 w) :: chunks n' (skipn 4 w)
  end.

(** The [Nr + 1] round keys of a key of [Nk] words. *)
Definition round_keys (k : list Z) : list (list Z) :=
  let Nk := (length k / 4)%nat in
  let Nr := (Nk + 6)%nat in
  chunks (S Nr) (expand (4 * S Nr - Nk) Nk Nk 1 (rev (words Nk k))).

Definition shift_rows (s : list Z) : list Z :=
  map (fun i => nth i s 0) [0; 5; 10; 15; 4; 9; 14; 3; 8; 13; 2; 7; 12; 1; 6; 11]%nat.

Definition mix_column (c : list Z) : list Z :=
  match c with
  | [a; b; c; d] =>
      [ Z.lxor (Z.lxor (xtime a) (Z.lxor (xtime b) b)) (Z.lxor c d);
        Z.lxor (Z.lxor a (xtime b)) (Z.lxor (Z.lxor (xtime c) c) d);
        Z.lxor (Z.lxor a b) (Z.lxor (xtime c) (Z.lxor (xtime d) d));
        Z.lxor (Z.lxor (Z.lxor (xtime a) a) b) (Z.lxor c (xtime d)) ]
  | _ => c
  end.

Definition mix_columns (s : list Z) : list Z :=
  concat (map mix_column (words 4 s)).

(** The cipher of FIPS 197 on one block. *)
Definition encrypt (k blk : list Z) : list Z :=
  match round_keys k with
  | k0 :: rest =>
      let s := xor_word blk k0 in
      let s := fold_left
                 (fun s rk => xor_word (mix_columns (shift_rows (map sub_byte s))) rk)
                 (removelast rest) s in
      xor_word (shift_rows (map sub_byte s)) (last rest [])
  | [] => []
  end.

End AES.

#[local] Instance aes_platform : Platform := {|
  HAVE_OPENSSL_SM4 := false;
  EVP_EncryptInit_ex :=
    fun cipher _ => match cipher with EVP_sm4_ecb => false | _ => true end;
  EVP_EncryptUpdate :=
    fun cipher k blk =>
      match cipher with EVP_sm4_ecb => None | _ => Some (AES.encrypt k blk) end;
  ceil_mul_log2 := fun n radix => Z.log2_up (radix ^ n)
|}.

(** The key of the FF1 samples of NIST SP 800-38G, and a 32-byte key. *)
Definition sample_key16 : list Z :=
  [0x2B; 0x7E; 0x15; 0x16; 0x28; 0xAE; 0xD2; 0xA6;
   0xAB; 0xF7; 0x15; 0x88; 0x09; 0xCF; 0x4F; 0x3C].
Definition sample_key32 : list Z :=
  [101; 102; 103; 104; 105; 106; 107; 108; 109; 110; 111; 112; 113; 114; 115; 116;
   117; 118; 119; 120; 121; 122; 123; 124; 125; 126; 127; 128; 129; 130; 131; 132].

(** A fresh context initialised for [mode], AES-128 and [radix]. *)
Definition sample_ctx (mode radix : Z) : FPE_CTX :=
  snd (FPE_CTX_init FPE_CTX_new mode FPE_ALGO_AES sample_key16 128 radix).

(** ** Specification-side notions *)

(** Big-endian value of a byte string. *)
Fixpoint be_val (l : list Z) : Z :=
  match l with
  | [] => 0
  | b :: rest => b * 256 ^ zlength rest + be_val rest
  end.

(** The [n]-byte big-endian encoding of [x] (of [x mod 256^n]). *)
Fixpoint be_bytes (n : nat) (x : Z) : list Z :=
  match n with
  | O => []
  | S k => (x / 256 ^ Z.of_nat k) mod 256 :: be_bytes k x
  end.

(** Value of a numeral string whose first digit is the least significant. *)
Fixpoint le_val (radix : Z) (x : list Z) : Z :=
  match x with
  | [] => 0
  | d :: ds => d + radix * le_val radix ds
  end.

(** Horner evaluation, first digit most significant, from [acc]. *)
Definition horner (radix : Z) (x : list Z) (acc : Z) : Z :=
  fold_left (fun a d => a * radix + d) x acc.

(** The [len] least significant base-[radix] digits of [n], least
    significant first. *)
Fixpoint to_digits (radix : Z) (len : nat) (n : Z) : list Z :=
  match len with
  | O => []
  | S k => n mod radix :: to_digits radix k (n / radix)
  end.

Definition is_byte (b : Z) : Prop := 0 <= b < 256.
Definition is_digit (radix : Z) (d : Z) : Prop := 0 <= d < radix.

(** The shape the three round loops share.  [Y i m pB] is the numeral
    string [y] of round [i] ([m] digits, computed from the half [pB]);
    [add] and [sub] update the first [m] digits of the other half. *)
Section Feistel.
Variable Y : Z -> Z -> list Z -> outcome (list Z).
Variables add sub : Z -> list Z -> list Z -> list Z.
Variables u v : Z.

(** [m = (i & 1) ? v : u] *)
Definition half_len (i : Z) : Z := if negb (Z.land i 1 =? 0) then v else u.

Definition feistel_encrypt_round (i : Z) (st : list Z * list Z)
  : outcome (list Z * list Z) :=
  let '(pA, pB) := st in
  y <- Y i (half_len i) pB;;
  Ok (pB, add (half_len i) pA y).

Definition feistel_decrypt_round (i : Z) (st : list Z * list Z)
  : outcome (list Z * list Z) :=
  let '(pA, pB) := st in
  y <- Y i (half_len i) pA;;
  Ok (sub (half_len i) pB y, pA).

End Feistel.

(** The state of a round loop before round [i]: the half [pA] points to
    has [half_len i] digits, the other one the rest. *)
Definition halves_sized (u v : Z) (i : Z) (st : list Z * list Z) : Prop :=
  zlength (fst st) = half_len u v i /\ zlength (snd st) = half_len u v (i + 1).

(** Both halves are numeral strings of the right lengths. *)
Definition numeral_halves (u v radix : Z) (i : Z) (st : list Z * list Z) : Prop :=
  halves_sized u v i st /\
  Forall (is_digit radix) (fst st) /\ Forall (is_digit radix) (snd st).

(** After [k] rounds the halves written so far are numeral strings. *)
Definition written_halves (u v radix : Z) (k : Z) (st : list Z * list Z) : Prop :=
  halves_sized u v k st /\
  (1 <= k -> Forall (is_digit radix) (snd st)) /\
  (2 <= k -> Forall (is_digit radix) (fst st)).

(** The frame of every engine: split the input at [u], run the round
    loop, concatenate the halves. *)
Definition engine (u v : Z) (loop : list Z * list Z -> outcome (list Z * list Z))
           (in_ : list Z) : outcome (list Z) :=
  st <- loop (take u in_, take v (drop u in_));;
  Ok (take u (fst st) ++ take v (snd st)).

(** The numeral string [y] of a round of FF1 and of the FF3 family, as
    functions of the round, of the length [m] of the half to update and of
    the other half. *)
Definition ff1_Y {PF : Platform} (ctx : FPE_CTX) (P tweak : list Z)
           (tweak_len radix len b d : Z) (i m : Z) (pB : list Z) : outcome (list Z) :=
  ff1_round_y ctx P tweak tweak_len radix b d i m (len - m) pB.

Definition ff3_Y (F : FPE_CTX -> list Z -> Z -> list Z -> Z -> Z -> Z -> outcome (list Z))
           (ctx : FPE_CTX) (Tl Tr : list Z) (radix len : Z)
           (i m : Z) (pB : list Z) : outcome (list Z) :=
  W <- F ctx (if negb (Z.land i 1 =? 0) then Tl else Tr) i pB (len - m) radix 16;;
  _ <- guard_write 256 0 m;;
  Codec.bytes_to_num_rev W 16 m radix.

(** The tweak lengths of the FF3 family. *)
Definition ff3_tweak_len_ok (tweak_len : Z) : Prop :=
  tweak_len = 0 \/ tweak_len = 7 \/ tweak_len = 8.

(** The key check of [FPE_CTX_init]. *)
Definition key_bits_ok (algo bits : Z) : Prop :=
  (algo = FPE_ALGO_AES /\ (bits = 128 \/ bits = 192 \/ bits = 256)) \/
  (algo = FPE_ALGO_SM4 /\ bits = 128).

(** The sizes of FF1: [b] and [d] as [ff1_encrypt] computes them, the
    padding and the final length of [Q], and the condition under which [Q]
    and [S] (and [y_bytes], [temp]) stay inside their 256 bytes. *)
Definition ff1_b {PF : Platform} (v radix : Z) : Z :=
  ceildiv (u32 (ceil_mul_log2 v radix)) 8.

Definition ff1_d (b : Z) : Z := u32 (4 * ceildiv b 4 + 4).

Definition ff1_padding_len (tweak_len b : Z) : Z :=
  u32 (Z.rem (Z.rem (- s32 tweak_len - s32 b - 1) 16 + 16) 16).

Definition ff1_Q_len (tweak_len b : Z) : Z :=
  tweak_len + ff1_padding_len tweak_len b + 1 + b.

Definition ff1_fits (tweak_len b d : Z) : Prop :=
  ff1_Q_len tweak_len b <= 256 /\ d <= 256.

(** The context holds a keyed cipher whose block encryption does not fail. *)
Definition cipher_works {PF : Platform} (ctx : FPE_CTX) : Prop :=
  exists cipher k,
    ctx_cipher_ctx ctx = Some (evp_keyed cipher k) /\
    forall blk, EVP_EncryptUpdate cipher k blk <> None.

(** * Theorems *)

(** ** Machine arithmetic *)

Lemma land_255 (x : Z) : Z.land x 255 = x mod 256.
Proof. change 255 with (Z.ones 8). rewrite Z.land_ones by lia. reflexivity. Qed.

Lemma shiftr_8 (x : Z) : Z.shiftr x 8 = x / 256.
Proof. rewrite Z.shiftr_div_pow2 by lia. reflexivity. Qed.

Lemma land_shifted_byte (r b : Z) : 0 <= b < 256 -> Z.land (r * 256) b = 0.
Proof.
  intros Hb.
  apply Z.bits_inj'; intros n Hn.
  rewrite Z.land_spec, Z.bits_0.
  destruct (Z.ltb_spec n 8).
  - change 256 with (2 ^ 8). rewrite Z.mul_pow2_bits_low by lia. reflexivity.
  - rewrite (Z.bits_above_log2 b n); [apply andb_false_r | lia |].
    destruct (Z.eq_dec b 0) as [->|]; [simpl; lia|].
    apply Z.log2_lt_pow2; [lia|].
    apply Z.lt_le_trans with (2 ^ 8); [simpl; lia|].
    apply Z.pow_le_mono_r; lia.
Qed.

Lemma lor_shiftl_8 (r b : Z) :
  0 <= b < 256 -> Z.lor (Z.shiftl r 8) b = r * 256 + b.
Proof.
  intros Hb.
  rewrite Z.shiftl_mul_pow2 by lia. change (2 ^ 8) with 256.
  rewrite <- Z.lxor_lor by (apply land_shifted_byte; exact Hb).
  symmetry. apply Z.add_nocarry_lxor, land_shifted_byte, Hb.
Qed.

Lemma u8_small (x : Z) : 0 <= x < 256 -> u8 x = x.
Proof. intros; unfold u8; apply Z.mod_small; lia. Qed.

Lemma u32_small (x : Z) : 0 <= x < 2 ^ 32 -> u32 x = x.
Proof. intros; unfold u32; apply Z.mod_small; lia. Qed.

Lemma u32_range (x : Z) : 0 <= u32 x < 2 ^ 32.
Proof. unfold u32; apply Z.mod_pos_bound; lia. Qed.

(** ** Lists indexed by C integers *)

Lemma zlength_nonneg {A : Type} (l : list A) : 0 <= zlength l.
Proof. unfold zlength; lia. Qed.

Lemma zlength_cons {A : Type} (a : A) (l : list A) : zlength (a :: l) = zlength l + 1.
Proof. unfold zlength; simpl length; lia. Qed.

Lemma zlength_app {A : Type} (l1 l2 : list A) :
  zlength (l1 ++ l2) = zlength l1 + zlength l2.
Proof. unfold zlength; rewrite length_app; lia. Qed.

Lemma take_all {A : Type} (n : Z) (l : list A) : zlength l <= n -> take n l = l.
Proof. unfold take, zlength; intros; apply firstn_all2; lia. Qed.

Lemma drop_all {A : Type} (n : Z) (l : list A) : zlength l <= n -> drop n l = [].
Proof. unfold drop, zlength; intros; apply skipn_all2; lia. Qed.

Lemma zlength_take {A : Type} (n : Z) (l : list A) :
  0 <= n <= zlength l -> zlength (take n l) = n.
Proof. unfold take, zlength; intros; rewrite length_firstn; lia. Qed.

Lemma zlength_drop {A : Type} (n : Z) (l : list A) :
  0 <= n <= zlength l -> zlength (drop n l) = zlength l - n.
Proof. unfold drop, zlength; intros; rewrite length_skipn; lia. Qed.

Lemma take_drop {A : Type} (n : Z) (l : list A) : take n l ++ drop n l = l.
Proof. unfold take, drop; apply firstn_skipn. Qed.

Lemma take_app_exact {A : Type} (n : Z) (l1 l2 : list A) :
  zlength l1 = n -> take n (l1 ++ l2) = l1.
Proof.
  unfold take, zlength; intros H.
  replace (Z.to_nat n) with (length l1 + 0)%nat by lia.
  rewrite firstn_app_2; simpl; apply app_nil_r.
Qed.

Lemma drop_app_exact {A : Type} (n : Z) (l1 l2 : list A) :
  zlength l1 = n -> drop n (l1 ++ l2) = l2.
Proof.
  unfold drop, zlength; intros H.
  replace (Z.to_nat n) with (length l1) by lia.
  rewrite skipn_app, skipn_all, Nat.sub_diag; reflexivity.
Qed.

Lemma zlength_zeros (n : Z) : 0 <= n -> zlength (zeros n) = n.
Proof. unfold zeros, zlength; intros; rewrite repeat_length; lia. Qed.

Lemma zlength_rev {A : Type} (l : list A) : zlength (rev l) = zlength l.
Proof. unfold zlength; rewrite length_rev; reflexivity. Qed.

(** ** The numeral codec *)

Lemma pow_plus_1 (a n : Z) : 0 <= n -> a ^ (n + 1) = a * a ^ n.
Proof. intros; rewrite Z.pow_add_r, Z.pow_1_r by lia; ring. Qed.

Lemma be_val_range (l : list Z) :
  Forall is_byte l -> 0 <= be_val l < 256 ^ zlength l.
Proof.
  induction 1 as [|b rest Hb _ IH]; cbn [be_val].
  - unfold zlength; simpl; lia.
  - rewrite zlength_cons, pow_plus_1 by apply zlength_nonneg.
    unfold is_byte in Hb.
    assert (0 < 256 ^ zlength rest) by (apply Z.pow_pos_nonneg; [lia | apply zlength_nonneg]).
    nia.
Qed.

Lemma mul_add_bytes_length (radix : Z) (out : list Z) (carry : Z) :
  length (fst (Codec.mul_add_bytes radix out carry)) = length out.
Proof.
  induction out as [|byte rest IH]; cbn [Codec.mul_add_bytes]; [reflexivity|].
  destruct (Codec.mul_add_bytes radix rest carry) as [rest' carry1]; cbn [fst length] in *.
  congruence.
Qed.

(** One pass of the inner loop of [num_to_bytes] multiplies the buffer by
    [radix] and adds [carry]; what does not fit leaves as the carry. *)
Lemma mul_add_bytes_spec (radix : Z) (out : list Z) (carry : Z) (out' : list Z) (c' : Z) :
  0 <= radix <= 2 ^ 24 -> 0 <= carry < 2 ^ 32 -> Forall is_byte out ->
  Codec.mul_add_bytes radix out carry = (out', c') ->
  Forall is_byte out' /\ zlength out' = zlength out /\ 0 <= c' < 2 ^ 32 /\
  c' * 256 ^ zlength out + be_val out' = be_val out * radix + carry.
Proof.
  intros Hr Hc Hout; revert out' c';
    induction Hout as [|byte rest Hb Hrest IH]; intros out' c' E;
    cbn [Codec.mul_add_bytes] in E.
  - injection E as <- <-. cbn [be_val].
    split; [constructor|]. split; [reflexivity|]. split; [lia|].
    unfold zlength; cbn [length Z.of_nat]; rewrite Z.pow_0_r; lia.
  - destruct (Codec.mul_add_bytes radix rest carry) as [rest' carry1].
    destruct (IH rest' carry1 eq_refl) as (IHb & IHl & IHc & IHv).
    unfold is_byte in Hb.
    set (tmp := byte * radix + carry1) in E.
    assert (Htmp : 0 <= tmp < 2 ^ 40) by (unfold tmp; nia).
    rewrite land_255, shiftr_8 in E.
    rewrite u8_small in E by (apply Z.mod_pos_bound; lia).
    rewrite u32_small in E
      by (split; [apply Z.div_pos; lia | apply Z.div_lt_upper_bound; lia]).
    injection E as <- <-.
    cbn [be_val]; rewrite !zlength_cons, IHl.
    split; [constructor; [apply Z.mod_pos_bound; lia | exact IHb]|].
    split; [reflexivity|].
    split; [split; [apply Z.div_pos; lia | apply Z.div_lt_upper_bound; lia]|].
    rewrite pow_plus_1 by apply zlength_nonneg.
    pose proof (Z.div_mod tmp 256 ltac:(lia)) as Hdm.
    replace (tmp / 256 * (256 * 256 ^ zlength rest)
             + (tmp mod 256 * 256 ^ zlength rest + be_val rest'))
      with ((256 * (tmp / 256) + tmp mod 256) * 256 ^ zlength rest + be_val rest')
      by ring.
    rewrite <- Hdm; unfold tmp.
    replace ((byte * radix + carry1) * 256 ^ zlength rest + be_val rest')
      with (byte * 256 ^ zlength rest * radix
            + (carry1 * 256 ^ zlength rest + be_val rest')) by ring.
    rewrite IHv; ring.
Qed.

Lemma mul_add_bytes_val (radix : Z) (out : list Z) (carry : Z) :
  0 <= radix <= 2 ^ 24 -> 0 <= carry < 2 ^ 32 -> Forall is_byte out ->
  Forall is_byte (fst (Codec.mul_add_bytes radix out carry)) /\
  zlength (fst (Codec.mul_add_bytes radix out carry)) = zlength out /\
  be_val (fst (Codec.mul_add_bytes radix out carry))
  = (be_val out * radix + carry) mod 256 ^ zlength out.
Proof.
  intros Hr Hc Hout.
  destruct (Codec.mul_add_bytes radix out carry) as [out' c'] eqn:E.
  destruct (mul_add_bytes_spec _ _ _ _ _ Hr Hc Hout E) as (Hb & Hl & _ & Hv).
  cbn [fst]; split; [exact Hb|]; split; [exact Hl|].
  pose proof (be_val_range _ Hb) as Hrange; rewrite Hl in Hrange.
  rewrite <- Hv, Z.add_comm, Z.mod_add.
  - symmetry; apply Z.mod_small; exact Hrange.
  - apply Z.pow_nonzero; [lia | apply zlength_nonneg].
Qed.

Lemma horner_mod (radix M : Z) (x : list Z) (a : Z) :
  horner radix x (a mod M) mod M = horner radix x a mod M.
Proof.
  revert a; induction x as [|d ds IH]; intros a; unfold horner in *;
    cbn [fold_left].
  - apply Zmod_mod.
  - rewrite <- IH, <- (IH (a * radix + d)). do 2 f_equal.
    rewrite Zplus_mod, Zmult_mod, Zmod_mod, <- Zmult_mod, <- Zplus_mod.
    reflexivity.
Qed.

(** The bytes [num_to_bytes] produces: the Horner value of the digits,
    reduced to the width of the buffer. *)
Lemma fold_mul_add_val (radix : Z) (x out : list Z) :
  0 <= radix <= 2 ^ 24 -> Forall (fun d => 0 <= d < 2 ^ 32) x -> Forall is_byte out ->
  let res := fold_left (fun o xi => fst (Codec.mul_add_bytes radix o xi)) x out in
  Forall is_byte res /\ zlength res = zlength out /\
  be_val res = horner radix x (be_val out) mod 256 ^ zlength out.
Proof.
  intros Hr Hx; revert out; induction Hx as [|d ds Hd Hds IH]; intros out Hout;
    cbn [fold_left]; cbv zeta.
  - split; [exact Hout|]; split; [reflexivity|].
    unfold horner; cbn [fold_left]. symmetry; apply Z.mod_small, be_val_range, Hout.
  - destruct (mul_add_bytes_val radix out d Hr Hd Hout) as (Hb & Hl & Hv).
    destruct (IH _ Hb) as (IHb & IHl & IHv).
    split; [exact IHb|]; split; [congruence|].
    rewrite IHv, Hl, Hv, horner_mod. reflexivity.
Qed.

(** One pass of the inner loop of [bytes_to_num] is a long division of
    [remainder * 256^n + temp] by [radix]. *)
Lemma div_bytes_spec (radix : Z) (temp : list Z) (remainder : Z) (q : list Z) (r : Z) :
  2 <= radix <= 2 ^ 24 -> Forall is_byte temp -> 0 <= remainder < radix ->
  Codec.div_bytes radix temp remainder = (q, r) ->
  Forall is_byte q /\ zlength q = zlength temp /\ 0 <= r < radix /\
  be_val q * radix + r = remainder * 256 ^ zlength temp + be_val temp.
Proof.
  intros Hr Htemp; revert remainder q r;
    induction Htemp as [|byte rest Hb Hrest IH]; intros remainder q r Hrem E;
    cbn [Codec.div_bytes] in E.
  - injection E as <- <-. cbn [be_val].
    split; [constructor|]. split; [reflexivity|]. split; [lia|].
    unfold zlength; cbn [length Z.of_nat]; rewrite Z.pow_0_r; lia.
  - unfold is_byte in Hb.
    rewrite lor_shiftl_8 in E by exact Hb.
    set (tmp := remainder * 256 + byte) in E.
    assert (Htmp : 0 <= tmp < 256 * radix) by (unfold tmp; nia).
    assert (Hm : 0 <= tmp mod radix < radix) by (apply Z.mod_pos_bound; lia).
    assert (Hq : 0 <= tmp / radix < 256)
      by (split; [apply Z.div_pos; lia | apply Z.div_lt_upper_bound; lia]).
    rewrite u32_small in E by lia.
    rewrite u8_small in E by exact Hq.
    destruct (Codec.div_bytes radix rest (tmp mod radix)) as [rest' r'] eqn:E'.
    injection E as <- <-.
    destruct (IH _ _ _ Hm E') as (IHb & IHl & IHr & IHv).
    cbn [be_val]; rewrite !zlength_cons, IHl.
    split; [constructor; [exact Hq | exact IHb]|].
    split; [reflexivity|]. split; [exact IHr|].
    rewrite pow_plus_1 by apply zlength_nonneg.
    pose proof (Z.div_mod tmp radix ltac:(lia)) as Hdm.
    replace ((tmp / radix * 256 ^ zlength rest + be_val rest') * radix + r')
      with (radix * (tmp / radix) * 256 ^ zlength rest + (be_val rest' * radix + r'))
      by ring.
    rewrite IHv.
    replace (remainder * (256 * 256 ^ zlength rest) + (byte * 256 ^ zlength rest + be_val rest))
      with ((radix * (tmp / radix) + tmp mod radix) * 256 ^ zlength rest + be_val rest)
      by (rewrite <- Hdm; unfold tmp; ring).
    ring.
Qed.

Lemma digits_of_bytes_spec (radix : Z) (len : nat) (temp : list Z) :
  2 <= radix <= 2 ^ 24 -> Forall is_byte temp ->
  Codec.digits_of_bytes radix len temp = to_digits radix len (be_val temp).
Proof.
  intros Hr; revert temp; induction len as [|n IH]; intros temp Htemp;
    cbn [Codec.digits_of_bytes to_digits]; [reflexivity|].
  destruct (Codec.div_bytes radix temp 0) as [q r] eqn:E.
  assert (H0 : 0 <= 0 < radix) by lia.
  destruct (div_bytes_spec _ _ _ _ _ Hr Htemp H0 E) as (Hb & _ & Hrr & Hv).
  rewrite Z.mul_0_l, Z.add_0_l in Hv.
  assert (Hq : be_val temp / radix = be_val q)
    by (symmetry; apply Z.div_unique with r; [left; exact Hrr | lia]).
  assert (Hm : be_val temp mod radix = r)
    by (symmetry; apply Z.mod_unique with (be_val q); [left; exact Hrr | lia]).
  rewrite Hq, Hm, (IH q Hb). reflexivity.
Qed.


Lemma le_val_range (radix : Z) (x : list Z) :
  0 < radix -> Forall (is_digit radix) x -> 0 <= le_val radix x < radix ^ zlength x.
Proof.
  intros Hr; induction 1 as [|d ds Hd _ IH]; cbn [le_val].
  - unfold zlength; cbn [length Z.of_nat]; rewrite Z.pow_0_r; lia.
  - rewrite zlength_cons, pow_plus_1 by apply zlength_nonneg.
    unfold is_digit in Hd. nia.
Qed.

Lemma to_digits_le_val (radix : Z) (x : list Z) :
  0 < radix -> Forall (is_digit radix) x ->
  to_digits radix (length x) (le_val radix x) = x.
Proof.
  intros Hr; induction 1 as [|d ds Hd _ IH]; cbn [le_val to_digits length];
    [reflexivity|].
  unfold is_digit in Hd.
  replace ((d + radix * le_val radix ds) mod radix) with d
    by (rewrite Z.mul_comm, Z.mod_add by lia; symmetry; apply Z.mod_small; lia).
  replace ((d + radix * le_val radix ds) / radix) with (le_val radix ds)
    by (rewrite Z.mul_comm, Z.div_add by lia; rewrite Z.div_small by lia; lia).
  rewrite IH; reflexivity.
Qed.

Lemma horner_app (radix : Z) (x y : list Z) (a : Z) :
  horner radix (x ++ y) a = horner radix y (horner radix x a).
Proof. unfold horner; apply fold_left_app. Qed.

Lemma horner_rev (radix : Z) (x : list Z) :
  horner radix (rev x) 0 = le_val radix x.
Proof.
  induction x as [|d ds IH]; cbn [rev le_val]; [reflexivity|].
  rewrite horner_app, IH. unfold horner; cbn [fold_left]. ring.
Qed.

Lemma Forall_zeros_byte (n : Z) : Forall is_byte (zeros n).
Proof. unfold zeros; apply Forall_forall; intros x Hx; apply repeat_spec in Hx; subst; unfold is_byte; lia. Qed.

Lemma be_val_zeros (n : Z) : be_val (zeros n) = 0.
Proof.
  unfold zeros; induction (Z.to_nat n) as [|k IH]; cbn [repeat be_val]; [reflexivity|].
  rewrite IH; lia.
Qed.

Lemma pow256 (w : Z) : 0 <= w -> 256 ^ w = 2 ^ (8 * w).
Proof. intros; rewrite Z.pow_mul_r by lia; reflexivity. Qed.

Lemma guard_write_ok (cap off n : Z) : off + n <= cap -> guard_write cap off n = Ok tt.
Proof. unfold guard_write; intros; destruct (Z.leb_spec (off + n) cap); [reflexivity | lia]. Qed.

Lemma guard_write_overflow (cap off n : Z) : cap < off + n -> guard_write cap off n = Overflow.
Proof. unfold guard_write; intros; destruct (Z.leb_spec (off + n) cap); [lia | reflexivity]. Qed.

Lemma to_nat_zlength {A : Type} (l : list A) : Z.to_nat (zlength l) = length l.
Proof. unfold zlength; lia. Qed.

(** What the two encoders leave in a [w]-byte buffer. *)
Lemma num_to_bytes_val (r : Z) (x : list Z) (w : Z) :
  2 <= r <= 65536 -> Forall (is_digit r) x -> 0 <= w ->
  Forall is_byte (Codec.num_to_bytes x (zlength x) r w) /\
  zlength (Codec.num_to_bytes x (zlength x) r w) = w /\
  be_val (Codec.num_to_bytes x (zlength x) r w) = le_val r (rev x) mod 256 ^ w.
Proof.
  intros Hr Hx Hw. unfold Codec.num_to_bytes.
  rewrite take_all by lia.
  destruct (fold_mul_add_val r x (zeros w)) as (Hb & Hl & Hv).
  - simpl; lia.
  - eapply Forall_impl; [|exact Hx]. unfold is_digit; simpl; intros; lia.
  - apply Forall_zeros_byte.
  - rewrite zlength_zeros, be_val_zeros in * by lia.
    split; [exact Hb|]; split; [exact Hl|].
    rewrite Hv, <- horner_rev, rev_involutive. reflexivity.
Qed.

Lemma num_to_bytes_rev_val (r : Z) (x : list Z) (w : Z) :
  2 <= r <= 65536 -> Forall (is_digit r) x -> 0 <= w ->
  Forall is_byte (Codec.num_to_bytes_rev x (zlength x) r w) /\
  zlength (Codec.num_to_bytes_rev x (zlength x) r w) = w /\
  be_val (Codec.num_to_bytes_rev x (zlength x) r w) = le_val r x mod 256 ^ w.
Proof.
  intros Hr Hx Hw. unfold Codec.num_to_bytes_rev.
  rewrite take_all by lia.
  destruct (fold_mul_add_val r (rev x) (zeros w)) as (Hb & Hl & Hv).
  - simpl; lia.
  - apply Forall_rev. eapply Forall_impl; [|exact Hx]. unfold is_digit; simpl; intros; lia.
  - apply Forall_zeros_byte.
  - rewrite zlength_zeros, be_val_zeros in * by lia.
    split; [exact Hb|]; split; [exact Hl|].
    rewrite Hv, horner_rev. reflexivity.
Qed.

(** C6, as amended: for every radix [r] in [2, 65536], every numeral
    string [x] with digits in [0, r) and every byte width [w <= 256] with
    [r^m <= 2^(8w)], encoding [x] in [w] bytes and decoding it gives [x]
    back, in the natural order of FF1 ([num_to_bytes], [bytes_to_num]) and
    in the digit-reversed order of FF3 and FF3-1 ([num_to_bytes_rev],
    [bytes_to_num_rev]).  The bound on [w] is the size of the decoder's
    working copy [temp[256]]. *)
Theorem codec_roundtrip (r : Z) (x : list Z) (w : Z) :
  2 <= r <= 65536 ->
  Forall (is_digit r) x ->
  r ^ zlength x <= 2 ^ (8 * w) ->
  w <= 256 ->
  Codec.bytes_to_num (Codec.num_to_bytes x (zlength x) r w) w (zlength x) r = Ok x /\
  Codec.bytes_to_num_rev (Codec.num_to_bytes_rev x (zlength x) r w) w (zlength x) r = Ok x.
Proof.
  intros Hr Hx Hfit Hw.
  assert (Hw0 : 0 <= w).
  { destruct (Z.le_gt_cases 0 w) as [|Hneg]; [assumption|].
    rewrite (Z.pow_neg_r 2 (8 * w)) in Hfit by lia.
    assert (0 < r ^ zlength x) by (apply Z.pow_pos_nonneg; [lia | apply zlength_nonneg]).
    lia. }
  assert (Hr' : 2 <= r <= 2 ^ 24) by (simpl; lia).
  rewrite <- pow256 in Hfit by exact Hw0.
  unfold Codec.bytes_to_num, Codec.bytes_to_num_rev.
  rewrite guard_write_ok by lia. cbn [bind].
  split.
  - destruct (num_to_bytes_val r x w Hr Hx Hw0) as (Hb & Hl & Hv).
    rewrite take_all by lia.
    rewrite digits_of_bytes_spec, Hv by assumption.
    pose proof (le_val_range r (rev x) ltac:(lia) (Forall_rev Hx)) as Hrange.
    rewrite zlength_rev in Hrange.
    rewrite Z.mod_small by lia.
    rewrite to_nat_zlength, <- (length_rev x), to_digits_le_val
      by (try lia; apply Forall_rev, Hx).
    rewrite rev_involutive; reflexivity.
  - destruct (num_to_bytes_rev_val r x w Hr Hx Hw0) as (Hb & Hl & Hv).
    rewrite take_all by lia.
    rewrite digits_of_bytes_spec, Hv by assumption.
    pose proof (le_val_range r x ltac:(lia) Hx) as Hrange.
    rewrite Z.mod_small by lia.
    rewrite to_nat_zlength, to_digits_le_val by (try lia; exact Hx).
    reflexivity.
Qed.

Lemma codec_roundtrip_witness :
  Codec.bytes_to_num (Codec.num_to_bytes [1; 2; 3] 3 10 2) 2 3 10 = Ok [1; 2; 3] /\
  Codec.bytes_to_num_rev (Codec.num_to_bytes_rev [1; 2; 3] 3 10 2) 2 3 10 = Ok [1; 2; 3].
Proof.
  apply (codec_roundtrip 10 [1; 2; 3] 2).
  - lia.
  - repeat constructor; unfold is_digit; lia.
  - vm_compute; discriminate.
  - lia.
Defined.

(** C6 as stated fails beyond the decoder's working copy: a width of 257
    bytes satisfies [r^m <= 2^(8w)] and the decoder writes past [temp[256]]. *)
Lemma codec_roundtrip_counterexample :
  2 <= 2 <= 65536 /\ Forall (is_digit 2) [0] /\ 2 ^ zlength [0] <= 2 ^ (8 * 257) /\
  Codec.bytes_to_num (Codec.num_to_bytes [0] (zlength [0]) 2 257) 257 (zlength [0]) 2
  <> Ok [0].
Proof.
  split; [lia|]. split; [repeat constructor; unfold is_digit; lia|].
  split; [vm_compute; discriminate|].
  vm_compute; discriminate.
Qed.

(** ** Round loops *)

Lemma bind_ok {A B : Type} (o : outcome A) (k : A -> outcome B) (b : B) :
  bind o k = Ok b -> exists a, o = Ok a /\ k a = Ok b.
Proof. destruct o; cbn [bind]; intros H; [eauto | discriminate | discriminate]. Qed.

Section Loops.
Context {St : Type}.
Variable body : Z -> St -> outcome St.

Lemma for_up_S (n : nat) (i : Z) (s : St) :
  for_up (S n) i body s = s' <- body i s;; for_up n (i + 1) body s'.
Proof. reflexivity. Qed.

Lemma for_up_snoc (n : nat) (i : Z) (s : St) :
  for_up (S n) i body s = s1 <- for_up n i body s;; body (i + Z.of_nat n) s1.
Proof.
  revert i s; induction n as [|n IH]; intros i s.
  - rewrite for_up_S. cbn [for_up bind Z.of_nat]. rewrite Z.add_0_r.
    destruct (body i s); reflexivity.
  - rewrite for_up_S, (for_up_S n).
    destruct (body i s) as [s'| |]; cbn [bind]; [|reflexivity..].
    rewrite IH. replace (i + 1 + Z.of_nat n) with (i + Z.of_nat (S n)) by lia.
    reflexivity.
Qed.

(** An invariant indexed by the round about to run. *)
Lemma for_up_invariant (Inv : Z -> St -> Prop) :
  (forall i s s', 0 <= i -> Inv i s -> body i s = Ok s' -> Inv (i + 1) s') ->
  forall (n : nat) (i : Z) (s s' : St),
    0 <= i -> Inv i s -> for_up n i body s = Ok s' -> Inv (i + Z.of_nat n) s'.
Proof.
  intros Hstep; induction n as [|n IH]; intros i s s' Hi Hs Hrun.
  - cbn [for_up] in Hrun. injection Hrun as <-. rewrite Z.add_0_r; exact Hs.
  - cbn [for_up] in Hrun. apply bind_ok in Hrun as (s1 & H1 & Hrest).
    replace (i + Z.of_nat (S n)) with (i + 1 + Z.of_nat n) by lia.
    apply (IH (i + 1) s1); [lia | eapply Hstep; eauto | exact Hrest].
Qed.

(** A loop whose body cannot fail runs to its end. *)
Lemma for_up_total :
  (forall i s, exists s', body i s = Ok s') ->
  forall (n : nat) (i : Z) (s : St), exists s', for_up n i body s = Ok s'.
Proof.
  intros Hstep; induction n as [|n IH]; intros i s; cbn [for_up].
  - eauto.
  - destruct (Hstep i s) as (s1 & ->). cbn [bind]. apply IH.
Qed.

Lemma for_down_total :
  (forall i s, exists s', body i s = Ok s') ->
  forall (n : nat) (s : St), exists s', for_down n body s = Ok s'.
Proof.
  intros Hstep; induction n as [|n IH]; intros s; cbn [for_down].
  - eauto.
  - destruct (Hstep (Z.of_nat n) s) as (s1 & ->). cbn [bind]. apply IH.
Qed.

End Loops.

(** Running the rounds [0 .. n-1] and then their inverses [n-1 .. 0]
    gives the initial state back. *)
Lemma for_up_down_inverse {St : Type} (enc dec : Z -> St -> outcome St)
      (Inv : Z -> St -> Prop) :
  (forall i s s', 0 <= i -> Inv i s -> enc i s = Ok s' ->
                  Inv (i + 1) s' /\ dec i s' = Ok s) ->
  forall (n : nat) (s s' : St),
    Inv 0 s -> for_up n 0 enc s = Ok s' -> for_down n dec s' = Ok s.
Proof.
  intros Hstep; induction n as [|n IH]; intros s s' Hs Hrun.
  - cbn [for_up] in Hrun; injection Hrun as <-; reflexivity.
  - rewrite for_up_snoc in Hrun. apply bind_ok in Hrun as (s1 & H1 & Hlast).
    rewrite Z.add_0_l in Hlast.
    assert (Hinv : Inv (Z.of_nat n) s1).
    { apply (for_up_invariant enc Inv (fun i a b Hi Ha Hb => proj1 (Hstep i a b Hi Ha Hb))
                              n 0 s s1); [lia | exact Hs | exact H1]. }
    destruct (Hstep (Z.of_nat n) s1 s' (Nat2Z.is_nonneg n) Hinv Hlast) as (_ & Hdec).
    cbn [for_down]. rewrite Hdec; cbn [bind]. apply (IH s s1 Hs H1).
Qed.

(** ** Digit-wise addition and subtraction *)

Lemma land_1 (i : Z) : Z.land i 1 = i mod 2.
Proof. change 1 with (Z.ones 1). rewrite Z.land_ones by lia. reflexivity. Qed.

Lemma half_len_succ (u v i : Z) :
  half_len u v (i + 1) = if negb (Z.land i 1 =? 0) then u else v.
Proof.
  unfold half_len. rewrite !land_1.
  pose proof (Z.mod_pos_bound i 2 ltac:(lia)).
  pose proof (Z.mod_pos_bound (i + 1) 2 ltac:(lia)).
  pose proof (Z.div_mod i 2 ltac:(lia)).
  pose proof (Z.div_mod (i + 1) 2 ltac:(lia)).
  destruct (Z.eqb_spec (i mod 2) 0), (Z.eqb_spec ((i + 1) mod 2) 0);
    cbn [negb]; try reflexivity; lia.
Qed.

Lemma half_len_sum (u v i : Z) : half_len u v i + half_len u v (i + 1) = u + v.
Proof.
  rewrite half_len_succ. unfold half_len.
  destruct (Z.land i 1 =? 0); cbn [negb]; lia.
Qed.

Lemma is_digit_u32_mod (radix x : Z) :
  0 < radix <= 2 ^ 32 -> u32 (x mod radix) = x mod radix /\ is_digit radix (x mod radix).
Proof.
  intros Hr. pose proof (Z.mod_pos_bound x radix ltac:(lia)).
  split; [apply u32_small; lia | exact H].
Qed.

(** The sum is a numeral string of the length of the shorter operand,
    whatever the digits of the operands are. *)
Lemma add_digits_down_digits (radix : Z) (a y : list Z) (c : Z) :
  0 < radix <= 2 ^ 32 ->
  Forall (is_digit radix) (fst (add_digits_down radix a y c)) /\
  length (fst (add_digits_down radix a y c)) = Nat.min (length a) (length y).
Proof.
  intros Hr; revert y; induction a as [|aj a' IH]; intros [|yj y'];
    cbn [add_digits_down fst length Nat.min]; try (split; [constructor | reflexivity]).
  destruct (add_digits_down radix a' y' c) as [r c1] eqn:E.
  specialize (IH y'); rewrite E in IH; cbn [fst] in IH; destruct IH as [IHd IHl].
  cbn [fst length]. destruct (is_digit_u32_mod radix (aj + yj + c1) Hr) as [-> Hd].
  split; [constructor; assumption | congruence].
Qed.

Lemma add_digits_up_digits (radix : Z) (a y : list Z) (c : Z) :
  0 < radix <= 2 ^ 32 ->
  Forall (is_digit radix) (add_digits_up radix a y c) /\
  length (add_digits_up radix a y c) = Nat.min (length a) (length y).
Proof.
  intros Hr; revert y c; induction a as [|aj a' IH]; intros [|yj y'] c;
    cbn [add_digits_up length Nat.min]; try (split; [constructor | reflexivity]).
  destruct (IH y' (u32 ((aj + yj + c) / radix))) as [IHd IHl].
  destruct (is_digit_u32_mod radix (aj + yj + c) Hr) as [-> Hd].
  split; [constructor; assumption | congruence].
Qed.

(** Subtracting [y] from the sum, with the same carry in, gives the
    first operand back; the borrow out is the carry out. *)
Lemma sub_add_digits_down (radix : Z) (a y : list Z) (c : Z) :
  0 < radix <= 2 ^ 32 -> 0 <= c <= 1 ->
  Forall (is_digit radix) a -> Forall (is_digit radix) y -> length a = length y ->
  sub_digits_down radix (fst (add_digits_down radix a y c)) y c
  = (a, snd (add_digits_down radix a y c)) /\
  0 <= snd (add_digits_down radix a y c) <= 1.
Proof.
  intros Hr Hc Ha; revert y; induction Ha as [|aj a' Hj Ha' IH];
    intros [|yj y'] Hy Hlen; try discriminate;
    cbn [add_digits_down sub_digits_down fst snd].
  - split; [reflexivity | exact Hc].
  - inversion Hy as [|? ? Hyj Hy']; subst.
    cbn [length] in Hlen; injection Hlen as Hlen.
    destruct (IH y' Hy' Hlen) as [IHs IHc].
    destruct (add_digits_down radix a' y' c) as [r c1]; cbn [fst snd] in *.
    cbn [sub_digits_down].
    rewrite IHs. unfold is_digit in Hj, Hyj.
    set (sum := aj + yj + c1).
    assert (Hsum : 0 <= sum < 2 * radix) by (unfold sum; lia).
    destruct (Z.lt_ge_cases sum radix) as [Hlt|Hge].
    + rewrite (Z.mod_small sum radix), (Z.div_small sum radix) by lia.
      rewrite (u32_small sum), (u32_small 0) by lia.
      destruct (Z.ltb_spec (sum - yj - c1) 0) as [Hneg|_]; [unfold sum in Hneg; lia|].
      replace (sum - yj - c1) with aj by (unfold sum; lia).
      rewrite u32_small by lia. split; [reflexivity | lia].
    + assert (Hdiv : sum / radix = 1)
        by (symmetry; apply Z.div_unique with (sum - radix); [left|]; lia).
      assert (Hmod : sum mod radix = sum - radix)
        by (symmetry; apply Z.mod_unique with 1; [left|]; lia).
      rewrite Hdiv, Hmod.
      rewrite (u32_small (sum - radix)), (u32_small 1) by lia.
      destruct (Z.ltb_spec (sum - radix - yj - c1) 0) as [_|Hpos];
        [|unfold sum in Hpos; lia].
      replace (sum - radix - yj - c1 + radix) with aj by (unfold sum; lia).
      rewrite u32_small by lia. split; [reflexivity | lia].
Qed.

Lemma sub_add_digits_up (radix : Z) (a y : list Z) (c : Z) :
  0 < radix <= 2 ^ 32 -> 0 <= c <= 1 ->
  Forall (is_digit radix) a -> Forall (is_digit radix) y -> length a = length y ->
  sub_digits_up radix (add_digits_up radix a y c) y c = a.
Proof.
  intros Hr Hc Ha; revert y c Hc; induction Ha as [|aj a' Hj Ha' IH];
    intros [|yj y'] c Hc Hy Hlen; try discriminate;
    cbn [add_digits_up sub_digits_up]; [reflexivity|].
  inversion Hy as [|? ? Hyj Hy']; subst.
  cbn [length] in Hlen; injection Hlen as Hlen.
  unfold is_digit in Hj, Hyj.
  set (sum := aj + yj + c).
  assert (Hsum : 0 <= sum < 2 * radix) by (unfold sum; lia).
  destruct (Z.lt_ge_cases sum radix) as [Hlt|Hge].
  - rewrite (Z.mod_small sum radix), (Z.div_small sum radix) by lia.
    rewrite (u32_small sum), (u32_small 0) by lia.
    destruct (Z.ltb_spec (sum - yj - c) 0) as [Hneg|_]; [unfold sum in Hneg; lia|].
    replace (sum - yj - c) with aj by (unfold sum; lia).
    rewrite u32_small by lia. f_equal. apply IH; [lia | assumption..].
  - assert (Hdiv : sum / radix = 1)
      by (symmetry; apply Z.div_unique with (sum - radix); [left|]; lia).
    assert (Hmod : sum mod radix = sum - radix)
      by (symmetry; apply Z.mod_unique with 1; [left|]; lia).
    rewrite Hdiv, Hmod.
    rewrite (u32_small (sum - radix)), (u32_small 1) by lia.
    destruct (Z.ltb_spec (sum - radix - yj - c) 0) as [_|Hpos];
      [|unfold sum in Hpos; lia].
    replace (sum - radix - yj - c + radix) with aj by (unfold sum; lia).
    rewrite u32_small by lia. f_equal. apply IH; [lia | assumption..].
Qed.

(** ** The Feistel structure *)

Lemma half_len_plus_2 (u v i : Z) : half_len u v (i + 1 + 1) = half_len u v i.
Proof.
  rewrite half_len_succ, land_1. unfold half_len. rewrite !land_1.
  pose proof (Z.mod_pos_bound i 2 ltac:(lia)).
  pose proof (Z.mod_pos_bound (i + 1) 2 ltac:(lia)).
  pose proof (Z.div_mod i 2 ltac:(lia)).
  pose proof (Z.div_mod (i + 1) 2 ltac:(lia)).
  destruct (Z.eqb_spec (i mod 2) 0), (Z.eqb_spec ((i + 1) mod 2) 0);
    cbn [negb]; try reflexivity; lia.
Qed.

Section FeistelProofs.
Variable Y : Z -> Z -> list Z -> outcome (list Z).
Variables add sub : Z -> list Z -> list Z -> list Z.
Variables u v radix : Z.

Hypothesis u_nonneg : 0 <= u.
Hypothesis v_nonneg : 0 <= v.
Hypothesis Y_digits : forall i m pB y,
    0 <= m -> Y i m pB = Ok y -> zlength y = m /\ Forall (is_digit radix) y.
Hypothesis add_digits : forall m a y,
    zlength a = m -> zlength y = m ->
    zlength (add m a y) = m /\ Forall (is_digit radix) (add m a y).
Hypothesis sub_add : forall m a y,
    zlength a = m -> zlength y = m ->
    Forall (is_digit radix) a -> Forall (is_digit radix) y ->
    sub m (add m a y) y = a.

Lemma half_len_nonneg (i : Z) : 0 <= half_len u v i.
Proof. unfold half_len; destruct (negb (Z.land i 1 =? 0)); assumption. Qed.

Lemma feistel_round_inverse (i : Z) (s s' : list Z * list Z) :
  0 <= i -> (numeral_halves u v radix) i s -> (feistel_encrypt_round Y add u v) i s = Ok s' ->
  (numeral_halves u v radix) (i + 1) s' /\ (feistel_decrypt_round Y sub u v) i s' = Ok s.
Proof.
  intros _ ((HlA & HlB) & HdA & HdB) Hrun. destruct s as [pA pB].
  cbn [fst snd] in *. unfold feistel_encrypt_round in Hrun.
  apply bind_ok in Hrun as (y & Hy & Hs'). injection Hs' as <-.
  destruct (Y_digits _ _ _ _ (half_len_nonneg _) Hy) as (Hly & Hdy).
  destruct (add_digits _ _ _ HlA Hly) as (Hla & Hda).
  split.
  - repeat split; cbn [fst snd]; try assumption.
    rewrite half_len_plus_2; exact Hla.
  - unfold feistel_decrypt_round. rewrite Hy; cbn [bind].
    rewrite sub_add by assumption. reflexivity.
Qed.

Lemma feistel_round_written (k : Z) (s s' : list Z * list Z) :
  0 <= k -> (written_halves u v radix) k s -> (feistel_encrypt_round Y add u v) k s = Ok s' -> (written_halves u v radix) (k + 1) s'.
Proof.
  intros Hk ((HlA & HlB) & HdB & HdA) Hrun. destruct s as [pA pB].
  cbn [fst snd] in *. unfold feistel_encrypt_round in Hrun.
  apply bind_ok in Hrun as (y & Hy & Hs'). injection Hs' as <-.
  destruct (Y_digits _ _ _ _ (half_len_nonneg _) Hy) as (Hly & Hdy).
  destruct (add_digits _ _ _ HlA Hly) as (Hla & Hda).
  split; [split | split]; cbn [fst snd].
  - exact HlB.
  - rewrite half_len_plus_2; exact Hla.
  - intros _; exact Hda.
  - intros; apply HdB; lia.
Qed.

Lemma split_sized (in_ : list Z) :
  zlength in_ = u + v ->
  zlength (take u in_) = u /\ zlength (take v (drop u in_)) = v /\
  take u in_ ++ take v (drop u in_) = in_.
Proof.
  intros Hlen.
  assert (H1 : zlength (take u in_) = u) by (apply zlength_take; lia).
  assert (H2 : zlength (drop u in_) = v) by (rewrite zlength_drop; lia).
  rewrite (take_all v) by lia. repeat split; try assumption. apply take_drop.
Qed.

Lemma engine_roundtrip (n : nat) (in_ c : list Z) :
  half_len u v (Z.of_nat n) = u -> half_len u v 0 = u -> half_len u v 1 = v ->
  zlength in_ = u + v -> Forall (is_digit radix) in_ ->
  engine u v (for_up n 0 (feistel_encrypt_round Y add u v)) in_ = Ok c ->
  zlength c = u + v /\ engine u v (for_down n (feistel_decrypt_round Y sub u v)) c = Ok in_.
Proof.
  intros Hn H0 H1 Hlen Hdig Hrun. unfold engine in *.
  apply bind_ok in Hrun as ([pA pB] & Hloop & Hc). cbn [fst snd] in Hc.
  destruct (split_sized in_ Hlen) as (HlA & HlB & Hcat).
  assert (Hinv0 : (numeral_halves u v radix) 0 (take u in_, take v (drop u in_))).
  { rewrite <- Hcat in Hdig. apply Forall_app in Hdig as [HdA HdB].
    repeat split; cbn [fst snd]; try assumption; change (0 + 1) with 1; congruence. }
  pose proof (for_up_invariant (feistel_encrypt_round Y add u v) (numeral_halves u v radix)
                (fun i a b Hi Ha Hb => proj1 (feistel_round_inverse i a b Hi Ha Hb))
                n 0 _ _ (Z.le_refl 0) Hinv0 Hloop) as ((HA & HB) & _).
  cbn [fst snd] in HA, HB. rewrite Z.add_0_l in HA, HB.
  rewrite Hn in HA.
  assert (HB' : zlength pB = v).
  { pose proof (half_len_sum u v (Z.of_nat n)). lia. }
  rewrite !take_all in Hc by lia. injection Hc as <-.
  split; [rewrite zlength_app; lia|].
  rewrite take_app_exact, drop_app_exact, (take_all v pB) by lia.
  rewrite (for_up_down_inverse (feistel_encrypt_round Y add u v) (feistel_decrypt_round Y sub u v) (numeral_halves u v radix) feistel_round_inverse
             n _ _ Hinv0 Hloop).
  cbn [bind fst snd].
  rewrite (take_all u (take u in_)), (take_all v (take v (drop u in_))) by lia.
  rewrite Hcat. reflexivity.
Qed.

Lemma engine_digits (n : nat) (in_ c : list Z) :
  (2 <= n)%nat ->
  half_len u v (Z.of_nat n) = u -> half_len u v 0 = u -> half_len u v 1 = v ->
  zlength in_ = u + v ->
  engine u v (for_up n 0 (feistel_encrypt_round Y add u v)) in_ = Ok c ->
  zlength c = u + v /\ Forall (is_digit radix) c.
Proof.
  intros Hn2 Hn H0 H1 Hlen Hrun. unfold engine in *.
  apply bind_ok in Hrun as ([pA pB] & Hloop & Hc). cbn [fst snd] in Hc.
  destruct (split_sized in_ Hlen) as (HlA & HlB & Hcat).
  assert (Hinv0 : (written_halves u v radix) 0 (take u in_, take v (drop u in_))).
  { repeat split; cbn [fst snd]; try lia; change (0 + 1) with 1; congruence. }
  pose proof (for_up_invariant (feistel_encrypt_round Y add u v) (written_halves u v radix) feistel_round_written
                n 0 _ _ (Z.le_refl 0) Hinv0 Hloop) as ((HA & HB) & HdB & HdA).
  cbn [fst snd] in *. rewrite Z.add_0_l in *.
  rewrite Hn in HA.
  assert (HB' : zlength pB = v).
  { pose proof (half_len_sum u v (Z.of_nat n)). lia. }
  rewrite !take_all in Hc by lia. injection Hc as <-.
  split; [rewrite zlength_app; lia|].
  apply Forall_app; split; [apply HdA | apply HdB]; lia.
Qed.

End FeistelProofs.

(** ** The engines as instances of the Feistel structure *)

Lemma for_up_ext {St : Type} (f g : Z -> St -> outcome St) :
  (forall i s, f i s = g i s) ->
  forall n i s, for_up n i f s = for_up n i g s.
Proof.
  intros H; induction n as [|n IH]; intros i s; cbn [for_up]; [reflexivity|].
  rewrite H. destruct (g i s); cbn [bind]; auto.
Qed.

Lemma for_down_ext {St : Type} (f g : Z -> St -> outcome St) :
  (forall i s, f i s = g i s) ->
  forall n s, for_down n f s = for_down n g s.
Proof.
  intros H; induction n as [|n IH]; intros s; cbn [for_down]; [reflexivity|].
  rewrite H. destruct (g (Z.of_nat n) s); cbn [bind]; auto.
Qed.

Lemma div_bytes_remainder (radix : Z) (temp : list Z) (remainder : Z) :
  0 < radix <= 2 ^ 32 -> is_digit radix remainder ->
  is_digit radix (snd (Codec.div_bytes radix temp remainder)).
Proof.
  intros Hr; revert remainder; induction temp as [|byte rest IH];
    intros remainder Hrem; cbn [Codec.div_bytes snd]; [exact Hrem|].
  set (tmp := Z.lor (Z.shiftl remainder 8) byte).
  destruct (is_digit_u32_mod radix tmp Hr) as [Hu Hd].
  specialize (IH (u32 (tmp mod radix))). rewrite Hu in *.
  destruct (Codec.div_bytes radix rest (tmp mod radix)); cbn [snd] in *.
  apply IH, Hd.
Qed.

(** The decoders produce [len] digits below [radix], whatever the bytes. *)
Lemma digits_of_bytes_digits (radix : Z) (len : nat) (temp : list Z) :
  0 < radix <= 2 ^ 32 ->
  Forall (is_digit radix) (Codec.digits_of_bytes radix len temp) /\
  length (Codec.digits_of_bytes radix len temp) = len.
Proof.
  intros Hr; revert temp; induction len as [|n IH]; intros temp;
    cbn [Codec.digits_of_bytes]; [split; [constructor | reflexivity]|].
  pose proof (div_bytes_remainder radix temp 0 Hr ltac:(unfold is_digit; lia)) as Hd.
  destruct (Codec.div_bytes radix temp 0) as [q r]; cbn [snd] in Hd.
  destruct (IH q) as [IHd IHl].
  split; [constructor; assumption | cbn [length]; congruence].
Qed.

Lemma guard_write_inv (cap off n : Z) (r : unit) :
  guard_write cap off n = Ok r -> off + n <= cap.
Proof. unfold guard_write; destruct (Z.leb_spec (off + n) cap); [lia | discriminate]. Qed.

Lemma bytes_to_num_digits (radix : Z) (bytes : list Z) (byte_len m : Z) (y : list Z) :
  0 < radix <= 2 ^ 32 -> 0 <= m ->
  Codec.bytes_to_num bytes byte_len m radix = Ok y ->
  zlength y = m /\ Forall (is_digit radix) y.
Proof.
  intros Hr Hm H. unfold Codec.bytes_to_num in H.
  apply bind_ok in H as (_ & _ & H). injection H as <-.
  destruct (digits_of_bytes_digits radix (Z.to_nat m) (take byte_len bytes) Hr) as [Hd Hl].
  split; [rewrite zlength_rev; unfold zlength; lia | apply Forall_rev, Hd].
Qed.

Lemma bytes_to_num_rev_digits (radix : Z) (bytes : list Z) (byte_len m : Z) (y : list Z) :
  0 < radix <= 2 ^ 32 -> 0 <= m ->
  Codec.bytes_to_num_rev bytes byte_len m radix = Ok y ->
  zlength y = m /\ Forall (is_digit radix) y.
Proof.
  intros Hr Hm H. unfold Codec.bytes_to_num_rev in H.
  apply bind_ok in H as (_ & _ & H). injection H as <-.
  destruct (digits_of_bytes_digits radix (Z.to_nat m) (take byte_len bytes) Hr) as [Hd Hl].
  split; [unfold zlength; lia | exact Hd].
Qed.

Section Instances.
Context {PF : Platform}.
Variable radix : Z.
Hypothesis radix_range : 0 < radix <= 2 ^ 32.

Lemma ff1_add_digits (m : Z) (a y : list Z) :
  zlength a = m -> zlength y = m ->
  zlength (ff1_add radix m a y) = m /\ Forall (is_digit radix) (ff1_add radix m a y).
Proof.
  intros Ha Hy. unfold ff1_add.
  rewrite !take_all, drop_all, app_nil_r by lia.
  destruct (add_digits_down_digits radix a y 0 radix_range) as [Hd Hl].
  split; [unfold zlength in *; lia | exact Hd].
Qed.

Lemma ff1_sub_add (m : Z) (a y : list Z) :
  zlength a = m -> zlength y = m ->
  Forall (is_digit radix) a -> Forall (is_digit radix) y ->
  ff1_sub radix m (ff1_add radix m a y) y = a.
Proof.
  intros Ha Hy Hda Hdy.
  destruct (ff1_add_digits m a y Ha Hy) as [Hl _].
  unfold ff1_sub. rewrite !take_all, drop_all, app_nil_r by lia.
  unfold ff1_add. rewrite !take_all, drop_all, app_nil_r by lia.
  destruct (sub_add_digits_down radix a y 0 radix_range ltac:(lia) Hda Hdy) as [-> _];
    [unfold zlength in *; lia | reflexivity].
Qed.

Lemma ff3_add_digits (m : Z) (a y : list Z) :
  zlength a = m -> zlength y = m ->
  zlength (ff3_add radix m a y) = m /\ Forall (is_digit radix) (ff3_add radix m a y).
Proof.
  intros Ha Hy. unfold ff3_add.
  rewrite !take_all, drop_all, app_nil_r by lia.
  destruct (add_digits_up_digits radix a y 0 radix_range) as [Hd Hl].
  split; [unfold zlength in *; lia | exact Hd].
Qed.

Lemma ff3_sub_add (m : Z) (a y : list Z) :
  zlength a = m -> zlength y = m ->
  Forall (is_digit radix) a -> Forall (is_digit radix) y ->
  ff3_sub radix m (ff3_add radix m a y) y = a.
Proof.
  intros Ha Hy Hda Hdy.
  destruct (ff3_add_digits m a y Ha Hy) as [Hl _].
  unfold ff3_sub. rewrite !take_all, drop_all, app_nil_r by lia.
  unfold ff3_add. rewrite !take_all, drop_all, app_nil_r by lia.
  apply sub_add_digits_up; try assumption; [lia | unfold zlength in *; lia].
Qed.

End Instances.

Section EngineTheorems.
Context {PF : Platform}.

Lemma ff1_encrypt_round_feistel ctx P tweak tweak_len radix u v len b d i st :
  ff1_encrypt_round ctx P tweak tweak_len radix u v len b d i st
  = feistel_encrypt_round (ff1_Y ctx P tweak tweak_len radix len b d)
                          (ff1_add radix) u v i st.
Proof. destruct st; reflexivity. Qed.

Lemma ff1_decrypt_round_feistel ctx P tweak tweak_len radix u v len b d i st :
  ff1_decrypt_round ctx P tweak tweak_len radix u v len b d i st
  = feistel_decrypt_round (ff1_Y ctx P tweak tweak_len radix len b d)
                          (ff1_sub radix) u v i st.
Proof. destruct st; reflexivity. Qed.

Lemma ff3_encrypt_round_feistel F ctx Tl Tr radix u v len i st :
  ff3_encrypt_round F ctx Tl Tr radix u v len i st
  = feistel_encrypt_round (ff3_Y F ctx Tl Tr radix len) (ff3_add radix) u v i st.
Proof.
  destruct st as [pA pB].
  unfold ff3_encrypt_round, feistel_encrypt_round, ff3_Y, half_len.
  destruct (F ctx _ i pB _ radix 16) as [W| |]; cbn [bind]; try reflexivity;
    destruct (guard_write 256 0 _) as [[]| |]; cbn [bind]; try reflexivity;
    destruct (Codec.bytes_to_num_rev W 16 _ radix); reflexivity.
Qed.

Lemma ff3_decrypt_round_feistel F ctx Tl Tr radix u v len i st :
  ff3_decrypt_round F ctx Tl Tr radix u v len i st
  = feistel_decrypt_round (ff3_Y F ctx Tl Tr radix len) (ff3_sub radix) u v i st.
Proof.
  destruct st as [pA pB].
  unfold ff3_decrypt_round, feistel_decrypt_round, ff3_Y, half_len.
  destruct (F ctx _ i pA _ radix 16) as [W| |]; cbn [bind]; try reflexivity;
    destruct (guard_write 256 0 _) as [[]| |]; cbn [bind]; try reflexivity;
    destruct (Codec.bytes_to_num_rev W 16 _ radix); reflexivity.
Qed.

Lemma ff1_Y_digits ctx P tweak tweak_len radix len b d i m pB y :
  0 < radix <= 2 ^ 32 -> 0 <= m ->
  ff1_Y ctx P tweak tweak_len radix len b d i m pB = Ok y ->
  zlength y = m /\ Forall (is_digit radix) y.
Proof.
  intros Hr Hm H. unfold ff1_Y, ff1_round_y in H.
  do 8 (apply bind_ok in H as (? & _ & H)).
  eapply bytes_to_num_digits; eauto.
Qed.

Lemma ff3_Y_digits F ctx Tl Tr radix len i m pB y :
  0 < radix <= 2 ^ 32 -> 0 <= m ->
  ff3_Y F ctx Tl Tr radix len i m pB = Ok y ->
  zlength y = m /\ Forall (is_digit radix) y.
Proof.
  intros Hr Hm H. unfold ff3_Y in H.
  do 2 (apply bind_ok in H as (? & _ & H)).
  eapply bytes_to_num_rev_digits; eauto.
Qed.

Lemma split_floor (len : Z) : 0 <= len -> 0 <= len / 2 /\ 0 <= len - len / 2.
Proof. intros; pose proof (Z.div_mod len 2 ltac:(lia)); pose proof (Z.mod_pos_bound len 2 ltac:(lia)); lia. Qed.

Lemma split_ceil (len : Z) : 0 <= len -> 0 <= (len + 1) / 2 /\ 0 <= len - (len + 1) / 2.
Proof. intros; pose proof (Z.div_mod (len + 1) 2 ltac:(lia)); pose proof (Z.mod_pos_bound (len + 1) 2 ltac:(lia)); lia. Qed.

(** FF1: decryption undoes encryption. *)
Lemma ff1_roundtrip (ctx : FPE_CTX) (in_ tweak c : list Z) :
  0 < ctx_radix ctx <= 2 ^ 32 ->
  Forall (is_digit (ctx_radix ctx)) in_ ->
  ff1_encrypt ctx in_ tweak = Ok c ->
  ff1_decrypt ctx c tweak = Ok in_.
Proof.
  intros Hr Hdig Henc. unfold ff1_encrypt in Henc.
  destruct ((zlength in_ <? 2) || (zlength in_ >? 0xFFFFFFFF)) eqn:E1; [discriminate|].
  destruct (zlength in_ >? 256) eqn:E2; [discriminate|].
  apply orb_false_elim in E1 as [E1 _].
  destruct (split_floor (zlength in_) (zlength_nonneg _)) as [Hu Hv].
  rewrite (for_up_ext _ _ (ff1_encrypt_round_feistel _ _ _ _ _ _ _ _ _ _)) in Henc.
  eapply (engine_roundtrip _ _ (ff1_sub (ctx_radix ctx))) in Henc;
    try reflexivity; try eassumption; try lia.
  - destruct Henc as [Hlen Hdec].
    replace (zlength in_ / 2 + (zlength in_ - zlength in_ / 2)) with (zlength in_) in Hlen by lia.
    unfold ff1_decrypt. rewrite Hlen, E1, E2.
    rewrite (for_down_ext _ _ (ff1_decrypt_round_feistel _ _ _ _ _ _ _ _ _ _)).
    exact Hdec.
  - intros; eapply ff1_Y_digits; eauto.
  - intros; apply ff1_add_digits; assumption.
  - intros; apply ff1_sub_add; assumption.
Qed.

(** FF3 and FF3-1: decryption undoes encryption. *)
Lemma ff3_roundtrip (ctx : FPE_CTX) (in_ tweak c : list Z) :
  0 < ctx_radix ctx <= 2 ^ 32 ->
  Forall (is_digit (ctx_radix ctx)) in_ ->
  ff3_encrypt ctx in_ tweak = Ok c ->
  ff3_decrypt ctx c tweak = Ok in_.
Proof.
  intros Hr Hdig Henc. unfold ff3_encrypt in Henc.
  destruct ((zlength in_ <? 2) || (zlength in_ >? 256)) eqn:E1; [discriminate|].
  destruct (negb (zlength tweak =? 8) && negb (zlength tweak =? 7)
            && negb (zlength tweak =? 0)) eqn:E2; [discriminate|].
  destruct (split_ceil (zlength in_) (zlength_nonneg _)) as [Hu Hv].
  destruct (ff3_tweak_halves tweak (zlength tweak)) as [Tl Tr] eqn:ET.
  rewrite (for_up_ext _ _ (ff3_encrypt_round_feistel _ _ _ _ _ _ _ _)) in Henc.
  eapply (engine_roundtrip _ _ (ff3_sub (ctx_radix ctx))) in Henc;
    try reflexivity; try eassumption; try lia.
  - destruct Henc as [Hlen Hdec].
    replace ((zlength in_ + 1) / 2 + (zlength in_ - (zlength in_ + 1) / 2))
      with (zlength in_) in Hlen by lia.
    unfold ff3_decrypt. rewrite Hlen, E1, E2, ET.
    rewrite (for_down_ext _ _ (ff3_decrypt_round_feistel _ _ _ _ _ _ _ _)).
    exact Hdec.
  - intros; eapply ff3_Y_digits; eauto.
  - intros; apply ff3_add_digits; assumption.
  - intros; apply ff3_sub_add; assumption.
Qed.

Lemma ff3_1_roundtrip (ctx : FPE_CTX) (in_ tweak c : list Z) :
  0 < ctx_radix ctx <= 2 ^ 32 ->
  Forall (is_digit (ctx_radix ctx)) in_ ->
  ff3_1_encrypt ctx in_ tweak = Ok c ->
  ff3_1_decrypt ctx c tweak = Ok in_.
Proof.
  intros Hr Hdig Henc. unfold ff3_1_encrypt in Henc.
  destruct ((zlength in_ <? 2) || (zlength in_ >? 256)) eqn:E1; [discriminate|].
  destruct (negb (zlength tweak =? 7) && negb (zlength tweak =? 8)
            && negb (zlength tweak =? 0)) eqn:E2; [discriminate|].
  destruct (split_ceil (zlength in_) (zlength_nonneg _)) as [Hu Hv].
  destruct (ff3_1_tweak_halves tweak (zlength tweak)) as [Tl Tr] eqn:ET.
  rewrite (for_up_ext _ _ (ff3_encrypt_round_feistel _ _ _ _ _ _ _ _)) in Henc.
  eapply (engine_roundtrip _ _ (ff3_sub (ctx_radix ctx))) in Henc;
    try reflexivity; try eassumption; try lia.
  - destruct Henc as [Hlen Hdec].
    replace ((zlength in_ + 1) / 2 + (zlength in_ - (zlength in_ + 1) / 2))
      with (zlength in_) in Hlen by lia.
    unfold ff3_1_decrypt. rewrite Hlen, E1, E2, ET.
    rewrite (for_down_ext _ _ (ff3_decrypt_round_feistel _ _ _ _ _ _ _ _)).
    exact Hdec.
  - intros; eapply ff3_Y_digits; eauto.
  - intros; apply ff3_add_digits; assumption.
  - intros; apply ff3_sub_add; assumption.
Qed.

(** The output of each engine has the length of the input and digits
    below the radix, whatever the input digits are. *)
Lemma ff1_encrypt_digits (ctx : FPE_CTX) (in_ tweak c : list Z) :
  0 < ctx_radix ctx <= 2 ^ 32 ->
  ff1_encrypt ctx in_ tweak = Ok c ->
  zlength c = zlength in_ /\ Forall (is_digit (ctx_radix ctx)) c.
Proof.
  intros Hr Henc. unfold ff1_encrypt in Henc.
  destruct ((zlength in_ <? 2) || (zlength in_ >? 0xFFFFFFFF)) eqn:E1; [discriminate|].
  destruct (zlength in_ >? 256) eqn:E2; [discriminate|].
  destruct (split_floor (zlength in_) (zlength_nonneg _)) as [Hu Hv].
  rewrite (for_up_ext _ _ (ff1_encrypt_round_feistel _ _ _ _ _ _ _ _ _ _)) in Henc.
  eapply engine_digits in Henc;
    try reflexivity; try eassumption; try lia.
  - destruct Henc as [Hlen Hd]. split; [lia | exact Hd].
  - intros; eapply ff1_Y_digits; eauto.
  - intros; apply ff1_add_digits; assumption.
  - unfold FF1_ROUNDS; lia.
Qed.

Lemma ff3_encrypt_digits (ctx : FPE_CTX) (in_ tweak c : list Z) :
  0 < ctx_radix ctx <= 2 ^ 32 ->
  ff3_encrypt ctx in_ tweak = Ok c ->
  zlength c = zlength in_ /\ Forall (is_digit (ctx_radix ctx)) c.
Proof.
  intros Hr Henc. unfold ff3_encrypt in Henc.
  destruct ((zlength in_ <? 2) || (zlength in_ >? 256)) eqn:E1; [discriminate|].
  destruct (negb (zlength tweak =? 8) && negb (zlength tweak =? 7)
            && negb (zlength tweak =? 0)) eqn:E2; [discriminate|].
  destruct (split_ceil (zlength in_) (zlength_nonneg _)) as [Hu Hv].
  destruct (ff3_tweak_halves tweak (zlength tweak)) as [Tl Tr] eqn:ET.
  rewrite (for_up_ext _ _ (ff3_encrypt_round_feistel _ _ _ _ _ _ _ _)) in Henc.
  eapply engine_digits in Henc;
    try reflexivity; try eassumption; try lia.
  - destruct Henc as [Hlen Hd]. split; [lia | exact Hd].
  - intros; eapply ff3_Y_digits; eauto.
  - intros; apply ff3_add_digits; assumption.
  - unfold FF3_ROUNDS; lia.
Qed.

Lemma ff3_1_encrypt_digits (ctx : FPE_CTX) (in_ tweak c : list Z) :
  0 < ctx_radix ctx <= 2 ^ 32 ->
  ff3_1_encrypt ctx in_ tweak = Ok c ->
  zlength c = zlength in_ /\ Forall (is_digit (ctx_radix ctx)) c.
Proof.
  intros Hr Henc. unfold ff3_1_encrypt in Henc.
  destruct ((zlength in_ <? 2) || (zlength in_ >? 256)) eqn:E1; [discriminate|].
  destruct (negb (zlength tweak =? 7) && negb (zlength tweak =? 8)
            && negb (zlength tweak =? 0)) eqn:E2; [discriminate|].
  destruct (split_ceil (zlength in_) (zlength_nonneg _)) as [Hu Hv].
  destruct (ff3_1_tweak_halves tweak (zlength tweak)) as [Tl Tr] eqn:ET.
  rewrite (for_up_ext _ _ (ff3_encrypt_round_feistel _ _ _ _ _ _ _ _)) in Henc.
  eapply engine_digits in Henc;
    try reflexivity; try eassumption; try lia.
  - destruct Henc as [Hlen Hd]. split; [lia | exact Hd].
  - intros; eapply ff3_Y_digits; eauto.
  - intros; apply ff3_add_digits; assumption.
  - unfold FF3_1_ROUNDS; lia.
Qed.



End EngineTheorems.



(** ** The samples of NIST SP 800-38G

    On AES-128 the embedding reproduces the published ciphertexts: FF1
    samples 1 to 3 (key [2B7E1516 28AED2A6 ABF71588 09CF4F3C]) and FF3
    sample 1. *)

Example ff1_sample_1 :
  FPE_encrypt (sample_ctx FPE_MODE_FF1 10) [0; 1; 2; 3; 4; 5; 6; 7; 8; 9] []
  = Ok [2; 4; 3; 3; 4; 7; 7; 4; 8; 4].
Proof. vm_compute; reflexivity. Qed.

Example ff1_sample_2 :
  FPE_encrypt (sample_ctx FPE_MODE_FF1 10) [0; 1; 2; 3; 4; 5; 6; 7; 8; 9]
              [0x39; 0x38; 0x37; 0x36; 0x35; 0x34; 0x33; 0x32; 0x31; 0x30]
  = Ok [6; 1; 2; 4; 2; 0; 0; 7; 7; 3].
Proof. vm_compute; reflexivity. Qed.

Example ff1_sample_3 :
  FPE_encrypt (sample_ctx FPE_MODE_FF1 36)
              [0; 1; 2; 3; 4; 5; 6; 7; 8; 9; 10; 11; 12; 13; 14; 15; 16; 17; 18]
              [0x37; 0x37; 0x37; 0x37; 0x70; 0x71; 0x72; 0x73; 0x37; 0x37; 0x37]
  = Ok [10; 9; 29; 31; 4; 0; 22; 21; 21; 9; 20; 13; 30; 5; 0; 9; 14; 30; 22].
Proof. vm_compute; reflexivity. Qed.

Example ff3_sample_1 :
  FPE_encrypt
    (snd (FPE_CTX_init FPE_CTX_new FPE_MODE_FF3 FPE_ALGO_AES
            [0xEF; 0x43; 0x59; 0xD8; 0xD5; 0x80; 0xAA; 0x4F;
             0x7F; 0x03; 0x6D; 0x6F; 0x04; 0xFC; 0x6A; 0x94] 128 10))
    [8; 9; 0; 1; 2; 1; 2; 3; 4; 5; 6; 7; 8; 9; 0; 0; 0; 0]
    [0xD8; 0xE7; 0x92; 0x0A; 0xFA; 0x33; 0x0A; 0x73]
  = Ok [7; 5; 0; 9; 1; 8; 8; 1; 4; 0; 5; 8; 6; 5; 4; 6; 0; 7].
Proof. vm_compute; reflexivity. Qed.

(** ** Calls that complete *)

Section Totality.
Context {PF : Platform}.

Lemma encrypt_block_total (cipher : EVP_CIPHER) (k blk : list Z) :
  (forall b, EVP_EncryptUpdate cipher k b <> None) ->
  exists out, encrypt_block (evp_keyed cipher k) blk = Ok out.
Proof.
  intros H. unfold encrypt_block.
  destruct (EVP_EncryptUpdate cipher k blk) as [out|] eqn:E; [eauto|].
  exfalso; exact (H blk E).
Qed.

Lemma ff3_round_encrypt_total ctx T round B B_len radix W_len :
  cipher_works ctx ->
  exists W, ff3_round_encrypt ctx T round B B_len radix W_len = Ok W.
Proof.
  intros (cipher & k & Hc & Hk). unfold ff3_round_encrypt. rewrite Hc.
  match goal with
  | |- context [encrypt_block _ ?blk] =>
      destruct (encrypt_block_total cipher k blk Hk) as (out & ->)
  end.
  cbn [bind]; eauto.
Qed.

Lemma ff3_1_round_encrypt_total ctx T round B B_len radix W_len :
  cipher_works ctx ->
  exists W, ff3_1_round_encrypt ctx T round B B_len radix W_len = Ok W.
Proof.
  intros (cipher & k & Hc & Hk). unfold ff3_1_round_encrypt. rewrite Hc.
  match goal with
  | |- context [encrypt_block _ ?blk] =>
      destruct (encrypt_block_total cipher k blk Hk) as (out & ->)
  end.
  cbn [bind]; eauto.
Qed.

(** A round of the FF3 family completes whenever its round function does
    and the halves have at most 256 digits. *)
Lemma ff3_round_total F ctx Tl Tr radix u v len :
  (forall T i B B_len, exists W, F ctx T i B B_len radix 16 = Ok W) ->
  u <= 256 -> v <= 256 ->
  forall i st,
    (exists st', ff3_encrypt_round F ctx Tl Tr radix u v len i st = Ok st') /\
    (exists st', ff3_decrypt_round F ctx Tl Tr radix u v len i st = Ok st').
Proof.
  intros HF Hu Hv i [pA pB].
  assert (Hm : 0 + (if negb (Z.land i 1 =? 0) then v else u) <= 256)
    by (destruct (negb (Z.land i 1 =? 0)); lia).
  unfold ff3_encrypt_round, ff3_decrypt_round, Codec.bytes_to_num_rev.
  split.
  - destruct (HF (if negb (Z.land i 1 =? 0) then Tl else Tr) i pB
                 (len - (if negb (Z.land i 1 =? 0) then v else u))) as (W & ->).
    cbn [bind]. rewrite !guard_write_ok by lia. cbn [bind]. eauto.
  - destruct (HF (if negb (Z.land i 1 =? 0) then Tl else Tr) i pA
                 (len - (if negb (Z.land i 1 =? 0) then v else u))) as (W & ->).
    cbn [bind]. rewrite !guard_write_ok by lia. cbn [bind]. eauto.
Qed.

Lemma split_ceil_le (len : Z) :
  0 <= len <= 256 -> (len + 1) / 2 <= 256 /\ len - (len + 1) / 2 <= 256.
Proof.
  intros; pose proof (Z.div_mod (len + 1) 2 ltac:(lia));
    pose proof (Z.mod_pos_bound (len + 1) 2 ltac:(lia)); lia.
Qed.

Lemma ff3_tweak_check (tl : Z) :
  negb (tl =? 8) && negb (tl =? 7) && negb (tl =? 0) = false <-> ff3_tweak_len_ok tl.
Proof.
  unfold ff3_tweak_len_ok.
  destruct (Z.eqb_spec tl 8), (Z.eqb_spec tl 7), (Z.eqb_spec tl 0); cbn; split;
    intros; try discriminate; try lia; reflexivity.
Qed.

Lemma ff3_1_tweak_check (tl : Z) :
  negb (tl =? 7) && negb (tl =? 8) && negb (tl =? 0) = false <-> ff3_tweak_len_ok tl.
Proof.
  unfold ff3_tweak_len_ok.
  destruct (Z.eqb_spec tl 8), (Z.eqb_spec tl 7), (Z.eqb_spec tl 0); cbn; split;
    intros; try discriminate; try lia; reflexivity.
Qed.

Lemma len_check (len : Z) :
  (len <? 2) || (len >? 256) = false <-> 2 <= len <= 256.
Proof.
  destruct (Z.ltb_spec len 2), (Z.gtb_spec len 256); cbn; split; intros;
    try discriminate; try lia; reflexivity.
Qed.

(** The FF3 and FF3-1 engines complete on every input of 2 to 256 digits
    (whatever the digits are) with a tweak of 0, 7 or 8 bytes, as long as
    the cipher does. *)
Lemma ff3_total (ctx : FPE_CTX) (in_ tweak : list Z) :
  cipher_works ctx -> 2 <= zlength in_ <= 256 -> ff3_tweak_len_ok (zlength tweak) ->
  (exists out, ff3_encrypt ctx in_ tweak = Ok out) /\
  (exists out, ff3_decrypt ctx in_ tweak = Ok out).
Proof.
  intros Hc Hlen Htw. unfold ff3_encrypt, ff3_decrypt.
  rewrite (proj2 (len_check _) Hlen), (proj2 (ff3_tweak_check _) Htw).
  destruct (ff3_tweak_halves tweak (zlength tweak)) as [Tl Tr].
  destruct (split_ceil_le (zlength in_) ltac:(lia)) as [Hu Hv].
  pose proof (ff3_round_total ff3_round_encrypt ctx Tl Tr (ctx_radix ctx) _ _ (zlength in_)
                (fun T i B B_len => ff3_round_encrypt_total ctx T i B B_len _ 16 Hc)
                Hu Hv) as Hround.
  split.
  - destruct (for_up_total _ (fun i s => proj1 (Hround i s)) FF3_ROUNDS 0
                           (take ((zlength in_ + 1) / 2) in_,
                            take (zlength in_ - (zlength in_ + 1) / 2)
                                 (drop ((zlength in_ + 1) / 2) in_))) as (st & ->).
    cbn [bind]; eauto.
  - destruct (for_down_total _ (fun i s => proj2 (Hround i s)) FF3_ROUNDS
                           (take ((zlength in_ + 1) / 2) in_,
                            take (zlength in_ - (zlength in_ + 1) / 2)
                                 (drop ((zlength in_ + 1) / 2) in_))) as (st & ->).
    cbn [bind]; eauto.
Qed.

Lemma ff3_1_total (ctx : FPE_CTX) (in_ tweak : list Z) :
  cipher_works ctx -> 2 <= zlength in_ <= 256 -> ff3_tweak_len_ok (zlength tweak) ->
  (exists out, ff3_1_encrypt ctx in_ tweak = Ok out) /\
  (exists out, ff3_1_decrypt ctx in_ tweak = Ok out).
Proof.
  intros Hc Hlen Htw. unfold ff3_1_encrypt, ff3_1_decrypt.
  rewrite (proj2 (len_check _) Hlen), (proj2 (ff3_1_tweak_check _) Htw).
  destruct (ff3_1_tweak_halves tweak (zlength tweak)) as [Tl Tr].
  destruct (split_ceil_le (zlength in_) ltac:(lia)) as [Hu Hv].
  pose proof (ff3_round_total ff3_1_round_encrypt ctx Tl Tr (ctx_radix ctx) _ _ (zlength in_)
                (fun T i B B_len => ff3_1_round_encrypt_total ctx T i B B_len _ 16 Hc)
                Hu Hv) as Hround.
  split.
  - destruct (for_up_total _ (fun i s => proj1 (Hround i s)) FF3_1_ROUNDS 0
                           (take ((zlength in_ + 1) / 2) in_,
                            take (zlength in_ - (zlength in_ + 1) / 2)
                                 (drop ((zlength in_ + 1) / 2) in_))) as (st & ->).
    cbn [bind]; eauto.
  - destruct (for_down_total _ (fun i s => proj2 (Hround i s)) FF3_1_ROUNDS
                           (take ((zlength in_ + 1) / 2) in_,
                            take (zlength in_ - (zlength in_ + 1) / 2)
                                 (drop ((zlength in_ + 1) / 2) in_))) as (st & ->).
    cbn [bind]; eauto.
Qed.

End Totality.

(** ** When FF1 completes *)

Section FF1Total.
Context {PF : Platform}.

Lemma cbc_mac_loop_total (cipher : EVP_CIPHER) (k : list Z) (n : nat) (i : Z) (Q R : list Z) :
  (forall b, EVP_EncryptUpdate cipher k b <> None) ->
  exists R', cbc_mac_loop (evp_keyed cipher k) n i Q R = Ok R'.
Proof.
  intros Hk; revert i R; induction n as [|n IH]; intros i R; cbn [cbc_mac_loop].
  - eauto.
  - destruct (encrypt_block_total cipher k (xor_bytes (take 16 (drop (i * 16) Q)) R) Hk)
      as (R' & ->).
    cbn [bind]. apply IH.
Qed.

Lemma ceildiv_16_bounds (S_len : Z) :
  0 <= S_len < 2 ^ 31 ->
  (ceildiv S_len 16 - 1) * 16 < S_len \/ S_len = 0.
Proof.
  intros H. unfold ceildiv. rewrite u32_small by (simpl in *; lia).
  pose proof (Z.div_mod (S_len + 16 - 1) 16 ltac:(lia)).
  pose proof (Z.mod_pos_bound (S_len + 16 - 1) 16 ltac:(lia)).
  lia.
Qed.

Lemma ctr_loop_total (cipher : EVP_CIPHER) (k : list Z) (n : nat) (j : Z)
      (num_extra_blocks S_len S_cap : Z) (R S : list Z) :
  (forall b, EVP_EncryptUpdate cipher k b <> None) ->
  S_len <= S_cap -> num_extra_blocks * 16 < S_len ->
  j + Z.of_nat n <= num_extra_blocks + 1 ->
  exists S', ctr_loop (evp_keyed cipher k) n j num_extra_blocks S_len S_cap R S = Ok S'.
Proof.
  intros Hk Hcap Hex; revert j S; induction n as [|n IH]; intros j S Hj;
    cbn [ctr_loop].
  - eauto.
  - match goal with
    | |- context [encrypt_block _ ?blk] =>
        destruct (encrypt_block_total cipher k blk Hk) as (SS & ->)
    end.
    cbn [bind].
    rewrite guard_write_ok by (destruct (Z.eqb_spec j num_extra_blocks); lia).
    cbn [bind]. apply IH. lia.
Qed.

(** [ff1_prf] completes when the cipher does and [S_len] bytes fit [S]. *)
Lemma ff1_prf_total (ctx : FPE_CTX) (P Q : list Z) (Q_len S_cap S_len : Z) :
  cipher_works ctx -> 0 <= S_len <= S_cap -> S_cap < 2 ^ 31 ->
  exists S, ff1_prf ctx P 16 Q Q_len S_cap S_len = Ok S.
Proof.
  intros (cipher & k & Hc & Hk) HS Hcap. unfold ff1_prf. rewrite Hc.
  cbn [Z.eqb Pos.eqb negb].
  destruct (encrypt_block_total cipher k (take 16 P) Hk) as (R & ->). cbn [bind].
  destruct (cbc_mac_loop_total cipher k (Z.to_nat (Q_len / 16)) 0 Q R Hk) as (R' & ->).
  cbn [bind].
  destruct (Z.leb_spec S_len 16).
  - rewrite guard_write_ok by lia. cbn [bind]. eauto.
  - rewrite guard_write_ok by lia. cbn [bind].
    destruct (ceildiv_16_bounds S_len ltac:(lia)) as [Hb|Hb]; [|lia].
    apply ctr_loop_total; try assumption; try lia.
    assert (0 <= ceildiv S_len 16 - 1).
    { unfold ceildiv. rewrite u32_small by (simpl in *; lia).
      pose proof (Z.div_le_lower_bound (S_len + 16 - 1) 16 1 ltac:(lia) ltac:(lia)). lia. }
    lia.
Qed.

(** The sizes [ff1_encrypt] and [ff1_decrypt] derive from the length of
    the second half and the radix. *)
Lemma ff1_b_nonneg (v radix : Z) : 0 <= ff1_b v radix.
Proof.
  unfold ff1_b, ceildiv. apply Z.div_pos; [apply u32_range | lia].
Qed.

Lemma ff1_round_y_total ctx P tweak radix b d i m other_len pB :
  cipher_works ctx -> 0 <= b -> 0 <= d ->
  ff1_fits (zlength tweak) b d -> m <= 256 ->
  exists y,
    ff1_round_y ctx P tweak (zlength tweak) radix b d i m other_len pB = Ok y.
Proof.
  intros Hc Hb Hd [HQ HS] Hm. unfold ff1_round_y.
  unfold ff1_Q_len, ff1_padding_len in HQ.
  set (padding_len := u32 _) in *.
  assert (Hp : 0 <= padding_len) by apply u32_range.
  pose proof (zlength_nonneg tweak) as Ht.
  assert (HQlen : (if zlength tweak >? 0 then zlength tweak else 0) = zlength tweak)
    by (destruct (Z.gtb_spec (zlength tweak) 0); lia).
  rewrite HQlen.
  assert (HQ0 : exists Q0,
             (if zlength tweak >? 0
              then _ <- guard_write 256 0 (zlength tweak);; Ok (take (zlength tweak) tweak)
              else Ok []) = Ok Q0).
  { destruct (zlength tweak >? 0); [|eauto].
    rewrite guard_write_ok by lia. cbn [bind]. eauto. }
  destruct HQ0 as (Q0 & ->). cbn [bind].
  do 4 (rewrite guard_write_ok by lia; cbn [bind]).
  match goal with
  | |- context [ff1_prf ctx P 16 ?Q ?Q_len 256 d] =>
      destruct (ff1_prf_total ctx P Q Q_len 256 d Hc ltac:(lia) ltac:(simpl; lia))
        as (S & ->)
  end.
  cbn [bind]. do 2 (rewrite guard_write_ok by lia; cbn [bind]).
  unfold Codec.bytes_to_num. rewrite guard_write_ok by lia. cbn [bind]. eauto.
Qed.

Lemma split_floor_le (len : Z) :
  0 <= len <= 256 -> len / 2 <= 256 /\ len - len / 2 <= 256.
Proof.
  intros; pose proof (Z.div_mod len 2 ltac:(lia));
    pose proof (Z.mod_pos_bound len 2 ltac:(lia)); lia.
Qed.

(** [ff1_encrypt] and [ff1_decrypt] complete on every input of 2 to 256
    digits when the cipher works and [Q] and [S] fit their 256 bytes. *)
Lemma ff1_total (ctx : FPE_CTX) (in_ tweak : list Z) :
  cipher_works ctx -> 2 <= zlength in_ <= 256 ->
  (let b := ff1_b (zlength in_ - zlength in_ / 2) (ctx_radix ctx) in
   ff1_fits (zlength tweak) b (ff1_d b)) ->
  (exists out, ff1_encrypt ctx in_ tweak = Ok out) /\
  (exists out, ff1_decrypt ctx in_ tweak = Ok out).
Proof.
  intros Hc Hlen Hfit. cbv zeta in Hfit.
  destruct (split_floor_le (zlength in_) ltac:(lia)) as [Hu Hv].
  unfold ff1_encrypt, ff1_decrypt.
  destruct (Z.ltb_spec (zlength in_) 2); [lia|].
  destruct (Z.gtb_spec (zlength in_) 0xFFFFFFFF); [lia|].
  destruct (Z.gtb_spec (zlength in_) 256); [lia|].
  cbn [orb].
  fold (ff1_b (zlength in_ - zlength in_ / 2) (ctx_radix ctx)).
  set (b := ff1_b _ _) in *. fold (ff1_d b).
  assert (Hround : forall i st,
             (exists st', ff1_encrypt_round ctx
                            (ff1_build_P (ctx_radix ctx) (zlength in_ / 2)
                                         (zlength in_) (zlength tweak))
                            tweak (zlength tweak) (ctx_radix ctx) (zlength in_ / 2)
                            (zlength in_ - zlength in_ / 2) (zlength in_) b (ff1_d b)
                            i st = Ok st') /\
             (exists st', ff1_decrypt_round ctx
                            (ff1_build_P (ctx_radix ctx) (zlength in_ / 2)
                                         (zlength in_) (zlength tweak))
                            tweak (zlength tweak) (ctx_radix ctx) (zlength in_ / 2)
                            (zlength in_ - zlength in_ / 2) (zlength in_) b (ff1_d b)
                            i st = Ok st')).
  { intros i [pA pB]. unfold ff1_encrypt_round, ff1_decrypt_round.
    assert (Hm : (if negb (Z.land i 1 =? 0) then zlength in_ - zlength in_ / 2
                  else zlength in_ / 2) <= 256)
      by (destruct (negb (Z.land i 1 =? 0)); lia).
    split.
    - match goal with
      | |- context [ff1_round_y ctx ?P tweak _ ?r b ?d i ?m ?o pB] =>
          destruct (ff1_round_y_total ctx P tweak r b d i m o pB Hc
                      (ff1_b_nonneg _ _) ltac:(apply u32_range) Hfit Hm) as (y & ->)
      end.
      cbn [bind]; eauto.
    - match goal with
      | |- context [ff1_round_y ctx ?P tweak _ ?r b ?d i ?m ?o pA] =>
          destruct (ff1_round_y_total ctx P tweak r b d i m o pA Hc
                      (ff1_b_nonneg _ _) ltac:(apply u32_range) Hfit Hm) as (y & ->)
      end.
      cbn [bind]; eauto. }
  split.
  - match goal with
    | |- context [for_up FF1_ROUNDS 0 ?body ?s0] =>
        destruct (for_up_total body (fun j t => proj1 (Hround j t)) FF1_ROUNDS 0 s0)
          as (st & ->)
    end.
    cbn [bind]; eauto.
  - match goal with
    | |- context [for_down FF1_ROUNDS ?body ?s0] =>
        destruct (for_down_total body (fun j t => proj2 (Hround j t)) FF1_ROUNDS s0)
          as (st & ->)
    end.
    cbn [bind]; eauto.
Qed.

End FF1Total.

Section FF1Exact.
Context {PF : Platform}.

(** Conversely, a round that returns has kept [Q] and [y_bytes] inside
    their buffers. *)
Lemma ff1_round_y_fits ctx P tweak radix b d i m other_len pB y :
  ff1_round_y ctx P tweak (zlength tweak) radix b d i m other_len pB = Ok y ->
  ff1_fits (zlength tweak) b d.
Proof.
  intros H. unfold ff1_round_y in H.
  pose proof (zlength_nonneg tweak) as Ht.
  assert (HQlen : (if zlength tweak >? 0 then zlength tweak else 0) = zlength tweak)
    by (destruct (Z.gtb_spec (zlength tweak) 0); lia).
  rewrite HQlen in H.
  apply bind_ok in H as (Q0 & _ & H).
  apply bind_ok in H as (? & _ & H).
  apply bind_ok in H as (? & _ & H).
  apply bind_ok in H as (? & HQ & H).
  apply bind_ok in H as (? & _ & H).
  apply bind_ok in H as (S & _ & H).
  apply bind_ok in H as (? & HS & H).
  apply guard_write_inv in HQ. apply guard_write_inv in HS.
  split; [exact HQ | lia].
Qed.

Lemma for_up_first {St : Type} (body : Z -> St -> outcome St) (n : nat) (i : Z) (s s' : St) :
  for_up (S n) i body s = Ok s' -> exists s1, body i s = Ok s1.
Proof.
  cbn [for_up]. intros H. apply bind_ok in H as (s1 & H1 & _). eauto.
Qed.

(** With a working cipher and 2 to 256 digits, [ff1_encrypt] returns an
    output exactly when [Q] and [S] fit. *)
Lemma ff1_completes_iff (ctx : FPE_CTX) (in_ tweak : list Z) :
  cipher_works ctx -> 2 <= zlength in_ <= 256 ->
  (exists out, ff1_encrypt ctx in_ tweak = Ok out) <->
  (let b := ff1_b (zlength in_ - zlength in_ / 2) (ctx_radix ctx) in
   ff1_fits (zlength tweak) b (ff1_d b)).
Proof.
  intros Hc Hlen. split.
  - intros (out & H). cbv zeta. unfold ff1_encrypt in H.
    destruct ((zlength in_ <? 2) || (zlength in_ >? 0xFFFFFFFF)); [discriminate|].
    destruct (zlength in_ >? 256); [discriminate|].
    apply bind_ok in H as (st & H & _).
    apply for_up_first in H as ([pA pB] & H).
    unfold ff1_encrypt_round in H. apply bind_ok in H as (y & H & _).
    exact (ff1_round_y_fits _ _ _ _ _ _ _ _ _ _ _ H).
  - intros Hfit. apply (ff1_total ctx in_ tweak Hc Hlen Hfit).
Qed.

End FF1Exact.

(** ** The FF1 block [P] *)



(** [be_bytes] is the big-endian encoding: its value is the number it
    encodes, reduced to the width. *)
Lemma be_val_be_bytes (n : nat) (x : Z) :
  be_val (be_bytes n x) = x mod 256 ^ Z.of_nat n.
Proof.
  induction n as [|k IH]; cbn [be_bytes be_val].
  - change (Z.of_nat 0) with 0. rewrite Z.pow_0_r, Z.mod_1_r; reflexivity.
  - assert (Hl : forall j y, zlength (be_bytes j y) = Z.of_nat j).
    { induction j as [|j IHj]; intros y; [reflexivity|].
      cbn [be_bytes]. rewrite zlength_cons, IHj. lia. }
    rewrite Hl, IH.
    replace (Z.of_nat (S k)) with (Z.of_nat k + 1) by lia.
    rewrite pow_plus_1 by lia.
    assert (Hp : 0 < 256 ^ Z.of_nat k) by (apply Z.pow_pos_nonneg; lia).
    rewrite (Z.mul_comm 256), Z.rem_mul_r by lia.
    ring.
Qed.

(** ** The tweak of FF3-1 *)

Section TweakContract.
Context {PF : Platform}.

Lemma list_of_zlength_8 (T : list Z) :
  zlength T = 8 ->
  exists t0 t1 t2 t3 t4 t5 t6 t7, T = [t0; t1; t2; t3; t4; t5; t6; t7].
Proof.
  unfold zlength; intros H.
  destruct T as [|t0 [|t1 [|t2 [|t3 [|t4 [|t5 [|t6 [|t7 [|t8 T]]]]]]]]];
    cbn [length] in H; try lia.
  repeat eexists.
Qed.





(** The engines depend on the tweak through its length check and its
    halves only. *)
Lemma ff3_1_tweak_ext (ctx : FPE_CTX) (in_ t t' : list Z) :
  negb (zlength t =? 7) && negb (zlength t =? 8) && negb (zlength t =? 0)
  = negb (zlength t' =? 7) && negb (zlength t' =? 8) && negb (zlength t' =? 0) ->
  ff3_1_tweak_halves t (zlength t) = ff3_1_tweak_halves t' (zlength t') ->
  ff3_1_encrypt ctx in_ t = ff3_1_encrypt ctx in_ t' /\
  ff3_1_decrypt ctx in_ t = ff3_1_decrypt ctx in_ t'.
Proof.
  intros Hc Hh. unfold ff3_1_encrypt, ff3_1_decrypt. rewrite Hc, Hh.
  split; reflexivity.
Qed.

(** C5: [ff3_1_encrypt] and [ff3_1_decrypt] accept the tweak lengths 0, 7
    and 8 (on an input of 2 to 256 digits and with a working cipher they
    return an output) and return an error for every other length, as
    [fpe_validate_tweak] does; with an 8-byte tweak the result is the one
    for its first 7 bytes; with an empty tweak both [Tl] and [Tr] are
    zero. *)
Theorem ff3_1_tweak_contract (ctx : FPE_CTX) (in_ tweak : list Z) :
  (ff3_tweak_len_ok (zlength tweak) ->
   fpe_validate_tweak FPE_MODE_FF3_1 (zlength tweak) = 0 /\
   (cipher_works ctx -> 2 <= zlength in_ <= 256 ->
    (exists out, ff3_1_encrypt ctx in_ tweak = Ok out) /\
    (exists out, ff3_1_decrypt ctx in_ tweak = Ok out))) /\
  (~ ff3_tweak_len_ok (zlength tweak) ->
   fpe_validate_tweak FPE_MODE_FF3_1 (zlength tweak) = -1 /\
   ff3_1_encrypt ctx in_ tweak = Err /\
   ff3_1_decrypt ctx in_ tweak = Err) /\
  (zlength tweak = 8 ->
   ff3_1_encrypt ctx in_ tweak = ff3_1_encrypt ctx in_ (take 7 tweak) /\
   ff3_1_decrypt ctx in_ tweak = ff3_1_decrypt ctx in_ (take 7 tweak)) /\
  (zlength tweak = 0 ->
   ff3_1_tweak_halves tweak (zlength tweak) = ([0; 0; 0; 0], [0; 0; 0; 0])).
Proof.
  assert (Hv : forall tl, fpe_validate_tweak FPE_MODE_FF3_1 tl
                          = if negb (tl =? 7) && negb (tl =? 8) && negb (tl =? 0)
                            then -1 else 0) by reflexivity.
  split; [|split; [|split]].
  - intros H. split; [|intros Hc Hlen; apply (ff3_1_total ctx in_ tweak Hc Hlen H)].
    rewrite Hv, (proj2 (ff3_1_tweak_check _) H). reflexivity.
  - intros H.
    assert (E : negb (zlength tweak =? 7) && negb (zlength tweak =? 8)
                && negb (zlength tweak =? 0) = true).
    { destruct (negb (zlength tweak =? 7) && negb (zlength tweak =? 8)
                && negb (zlength tweak =? 0)) eqn:E; [reflexivity|].
      exfalso; apply H, ff3_1_tweak_check, E. }
    unfold ff3_1_encrypt, ff3_1_decrypt. rewrite Hv, E.
    destruct ((zlength in_ <? 2) || (zlength in_ >? 256)); repeat split.
  - intros H.
    destruct (list_of_zlength_8 tweak H) as (t0 & t1 & t2 & t3 & t4 & t5 & t6 & t7 & ->).
    apply ff3_1_tweak_ext; reflexivity.
  - intros H. unfold ff3_1_tweak_halves. rewrite H. reflexivity.
Qed.

End TweakContract.

Lemma sample_cipher_works (mode : Z) (radix : Z) :
  2 <= radix <= 65536 ->
  mode = FPE_MODE_FF1 \/ mode = FPE_MODE_FF3 \/ mode = FPE_MODE_FF3_1 ->
  cipher_works (sample_ctx mode radix).
Proof.
  intros Hr Hmode. unfold sample_ctx, FPE_CTX_init, fpe_validate_radix.
  destruct (Z.ltb_spec radix 2); [lia|]. destruct (Z.gtb_spec radix 65536); [lia|].
  destruct Hmode as [->|[->| ->]]; cbn;
    (eexists; eexists; split; [reflexivity | intros blk; discriminate]).
Qed.

Lemma ff3_1_tweak_contract_witness :
  (exists out, ff3_1_encrypt (sample_ctx FPE_MODE_FF3_1 10) [1; 2; 3; 4; 5]
                             [1; 2; 3; 4; 5; 6; 7; 8] = Ok out) /\
  ff3_1_encrypt (sample_ctx FPE_MODE_FF3_1 10) [1; 2; 3; 4; 5] [1; 2; 3; 4; 5; 6; 7; 8]
  = ff3_1_encrypt (sample_ctx FPE_MODE_FF3_1 10) [1; 2; 3; 4; 5] [1; 2; 3; 4; 5; 6; 7].
Proof.
  destruct (ff3_1_tweak_contract (sample_ctx FPE_MODE_FF3_1 10) [1; 2; 3; 4; 5]
              [1; 2; 3; 4; 5; 6; 7; 8]) as (Hok & _ & H8 & _).
  split.
  - apply Hok.
    + right; right; reflexivity.
    + apply sample_cipher_works; [lia | auto].
    + vm_compute; split; discriminate.
  - apply H8. reflexivity.
Defined.

(** ** Context initialisation *)

Section Init.
Context {PF : Platform}.

(** C8 fails on the code: with a mode outside {FF1, FF3, FF3-1} and
    otherwise valid arguments [FPE_CTX_init] returns 0; it stores the mode
    and the key and leaves [cipher_ctx] as it found it. *)
Theorem FPE_CTX_init_unsupported_mode (ctx : FPE_CTX) (mode algo : Z) (key : list Z)
        (bits radix : Z) :
  mode <> FPE_MODE_FF1 -> mode <> FPE_MODE_FF3 -> mode <> FPE_MODE_FF3_1 ->
  2 <= radix <= 65536 ->
  key_bits_ok algo bits ->
  fst (FPE_CTX_init ctx mode algo key bits radix) = 0 /\
  ctx_mode (snd (FPE_CTX_init ctx mode algo key bits radix)) = mode /\
  ctx_cipher_ctx (snd (FPE_CTX_init ctx mode algo key bits radix)) = ctx_cipher_ctx ctx.
Proof.
  intros H1 H3 H31 Hr Hk. unfold FPE_CTX_init, fpe_validate_radix.
  destruct (Z.ltb_spec radix 2); [lia|]. destruct (Z.gtb_spec radix 65536); [lia|].
  cbn [orb Z.eqb negb].
  assert (Hkey : (if algo =? FPE_ALGO_AES
                  then (bits =? 128) || (bits =? 192) || (bits =? 256)
                  else if algo =? FPE_ALGO_SM4 then bits =? 128 else false) = true).
  { destruct Hk as [[-> Hb]|[-> ->]]; [|reflexivity].
    destruct Hb as [->|[->| ->]]; reflexivity. }
  rewrite Hkey. cbn [negb].
  destruct (Z.eqb_spec mode FPE_MODE_FF1); [contradiction|].
  destruct (Z.eqb_spec mode FPE_MODE_FF3); [contradiction|].
  destruct (Z.eqb_spec mode FPE_MODE_FF3_1); [contradiction|].
  cbn [orb fst snd ctx_mode ctx_cipher_ctx]. repeat split.
Qed.

(** C9 fails on the code: whenever [FPE_CTX_init] returns 0, the key
    storage of the context is the new key over its first [bits / 8] bytes
    and what it was before over the rest; the bytes of a longer previous
    key are neither zeroed nor overwritten. *)
Theorem FPE_CTX_init_key_storage (ctx ctx' : FPE_CTX) (mode algo : Z) (key : list Z)
        (bits radix : Z) :
  FPE_CTX_init ctx mode algo key bits radix = (0, ctx') ->
  ctx_key ctx' = take (bits / 8) key ++ drop (bits / 8) (ctx_key ctx).
Proof.
  unfold FPE_CTX_init, memcpy. intros H.
  repeat match type of H with
         | (if ?c then _ else _) = _ => destruct c
         | match ?c with _ => _ end = _ => destruct c
         end;
    try discriminate; injection H as <-; reflexivity.
Qed.

(** What a successful [FPE_CTX_init] has checked and stored. *)
Lemma FPE_CTX_init_stores (ctx ctx' : FPE_CTX) (mode algo : Z) (key : list Z)
      (bits radix : Z) :
  FPE_CTX_init ctx mode algo key bits radix = (0, ctx') ->
  2 <= radix <= 65536 /\ ctx_radix ctx' = radix /\ ctx_mode ctx' = mode /\
  ctx_algo ctx' = algo /\ ctx_key_len ctx' = bits / 8.
Proof.
  unfold FPE_CTX_init, fpe_validate_radix. intros H.
  destruct (Z.ltb_spec radix 2); [discriminate|].
  destruct (Z.gtb_spec radix 65536); [discriminate|].
  cbn [orb Z.eqb negb] in H.
  repeat match type of H with
         | (if ?c then _ else _) = _ => destruct c
         | match ?c with _ => _ end = _ => destruct c
         end;
    try discriminate; injection H as <-; cbn; repeat split; lia.
Qed.

(** [FPE_CTX_free], in contrast, wipes the whole key storage. *)
Lemma FPE_CTX_free_wipes_key (ctx : FPE_CTX) :
  zlength (ctx_key ctx) = 32 -> ctx_key (FPE_CTX_free ctx) = zeros 32.
Proof.
  intros H. unfold FPE_CTX_free, fpe_secure_zero; cbn [ctx_key].
  rewrite drop_all by lia. apply app_nil_r.
Qed.

(** A context whose mode is none of the three is refused by
    [FPE_encrypt] and [FPE_decrypt]. *)
Lemma FPE_encrypt_unsupported_mode (ctx : FPE_CTX) (in_ tweak : list Z) :
  ctx_mode ctx <> FPE_MODE_FF1 -> ctx_mode ctx <> FPE_MODE_FF3 ->
  ctx_mode ctx <> FPE_MODE_FF3_1 ->
  FPE_encrypt ctx in_ tweak = Err /\ FPE_decrypt ctx in_ tweak = Err.
Proof.
  intros H1 H3 H31. unfold FPE_encrypt, FPE_decrypt, fpe_validate_tweak.
  destruct (Z.eqb_spec (ctx_mode ctx) FPE_MODE_FF1); [contradiction|].
  destruct (Z.eqb_spec (ctx_mode ctx) FPE_MODE_FF3); [contradiction|].
  destruct (Z.eqb_spec (ctx_mode ctx) FPE_MODE_FF3_1); [contradiction|].
  split; reflexivity.
Qed.

End Init.

Lemma FPE_CTX_init_unsupported_mode_witness :
  fst (FPE_CTX_init FPE_CTX_new 3 FPE_ALGO_AES sample_key16 128 10) = 0 /\
  ctx_mode (snd (FPE_CTX_init FPE_CTX_new 3 FPE_ALGO_AES sample_key16 128 10)) = 3 /\
  ctx_cipher_ctx (snd (FPE_CTX_init FPE_CTX_new 3 FPE_ALGO_AES sample_key16 128 10))
  = ctx_cipher_ctx FPE_CTX_new.
Proof.
  apply (FPE_CTX_init_unsupported_mode FPE_CTX_new 3 FPE_ALGO_AES sample_key16 128 10).
  - discriminate.
  - discriminate.
  - discriminate.
  - lia.
  - left; split; [reflexivity | left; reflexivity].
Defined.

(** A context keyed with the 32 bytes of [sample_key32] and initialised
    again with the 16 bytes of [sample_key16] still holds the last 16 bytes
    of the first key. *)
Lemma FPE_CTX_init_key_storage_witness :
  let ctx1 := snd (FPE_CTX_init FPE_CTX_new FPE_MODE_FF1 FPE_ALGO_AES sample_key32 256 10) in
  let ctx2 := snd (FPE_CTX_init ctx1 FPE_MODE_FF1 FPE_ALGO_AES sample_key16 128 10) in
  ctx_key ctx2 = sample_key16 ++ drop 16 sample_key32.
Proof.
  cbv zeta.
  exact (FPE_CTX_init_key_storage _ _ FPE_MODE_FF1 FPE_ALGO_AES sample_key16 128 10 eq_refl).
Defined.

(** ** The buffer [Q] of FF1 *)

Section Overflow.
Context {PF : Platform}.

(** With a tweak of 256 bytes or more the assembly of [Q] leaves
    [Q[256]], in every round, before the cipher is called. *)
Lemma ff1_round_y_overflow ctx P tweak tweak_len radix b d i m other_len pB :
  256 <= tweak_len ->
  ff1_round_y ctx P tweak tweak_len radix b d i m other_len pB = Overflow.
Proof.
  intros Ht. unfold ff1_round_y.
  destruct (Z.gtb_spec tweak_len 0); [|lia].
  destruct (Z.eq_dec tweak_len 256) as [->|Hne].
  - rewrite (guard_write_ok 256 0 256) by lia. cbn [bind].
    set (padding_len := u32 _).
    assert (Hp : 0 <= padding_len) by apply u32_range.
    destruct (Z.eq_dec padding_len 0) as [->|Hpos].
    + rewrite (guard_write_ok 256 256 0) by lia. cbn [bind].
      rewrite guard_write_overflow by lia. reflexivity.
    + rewrite guard_write_overflow by lia. reflexivity.
  - rewrite guard_write_overflow by lia. reflexivity.
Qed.

(** C10 fails on the code: [fpe_validate_tweak] accepts every tweak
    length for FF1, and for every tweak of 256 bytes or more
    [ff1_encrypt], on an input of 2 to 256 digits, writes past the end of
    [Q[256]] in round 0 instead of completing. *)
Theorem ff1_long_tweak_overflow (ctx : FPE_CTX) (in_ tweak : list Z) :
  2 <= zlength in_ <= 256 ->
  256 <= zlength tweak ->
  fpe_validate_tweak FPE_MODE_FF1 (zlength tweak) = 0 /\
  ff1_encrypt ctx in_ tweak = Overflow /\
  (ctx_mode ctx = FPE_MODE_FF1 -> FPE_encrypt ctx in_ tweak = Overflow).
Proof.
  intros Hlen Ht.
  assert (Henc : ff1_encrypt ctx in_ tweak = Overflow).
  { unfold ff1_encrypt.
    destruct (Z.ltb_spec (zlength in_) 2); [lia|].
    destruct (Z.gtb_spec (zlength in_) 0xFFFFFFFF); [lia|].
    destruct (Z.gtb_spec (zlength in_) 256); [lia|].
    cbn [orb]. unfold FF1_ROUNDS. cbn [for_up].
    unfold ff1_encrypt_round at 1.
    rewrite ff1_round_y_overflow by lia. reflexivity. }
  split; [reflexivity|]. split; [exact Henc|].
  intros Hmode. unfold FPE_encrypt. rewrite Hmode. exact Henc.
Qed.

End Overflow.

Lemma ff1_long_tweak_overflow_witness :
  fpe_validate_tweak FPE_MODE_FF1 (zlength (zeros 256)) = 0 /\
  ff1_encrypt (sample_ctx FPE_MODE_FF1 10) [1; 2; 3; 4] (zeros 256) = Overflow /\
  (ctx_mode (sample_ctx FPE_MODE_FF1 10) = FPE_MODE_FF1 ->
   FPE_encrypt (sample_ctx FPE_MODE_FF1 10) [1; 2; 3; 4] (zeros 256) = Overflow).
Proof.
  apply (ff1_long_tweak_overflow (sample_ctx FPE_MODE_FF1 10) [1; 2; 3; 4] (zeros 256)).
  - vm_compute; split; discriminate.
  - vm_compute; discriminate.
Defined.

(** ** Digits are not checked *)

Section Digits.
Context {PF : Platform}.

(** C3 fails on the code: [FPE_encrypt] and [FPE_decrypt] never look at
    the digits.  In the modes FF3 and FF3-1, with a working cipher, every
    input of 2 to 256 digits (whatever the digits, also those not below
    the radix) and every tweak of 0, 7 or 8 bytes is dispatched to the
    engine and an output is returned. *)
Theorem FPE_encrypt_no_digit_check (ctx : FPE_CTX) (in_ tweak : list Z) :
  cipher_works ctx ->
  ctx_mode ctx = FPE_MODE_FF3 \/ ctx_mode ctx = FPE_MODE_FF3_1 ->
  2 <= zlength in_ <= 256 ->
  ff3_tweak_len_ok (zlength tweak) ->
  (exists out, FPE_encrypt ctx in_ tweak = Ok out) /\
  (exists out, FPE_decrypt ctx in_ tweak = Ok out).
Proof.
  intros Hc Hmode Hlen Ht. unfold FPE_encrypt, FPE_decrypt, fpe_validate_tweak.
  destruct Hmode as [-> | ->]; cbn [FPE_MODE_FF1 FPE_MODE_FF3 FPE_MODE_FF3_1 Z.eqb].
  - rewrite (proj2 (ff3_tweak_check _) Ht). cbn [Z.eqb negb].
    apply ff3_total; assumption.
  - rewrite (proj2 (ff3_1_tweak_check _) Ht). cbn [Z.eqb negb].
    apply ff3_1_total; assumption.
Qed.

End Digits.

Lemma FPE_encrypt_no_digit_check_witness :
  Exists (fun d => ctx_radix (sample_ctx FPE_MODE_FF3_1 10) <= d) [10; 99; 3] /\
  (exists out, FPE_encrypt (sample_ctx FPE_MODE_FF3_1 10) [10; 99; 3] [1; 2; 3; 4; 5; 6; 7]
               = Ok out) /\
  (exists out, FPE_decrypt (sample_ctx FPE_MODE_FF3_1 10) [10; 99; 3] [1; 2; 3; 4; 5; 6; 7]
               = Ok out).
Proof.
  split; [left; vm_compute; discriminate|].
  apply (FPE_encrypt_no_digit_check (sample_ctx FPE_MODE_FF3_1 10) [10; 99; 3]
                                    [1; 2; 3; 4; 5; 6; 7]).
  - apply sample_cipher_works; [lia | auto].
  - right; reflexivity.
  - vm_compute; split; discriminate.
  - right; left; reflexivity.
Defined.

(** The same in FF1, evaluated: the digits 10 and 11 are not digits of
    radix 10, and the call returns an output. *)
Example FPE_encrypt_ff1_invalid_digits :
  exists out, FPE_encrypt (sample_ctx FPE_MODE_FF1 10) [10; 11; 3; 4] [] = Ok out.
Proof. vm_compute. eexists; reflexivity. Qed.

(** ** Alphabets and strings (utils.c) *)

Lemma s32_small (x : Z) : 0 <= x < 2 ^ 31 -> s32 x = x.
Proof.
  intros H. unfold s32. rewrite Z.mod_small by lia. lia.
Qed.

Lemma strchr_range (s : list Z) (c off : Z) :
  strchr s c = Some off -> 0 <= off <= zlength s.
Proof.
  revert off; induction s as [|x rest IH]; intros off; cbn [strchr].
  - destruct (c =? 0); [|discriminate]. intros [= <-]. unfold zlength; cbn; lia.
  - rewrite zlength_cons. pose proof (zlength_nonneg rest).
    destruct (x =? c); [intros [= <-]; lia|].
    destruct (strchr rest c) as [o|]; [|discriminate].
    cbn [option_map]. intros [= <-]. specialize (IH o eq_refl). lia.
Qed.

Lemma strchr_inside (s : list Z) (c off : Z) :
  strchr s c = Some off -> off < zlength s -> nth (Z.to_nat off) s 0 = c.
Proof.
  revert off; induction s as [|x rest IH]; intros off; cbn [strchr].
  - destruct (c =? 0); [|discriminate]. intros [= <-]. unfold zlength; cbn; lia.
  - rewrite zlength_cons.
    destruct (Z.eqb_spec x c) as [->|Hne]; [intros [= <-] _; reflexivity|].
    destruct (strchr rest c) as [o|] eqn:E; [|discriminate].
    cbn [option_map]. intros [= <-] Hlt.
    pose proof (strchr_range rest c o E).
    replace (Z.to_nat (Z.succ o)) with (S (Z.to_nat o)) by lia.
    cbn [nth]. apply IH; [reflexivity | lia].
Qed.

Lemma strchr_in (s : list Z) (c : Z) :
  In c s -> exists off, strchr s c = Some off /\ 0 <= off < zlength s.
Proof.
  induction s as [|x rest IH]; intros Hin; [destruct Hin|].
  cbn [strchr]. rewrite zlength_cons. pose proof (zlength_nonneg rest).
  destruct (Z.eqb_spec x c) as [->|Hne]; [exists 0; split; [reflexivity | lia]|].
  destruct Hin as [Heq|Hin]; [contradiction|].
  destruct (IH Hin) as (o & -> & Ho). exists (Z.succ o).
  split; [reflexivity | lia].
Qed.

Lemma strchr_absent (s : list Z) (c : Z) :
  ~ In c s -> strchr s c = if c =? 0 then Some (zlength s) else None.
Proof.
  induction s as [|x rest IH]; intros Hin; cbn [strchr]; [reflexivity|].
  destruct (Z.eqb_spec x c) as [->|Hne]; [exfalso; apply Hin; left; reflexivity|].
  rewrite IH by (intros H; apply Hin; right; exact H).
  destruct (c =? 0); cbn [option_map]; [|reflexivity].
  rewrite zlength_cons. f_equal; lia.
Qed.

Lemma strchr_nth (s : list Z) (i : nat) :
  NoDup s -> (i < length s)%nat -> strchr s (nth i s 0) = Some (Z.of_nat i).
Proof.
  intros Hnd; revert i; induction Hnd as [|x rest Hx Hnd IH]; intros i Hi;
    [cbn in Hi; lia|].
  destruct i as [|i]; cbn [nth strchr].
  - rewrite Z.eqb_refl. reflexivity.
  - cbn [length] in Hi.
    destruct (Z.eqb_spec x (nth i rest 0)) as [Heq|Hne].
    + exfalso; apply Hx; rewrite Heq; apply nth_In; lia.
    + rewrite IH by lia. cbn [option_map]. f_equal; lia.
Qed.

(** The index of a char of the alphabet, of a char that is not in it,
    and of the char at a given index. *)
Lemma char_index_found (alphabet : list Z) (c : Z) :
  zlength alphabet < 2 ^ 31 -> In c alphabet ->
  0 <= fpe_char_to_index alphabet c < zlength alphabet /\
  nth (Z.to_nat (fpe_char_to_index alphabet c)) alphabet 0 = c.
Proof.
  intros Hlen Hin. unfold fpe_char_to_index.
  destruct (strchr_in alphabet c Hin) as (off & E & Hoff).
  rewrite E, s32_small by lia. split; [exact Hoff|].
  apply (strchr_inside alphabet c off E); lia.
Qed.

Lemma char_index_absent (alphabet : list Z) (c : Z) :
  zlength alphabet < 2 ^ 31 -> ~ In c alphabet ->
  fpe_char_to_index alphabet c = if c =? 0 then zlength alphabet else -1.
Proof.
  intros Hlen Hin. unfold fpe_char_to_index. rewrite (strchr_absent alphabet c Hin).
  destruct (c =? 0); [|reflexivity].
  apply s32_small. pose proof (zlength_nonneg alphabet). lia.
Qed.

Lemma char_index_nth (alphabet : list Z) (i : Z) :
  NoDup alphabet -> zlength alphabet < 2 ^ 31 -> 0 <= i < zlength alphabet ->
  fpe_char_to_index alphabet (nth (Z.to_nat i) alphabet 0) = i.
Proof.
  intros Hnd Hlen Hi. unfold fpe_char_to_index.
  rewrite strchr_nth by (try assumption; unfold zlength in *; lia).
  rewrite Z2Nat.id by lia. apply s32_small; lia.
Qed.

(** X1: what [fpe_char_to_index] returns: for a char of the alphabet an
    index below the radix, at which [fpe_index_to_char] finds that char;
    [-1] for any other char but NUL; and for NUL, which [strchr] finds at
    the terminator, the radix itself. *)
Theorem fpe_char_to_index_spec (alphabet : list Z) (c : Z) :
  zlength alphabet < 2 ^ 31 ->
  (In c alphabet ->
   0 <= fpe_char_to_index alphabet c < zlength alphabet /\
   fpe_index_to_char alphabet (fpe_char_to_index alphabet c) = c) /\
  (~ In c alphabet -> c <> 0 -> fpe_char_to_index alphabet c = -1) /\
  (~ In c alphabet -> c = 0 -> fpe_char_to_index alphabet c = zlength alphabet).
Proof.
  intros Hlen. split; [|split].
  - intros Hin. destruct (char_index_found alphabet c Hlen Hin) as [Hidx Hnth].
    split; [exact Hidx|]. unfold fpe_index_to_char.
    destruct (Z.geb_spec (fpe_char_to_index alphabet c) (zlength alphabet)); [lia|].
    exact Hnth.
  - intros Hin Hc. rewrite (char_index_absent alphabet c Hlen Hin).
    destruct (Z.eqb_spec c 0); [contradiction | reflexivity].
  - intros Hin ->. rewrite (char_index_absent alphabet 0 Hlen Hin). reflexivity.
Qed.

Lemma fpe_char_to_index_spec_witness :
  0 <= fpe_char_to_index [97; 98; 99] 98 < zlength [97; 98; 99] /\
  fpe_index_to_char [97; 98; 99] (fpe_char_to_index [97; 98; 99] 98) = 98.
Proof.
  apply (fpe_char_to_index_spec [97; 98; 99] 98).
  - vm_compute; reflexivity.
  - right; left; reflexivity.
Defined.

(** X2: in an alphabet without a repeated char, [fpe_index_to_char] and
    [fpe_char_to_index] are inverse to each other on the indices below
    the radix; an index that is not below it gives NUL. *)
Theorem fpe_index_to_char_inverse (alphabet : list Z) (i : Z) :
  NoDup alphabet -> zlength alphabet < 2 ^ 31 -> 0 <= i ->
  (i < zlength alphabet ->
   In (fpe_index_to_char alphabet i) alphabet /\
   fpe_char_to_index alphabet (fpe_index_to_char alphabet i) = i) /\
  (zlength alphabet <= i -> fpe_index_to_char alphabet i = 0).
Proof.
  intros Hnd Hlen Hi. unfold fpe_index_to_char. split; intros Hr.
  - destruct (Z.geb_spec i (zlength alphabet)); [lia|].
    split; [apply nth_In; unfold zlength in *; lia|].
    apply char_index_nth; try assumption; lia.
  - destruct (Z.geb_spec i (zlength alphabet)); [reflexivity | lia].
Qed.

Lemma fpe_index_to_char_inverse_witness :
  In (fpe_index_to_char [97; 98; 99] 2) [97; 98; 99] /\
  fpe_char_to_index [97; 98; 99] (fpe_index_to_char [97; 98; 99] 2) = 2.
Proof.
  apply (fpe_index_to_char_inverse [97; 98; 99] 2).
  - repeat constructor; cbn; intuition discriminate.
  - vm_compute; reflexivity.
  - lia.
  - vm_compute; reflexivity.
Defined.

Lemma has_duplicate_NoDup (s : list Z) : has_duplicate s = false <-> NoDup s.
Proof.
  induction s as [|c rest IH]; cbn [has_duplicate].
  - split; [constructor | reflexivity].
  - rewrite orb_false_iff, IH. split.
    + intros [Hex Hnd]. constructor; [|exact Hnd].
      intros Hin. assert (existsb (Z.eqb c) rest = true); [|congruence].
      apply existsb_exists. exists c; split; [exact Hin | apply Z.eqb_refl].
    + intros Hnd. inversion Hnd as [|? ? Hc Hrest]; subst. split; [|exact Hrest].
      destruct (existsb (Z.eqb c) rest) eqn:E; [|reflexivity].
      apply existsb_exists in E as (x & Hin & Heq). apply Z.eqb_eq in Heq; subst x.
      contradiction.
Qed.

(** What a nonzero result of [fpe_validate_alphabet] tells. *)
Lemma validated_alphabet (alphabet : list Z) :
  fpe_validate_alphabet alphabet <> 0 ->
  2 <= zlength alphabet <= 65536 /\ NoDup alphabet /\
  fpe_validate_alphabet alphabet = zlength alphabet.
Proof.
  unfold fpe_validate_alphabet. intros H.
  destruct (Z.ltb_spec (zlength alphabet) 2); [contradiction|].
  destruct (Z.gtb_spec (zlength alphabet) 65536); [contradiction|]. cbn [orb] in *.
  destruct (has_duplicate alphabet) eqn:E; [contradiction|].
  split; [lia|]. split; [apply has_duplicate_NoDup, E | apply u32_small; lia].
Qed.

(** X3: [fpe_validate_alphabet] returns the length of the alphabet when
    it has 2 to 65536 chars and no char twice, and 0 in every other case. *)
Theorem fpe_validate_alphabet_spec (alphabet : list Z) :
  (2 <= zlength alphabet <= 65536 /\ NoDup alphabet ->
   fpe_validate_alphabet alphabet = zlength alphabet) /\
  (~ (2 <= zlength alphabet <= 65536 /\ NoDup alphabet) ->
   fpe_validate_alphabet alphabet = 0).
Proof.
  split.
  - intros [Hlen Hnd]. unfold fpe_validate_alphabet.
    destruct (Z.ltb_spec (zlength alphabet) 2); [lia|].
    destruct (Z.gtb_spec (zlength alphabet) 65536); [lia|]. cbn [orb].
    rewrite (proj2 (has_duplicate_NoDup alphabet) Hnd). apply u32_small; lia.
  - intros Hnot.
    destruct (Z.eq_dec (fpe_validate_alphabet alphabet) 0) as [E|E]; [exact E|].
    exfalso; apply Hnot. destruct (validated_alphabet alphabet E) as (Hl & Hnd & _).
    split; assumption.
Qed.

Lemma fpe_validate_alphabet_spec_witness :
  fpe_validate_alphabet [48; 49; 50] = zlength [48; 49; 50] /\
  fpe_validate_alphabet [48; 49; 48] = 0.
Proof.
  split.
  - apply (proj1 (fpe_validate_alphabet_spec [48; 49; 50])).
    split; [vm_compute; split; discriminate|].
    repeat constructor; cbn; intuition discriminate.
  - apply (proj2 (fpe_validate_alphabet_spec [48; 49; 48])).
    intros [_ Hnd]. inversion Hnd as [|? ? Hin _]; subst.
    apply Hin; right; left; reflexivity.
Defined.

(** X4: chars being bytes and NUL ending a string, a validated alphabet
    has at most 255 chars: the radix of the string interface is at most
    255, although the numeral interface takes radixes up to 65536. *)
Theorem fpe_validate_alphabet_le_255 (alphabet : list Z) :
  c_string alphabet -> fpe_validate_alphabet alphabet <= 255.
Proof.
  intros Hc.
  destruct (Z.eq_dec (fpe_validate_alphabet alphabet) 0) as [->|Hne]; [lia|].
  destruct (validated_alphabet alphabet Hne) as (_ & Hnd & ->).
  assert (Hincl : incl alphabet (map Z.of_nat (seq 1 255))).
  { intros c Hin. unfold c_string in Hc. rewrite Forall_forall in Hc.
    specialize (Hc c Hin). apply in_map_iff. exists (Z.to_nat c).
    split; [lia | apply in_seq; lia]. }
  pose proof (NoDup_incl_length Hnd Hincl) as H.
  rewrite length_map, length_seq in H. unfold zlength; lia.
Qed.

Lemma fpe_validate_alphabet_le_255_witness :
  fpe_validate_alphabet [48; 49; 50; 51; 52; 53; 54; 55; 56; 57] <= 255.
Proof.
  apply (fpe_validate_alphabet_le_255 [48; 49; 50; 51; 52; 53; 54; 55; 56; 57]).
  repeat constructor; lia.
Defined.

(** A converted string is converted back to itself. *)
Lemma str_to_array_back (alphabet str arr : list Z) :
  zlength alphabet < 2 ^ 31 ->
  Forall (fun c => c <> 0) str ->
  fpe_str_to_array alphabet str = Ok arr ->
  fpe_array_to_str alphabet arr = Ok str /\
  zlength arr = zlength str /\
  Forall (is_digit (zlength alphabet)) arr.
Proof.
  intros Hlen Hstr; revert arr; induction Hstr as [|c rest Hc Hrest IH];
    intros arr H; cbn [fpe_str_to_array] in H.
  - injection H as <-. repeat split; constructor.
  - destruct (Z.ltb_spec (fpe_char_to_index alphabet c) 0) as [|Hidx]; [discriminate|].
    apply bind_ok in H as (arr' & Harr' & H). injection H as <-.
    destruct (IH arr' Harr') as (Hback & Hl & Hd).
    assert (Hin : In c alphabet).
    { destruct (in_dec Z.eq_dec c alphabet) as [Hin|Hnin]; [exact Hin|].
      rewrite (char_index_absent alphabet c Hlen Hnin) in Hidx.
      destruct (Z.eqb_spec c 0); [contradiction | lia]. }
    destruct (char_index_found alphabet c Hlen Hin) as (Hlt & Hnth).
    rewrite u32_small by lia.
    cbn [fpe_array_to_str].
    destruct (Z.geb_spec (fpe_char_to_index alphabet c) (zlength alphabet)); [lia|].
    rewrite Hback; cbn [bind]. rewrite Hnth.
    split; [reflexivity|]. split; [rewrite !zlength_cons; lia|].
    constructor; [split; lia | exact Hd].
Qed.

(** A written numeral string is read back as itself. *)
Lemma array_to_str_back (alphabet arr str : list Z) :
  NoDup alphabet -> zlength alphabet < 2 ^ 31 ->
  Forall (fun d => 0 <= d) arr ->
  fpe_array_to_str alphabet arr = Ok str ->
  zlength str = zlength arr /\
  Forall (fun c => In c alphabet) str /\
  fpe_str_to_array alphabet str = Ok arr.
Proof.
  intros Hnd Hlen Harr; revert str; induction Harr as [|a rest Ha Hrest IH];
    intros str H; cbn [fpe_array_to_str] in H.
  - injection H as <-. repeat split; constructor.
  - destruct (Z.geb_spec a (zlength alphabet)) as [|Hlt]; [discriminate|].
    apply bind_ok in H as (str' & Hstr' & H). injection H as <-.
    destruct (IH str' Hstr') as (Hl & Hin & Hback).
    split; [rewrite !zlength_cons; lia|].
    split; [constructor; [apply nth_In; unfold zlength in *; lia | exact Hin]|].
    cbn [fpe_str_to_array].
    rewrite char_index_nth by (try assumption; lia).
    destruct (Z.ltb_spec a 0); [lia|].
    rewrite Hback; cbn [bind]. rewrite u32_small by lia. reflexivity.
Qed.

Lemma array_to_str_total (alphabet arr : list Z) :
  Forall (is_digit (zlength alphabet)) arr ->
  exists str, fpe_array_to_str alphabet arr = Ok str.
Proof.
  induction 1 as [|a rest Ha Hrest (str & IH)]; [exists []; reflexivity|].
  unfold is_digit in Ha. cbn [fpe_array_to_str].
  destruct (Z.geb_spec a (zlength alphabet)); [lia|].
  rewrite IH; cbn [bind]. eauto.
Qed.

(** [fpe_str_to_array] fails exactly on a char other than NUL that is not
    in the alphabet. *)
Lemma str_to_array_err_iff (alphabet str : list Z) :
  zlength alphabet < 2 ^ 31 ->
  (fpe_str_to_array alphabet str = Err <->
   Exists (fun c => c <> 0 /\ ~ In c alphabet) str) /\
  fpe_str_to_array alphabet str <> Overflow.
Proof.
  intros Hlen. pose proof (zlength_nonneg alphabet) as Hnn.
  induction str as [|c rest [IH IHo]]; cbn [fpe_str_to_array].
  - split; [split; [discriminate | intros H; inversion H] | discriminate].
  - assert (Hrest : forall k : list Z -> outcome (list Z),
               (forall a, exists b, k a = Ok b) ->
               (bind (fpe_str_to_array alphabet rest) k = Err <->
                Exists (fun c => c <> 0 /\ ~ In c alphabet) rest) /\
               bind (fpe_str_to_array alphabet rest) k <> Overflow).
    { intros k Hk. destruct (fpe_str_to_array alphabet rest) as [a| |]; cbn [bind].
      - destruct (Hk a) as (b & ->).
        split; [split; [discriminate | intros H; apply IH in H; discriminate] | discriminate].
      - split; [split; [intros _; apply IH; reflexivity | reflexivity] | discriminate].
      - contradiction. }
    specialize (Hrest (fun arr => Ok (u32 (fpe_char_to_index alphabet c) :: arr))
                      (fun a => ex_intro _ _ eq_refl)).
    destruct Hrest as [Hiff Hno].
    destruct (in_dec Z.eq_dec c alphabet) as [Hc|Hc].
    + destruct (char_index_found alphabet c Hlen Hc) as [Hidx _].
      destruct (Z.ltb_spec (fpe_char_to_index alphabet c) 0) as [Hneg|_]; [lia|].
      split; [|exact Hno]. rewrite Hiff. split; [apply Exists_cons_tl|].
      intros H. inversion H as [? ? [_ Hn]|? ? Hr]; subst; [contradiction | exact Hr].
    + rewrite (char_index_absent alphabet c Hlen Hc) in *.
      destruct (Z.eqb_spec c 0) as [Hz|Hz].
      * destruct (Z.ltb_spec (zlength alphabet) 0) as [Hneg|_]; [lia|].
        split; [|exact Hno]. rewrite Hiff. split; [apply Exists_cons_tl|].
        intros H. inversion H as [? ? [Hn _]|? ? Hr]; subst; [contradiction | exact Hr].
      * cbn [Z.ltb Z.compare].
        split; [|discriminate].
        split; [intros _; apply Exists_cons_hd; split; assumption | reflexivity].
Qed.

(** X5: a string whose chars are in the alphabet is converted to a
    numeral string of the same length with digits below the radix, which
    [fpe_array_to_str] converts back to the string; this holds for every
    alphabet, also one with repeated chars. *)
Theorem fpe_str_to_array_roundtrip (alphabet str : list Z) :
  zlength alphabet < 2 ^ 31 ->
  Forall (fun c => c <> 0 /\ In c alphabet) str ->
  exists arr,
    fpe_str_to_array alphabet str = Ok arr /\
    zlength arr = zlength str /\
    Forall (is_digit (zlength alphabet)) arr /\
    fpe_array_to_str alphabet arr = Ok str.
Proof.
  intros Hlen Hstr.
  destruct (str_to_array_err_iff alphabet str Hlen) as [Herr Hover].
  destruct (fpe_str_to_array alphabet str) as [arr| |] eqn:E.
  - assert (Hnz : Forall (fun c => c <> 0) str)
      by (eapply Forall_impl; [|exact Hstr]; intros c [Hc _]; exact Hc).
    destruct (str_to_array_back alphabet str arr Hlen Hnz E) as (Hback & Hl & Hd).
    exists arr. auto.
  - exfalso. destruct Herr as [Herr _]. specialize (Herr eq_refl).
    apply Exists_exists in Herr as (c & Hin & _ & Hout).
    rewrite Forall_forall in Hstr. destruct (Hstr c Hin) as [_ Hc]. contradiction.
  - contradiction.
Qed.

Lemma fpe_str_to_array_roundtrip_witness :
  exists arr,
    fpe_str_to_array [97; 98; 99] [99; 97; 98] = Ok arr /\
    zlength arr = zlength [99; 97; 98] /\
    Forall (is_digit (zlength [97; 98; 99])) arr /\
    fpe_array_to_str [97; 98; 99] arr = Ok [99; 97; 98].
Proof.
  apply (fpe_str_to_array_roundtrip [97; 98; 99] [99; 97; 98]).
  - vm_compute; reflexivity.
  - repeat constructor; try discriminate; cbn; tauto.
Defined.

(** X6: over an alphabet without a repeated char, a numeral string with
    digits below the radix is written as a string of the same length, made
    of chars of the alphabet, that [fpe_str_to_array] reads back as the
    same numeral string. *)
Theorem fpe_array_to_str_roundtrip (alphabet arr : list Z) :
  NoDup alphabet -> zlength alphabet < 2 ^ 31 ->
  Forall (is_digit (zlength alphabet)) arr ->
  exists str,
    fpe_array_to_str alphabet arr = Ok str /\
    zlength str = zlength arr /\
    Forall (fun c => In c alphabet) str /\
    fpe_str_to_array alphabet str = Ok arr.
Proof.
  intros Hnd Hlen Harr.
  destruct (array_to_str_total alphabet arr Harr) as (str & Hstr).
  assert (Hnn : Forall (fun d => 0 <= d) arr)
    by (eapply Forall_impl; [|exact Harr]; intros d [Hd _]; exact Hd).
  destruct (array_to_str_back alphabet arr str Hnd Hlen Hnn Hstr) as (Hl & Hin & Hback).
  exists str. auto.
Qed.

Lemma fpe_array_to_str_roundtrip_witness :
  exists str,
    fpe_array_to_str [97; 98; 99] [2; 0; 1] = Ok str /\
    zlength str = zlength [2; 0; 1] /\
    Forall (fun c => In c [97; 98; 99]) str /\
    fpe_str_to_array [97; 98; 99] str = Ok [2; 0; 1].
Proof.
  apply (fpe_array_to_str_roundtrip [97; 98; 99] [2; 0; 1]).
  - repeat constructor; cbn; intuition discriminate.
  - vm_compute; reflexivity.
  - repeat constructor; unfold is_digit; vm_compute; intuition discriminate.
Defined.

(** X7: the two conversions fail on exactly these inputs:
    [fpe_str_to_array] when the string holds a char other than NUL that
    is not in the alphabet (a NUL among the chars read is not refused:
    it becomes the digit [radix]); [fpe_array_to_str] when a digit is not
    below [strlen(alphabet)]. *)
Theorem fpe_conversions_fail_iff (alphabet : list Z) :
  zlength alphabet < 2 ^ 31 ->
  (forall str,
      fpe_str_to_array alphabet str = Err <->
      Exists (fun c => c <> 0 /\ ~ In c alphabet) str) /\
  (forall arr,
      fpe_array_to_str alphabet arr = Err <->
      Exists (fun d => zlength alphabet <= d) arr).
Proof.
  intros Hlen. split; [intros str; apply str_to_array_err_iff, Hlen|].
  induction arr as [|a rest IH]; cbn [fpe_array_to_str].
  - split; [discriminate | intros H; inversion H].
  - destruct (Z.geb_spec a (zlength alphabet)) as [Hge|Hlt].
    + split; [intros _; apply Exists_cons_hd; lia | reflexivity].
    + split.
      * intros H. apply Exists_cons_tl, IH.
        destruct (fpe_array_to_str alphabet rest);
          [discriminate | reflexivity | discriminate].
      * intros H. inversion H as [? ? Hn|? ? Hr]; subst; [lia|].
        apply IH in Hr. rewrite Hr. reflexivity.
Qed.

Lemma fpe_conversions_fail_iff_witness :
  fpe_str_to_array [97; 98; 99] [97; 120] = Err /\
  fpe_array_to_str [97; 98; 99] [0; 3] = Err.
Proof.
  destruct (fpe_conversions_fail_iff [97; 98; 99]) as [Hs Ha];
    [vm_compute; reflexivity|].
  split.
  - apply Hs. right; left. split; [discriminate|].
    cbn; intuition discriminate.
  - apply Ha. right; left. vm_compute; discriminate.
Defined.

(** ** Hexadecimal text (utils.c) *)

Lemma hex_char_to_int_range (c : Z) :
  hex_char_to_int c = -1 \/ 0 <= hex_char_to_int c < 16.
Proof.
  unfold hex_char_to_int.
  destruct (Z.geb_spec c 48), (Z.leb_spec c 57); cbn [andb]; try (right; lia);
    destruct (Z.geb_spec c 97), (Z.leb_spec c 102); cbn [andb]; try (right; lia);
    destruct (Z.geb_spec c 65), (Z.leb_spec c 70); cbn [andb]; try (right; lia);
    left; reflexivity.
Qed.

Lemma u8_range (x : Z) : is_byte (u8 x).
Proof. unfold is_byte, u8. apply Z.mod_pos_bound; lia. Qed.

(** Each byte is written as two chars that are read back as that byte. *)
Lemma hex_byte_roundtrip (b : Z) :
  is_byte b ->
  let h := nth (Z.to_nat (Z.land (Z.shiftr b 4) 0xF)) hex_chars 0 in
  let l := nth (Z.to_nat (Z.land b 0xF)) hex_chars 0 in
  0 <= hex_char_to_int h /\ 0 <= hex_char_to_int l /\
  u8 (Z.lor (Z.shiftl (hex_char_to_int h) 4) (hex_char_to_int l)) = b.
Proof.
  intros Hb.
  assert (Hall : forallb
            (fun b =>
               let h := nth (Z.to_nat (Z.land (Z.shiftr b 4) 0xF)) hex_chars 0 in
               let l := nth (Z.to_nat (Z.land b 0xF)) hex_chars 0 in
               (0 <=? hex_char_to_int h) && (0 <=? hex_char_to_int l) &&
               (u8 (Z.lor (Z.shiftl (hex_char_to_int h) 4) (hex_char_to_int l)) =? b))
            (map Z.of_nat (seq 0 256)) = true) by (vm_compute; reflexivity).
  rewrite forallb_forall in Hall.
  assert (Hin : In b (map Z.of_nat (seq 0 256))).
  { unfold is_byte in Hb. apply in_map_iff. exists (Z.to_nat b).
    split; [lia | apply in_seq; lia]. }
  specialize (Hall b Hin). cbv zeta in *.
  apply andb_prop in Hall as [Hall H3]. apply andb_prop in Hall as [H1 H2].
  apply Z.leb_le in H1, H2. apply Z.eqb_eq in H3. auto.
Qed.

Lemma hex_pairs_bytes_to_hex (bytes : list Z) :
  Forall is_byte bytes -> hex_pairs (fpe_bytes_to_hex bytes) = (true, bytes).
Proof.
  induction 1 as [|b rest Hb Hrest IH]; [reflexivity|].
  unfold fpe_bytes_to_hex in *. cbn [flat_map app hex_pairs].
  destruct (hex_byte_roundtrip b Hb) as (H1 & H2 & H3). cbv zeta in H1, H2, H3.
  destruct (Z.ltb_spec (hex_char_to_int
              (nth (Z.to_nat (Z.land (Z.shiftr b 4) 15)) hex_chars 0)) 0); [lia|].
  destruct (Z.ltb_spec (hex_char_to_int
              (nth (Z.to_nat (Z.land b 15)) hex_chars 0)) 0); [lia|].
  cbn [orb]. rewrite IH, H3. reflexivity.
Qed.

Lemma zlength_bytes_to_hex (bytes : list Z) :
  zlength (fpe_bytes_to_hex bytes) = 2 * zlength bytes.
Proof.
  induction bytes as [|b rest IH]; [reflexivity|].
  unfold fpe_bytes_to_hex in *. cbn [flat_map app].
  rewrite !zlength_cons, IH. lia.
Qed.

(** X8: the text [fpe_bytes_to_hex] writes for a byte string is read
    back by [fpe_hex_to_bytes] as the same bytes, and the call returns
    their number, whenever the buffer has room for them. *)
Theorem hex_roundtrip (bytes : list Z) (max_bytes : Z) :
  Forall is_byte bytes -> zlength bytes <= max_bytes -> zlength bytes < 2 ^ 31 ->
  fpe_hex_to_bytes (fpe_bytes_to_hex bytes) max_bytes = (zlength bytes, bytes).
Proof.
  intros Hb Hmax Hlen. pose proof (zlength_nonneg bytes).
  unfold fpe_hex_to_bytes. rewrite zlength_bytes_to_hex.
  replace (2 * zlength bytes) with (zlength bytes * 2) by lia.
  rewrite Z.mod_mul, Z.div_mul by lia. cbn [Z.eqb negb].
  destruct (Z.gtb_spec (zlength bytes) max_bytes); [lia|].
  rewrite hex_pairs_bytes_to_hex by exact Hb.
  rewrite s32_small by lia. reflexivity.
Qed.

Lemma hex_roundtrip_witness :
  fpe_hex_to_bytes (fpe_bytes_to_hex [0; 171; 255]) 4 = (zlength [0; 171; 255], [0; 171; 255]).
Proof.
  apply (hex_roundtrip [0; 171; 255] 4).
  - repeat constructor; unfold is_byte; lia.
  - vm_compute; discriminate.
  - vm_compute; reflexivity.
Defined.

Lemma hex_pairs_spec (n : nat) :
  forall hex, length hex = (2 * n)%nat ->
    (fst (hex_pairs hex) = false <-> Exists (fun c => hex_char_to_int c = -1) hex) /\
    (length (snd (hex_pairs hex)) <= n)%nat /\
    (fst (hex_pairs hex) = true -> length (snd (hex_pairs hex)) = n) /\
    Forall is_byte (snd (hex_pairs hex)).
Proof.
  induction n as [|n IH]; intros hex Hlen.
  - destruct hex; [|discriminate]. cbn.
    split; [split; [discriminate | intros H; inversion H]|].
    split; [lia|]. split; [reflexivity | constructor].
  - destruct hex as [|h [|l rest]]; try (cbn in Hlen; lia).
    cbn [length] in Hlen. assert (Hrest : length rest = (2 * n)%nat) by lia.
    destruct (IH rest Hrest) as (Hbad & Hle & Hok & Hbytes).
    cbn [hex_pairs].
    destruct (hex_char_to_int_range h) as [Hh|Hh], (hex_char_to_int_range l) as [Hl|Hl].
    1-3: (destruct (Z.ltb_spec (hex_char_to_int h) 0),
                   (Z.ltb_spec (hex_char_to_int l) 0); try lia; cbn [orb fst snd length];
          split; [split; [intros _|reflexivity]|];
          [first [apply Exists_cons_hd; assumption
                 | apply Exists_cons_tl, Exists_cons_hd; assumption]
          | split; [lia|]; split; [discriminate | constructor]]).
    destruct (Z.ltb_spec (hex_char_to_int h) 0), (Z.ltb_spec (hex_char_to_int l) 0);
      try lia. cbn [orb].
    destruct (hex_pairs rest) as [ok bytes]; cbn [fst snd length] in *.
    split; [|split; [lia|]; split; [intros E; rewrite Hok by exact E; reflexivity|]].
    + rewrite Hbad. split; [intros E; do 2 apply Exists_cons_tl; exact E|].
      intros E. inversion E as [? ? E1|? ? E1]; subst; [lia|].
      inversion E1 as [? ? E2|? ? E2]; subst; [lia | exact E2].
    + constructor; [apply u8_range | exact Hbytes].
Qed.

(** X9: [fpe_hex_to_bytes] returns [-1] exactly when the text has an
    odd number of chars, or more pairs than [max_bytes], or a char that is
    no hexadecimal digit; otherwise it returns the number of pairs and has
    written that many bytes.  In either case it writes at most
    [max_bytes] bytes. *)
Theorem fpe_hex_to_bytes_spec (hex : list Z) (max_bytes : Z) :
  0 <= max_bytes -> zlength hex / 2 < 2 ^ 31 ->
  let r := fpe_hex_to_bytes hex max_bytes in
  (fst r = -1 <->
   zlength hex mod 2 <> 0 \/ max_bytes < zlength hex / 2 \/
   Exists (fun c => hex_char_to_int c = -1) hex) /\
  (fst r <> -1 -> fst r = zlength hex / 2 /\ zlength (snd r) = zlength hex / 2) /\
  zlength (snd r) <= max_bytes /\ Forall is_byte (snd r).
Proof.
  intros Hmax Hlen. cbv zeta. unfold fpe_hex_to_bytes.
  pose proof (zlength_nonneg hex) as Hnn.
  pose proof (Z.div_mod (zlength hex) 2 ltac:(lia)) as Hdm.
  pose proof (Z.mod_pos_bound (zlength hex) 2 ltac:(lia)) as Hmb.
  destruct (Z.eqb_spec (zlength hex mod 2) 0) as [Heven|Hodd]; cbn [negb].
  2: { cbn [fst snd]. split; [split; [intros _; left; exact Hodd | reflexivity]|].
       split; [intros H; exfalso; apply H; reflexivity|].
       split; [unfold zlength; cbn; lia | constructor]. }
  destruct (Z.gtb_spec (zlength hex / 2) max_bytes) as [Hbig|Hfit].
  { cbn [fst snd]. split; [split; [intros _; right; left; lia | reflexivity]|].
    split; [intros H; exfalso; apply H; reflexivity|].
    split; [unfold zlength; cbn; lia | constructor]. }
  assert (Hl : length hex = (2 * Z.to_nat (zlength hex / 2))%nat)
    by (unfold zlength in *; lia).
  destruct (hex_pairs_spec _ hex Hl) as (Hbad & Hle & Hok & Hbytes).
  destruct (hex_pairs hex) as [ok bytes]; cbn [fst snd] in *.
  destruct ok; cbn [fst snd].
  - rewrite s32_small by lia.
    split; [split; [lia|]|].
    + intros [H|[H|H]]; [lia | lia |]. apply Hbad in H; discriminate.
    + split; [intros _; split; [reflexivity|]; specialize (Hok eq_refl);
                unfold zlength in *; lia|].
      split; [unfold zlength in *; lia | exact Hbytes].
  - split; [split; [intros _; right; right; apply Hbad; reflexivity | reflexivity]|].
    split; [intros H; exfalso; apply H; reflexivity|].
    split; [unfold zlength in *; lia | exact Hbytes].
Qed.

Lemma fpe_hex_to_bytes_spec_witness :
  zlength (snd (fpe_hex_to_bytes [65; 98; 48; 120] 2)) <= 2 /\
  Forall is_byte (snd (fpe_hex_to_bytes [65; 98; 48; 120] 2)).
Proof.
  destruct (fpe_hex_to_bytes_spec [65; 98; 48; 120] 2) as (_ & _ & H);
    [lia | vm_compute; reflexivity | exact H].
Defined.

(** ** Reversal in place (utils.c) and of the key (fpe.c) *)

Ltac list_len := repeat (first [rewrite length_app | progress cbn [length]]); lia.

Ltac list_eq := repeat (first [rewrite <- app_assoc | progress cbn [app]]); reflexivity.

Lemma upd_middle (A : list Z) (x v : Z) (t : list Z) :
  upd (length A) v (A ++ x :: t) = A ++ v :: t.
Proof. induction A as [|a A IH]; cbn [length app upd]; [reflexivity | rewrite IH; reflexivity]. Qed.

(** [n] swaps from offset [|A|] reverse the middle part [M] of
    [A ++ M ++ B ++ rest], where [|B| = |A|] and [n = |M| / 2]. *)
Lemma reverse_loop_spec (n : nat) :
  forall (A M B rest : list Z),
    length B = length A ->
    (length M = 2 * n \/ length M = 2 * n + 1)%nat ->
    reverse_loop n (length A) (length A + length M + length B) (A ++ M ++ B ++ rest)
    = A ++ rev M ++ B ++ rest.
Proof.
  induction n as [|n IH]; intros A M B rest HB HM; cbn [reverse_loop].
  - destruct M as [|x [|y M]]; cbn [length] in HM; try lia; reflexivity.
  - destruct M as [|x M1]; [cbn [length] in HM; lia|].
    destruct (exists_last (l := M1)) as (M' & y & ->);
      [intros ->; cbn [length] in HM; lia|].
    cbn [length] in HM. rewrite length_app in HM. cbn [length] in HM.
    replace (length A + length (x :: M' ++ [y]) + length B - length A - 1)%nat
      with (length (A ++ x :: M'))
      by list_len.
    assert (E1 : A ++ (x :: M' ++ [y]) ++ B ++ rest = A ++ x :: (M' ++ y :: B ++ rest)).
    { list_eq. }
    assert (E2 : A ++ (x :: M' ++ [y]) ++ B ++ rest = (A ++ x :: M') ++ y :: (B ++ rest)).
    { list_eq. }
    rewrite E1 at 1. rewrite nth_middle.
    rewrite E2 at 1. rewrite nth_middle.
    rewrite E1, upd_middle.
    replace (A ++ y :: M' ++ y :: B ++ rest) with ((A ++ y :: M') ++ y :: (B ++ rest))
      by list_eq.
    replace (length (A ++ x :: M')) with (length (A ++ y :: M'))
      by list_len.
    rewrite upd_middle.
    replace ((A ++ y :: M') ++ x :: B ++ rest) with ((A ++ [y]) ++ M' ++ (x :: B) ++ rest)
      by list_eq.
    replace (S (length A)) with (length (A ++ [y])) by list_len.
    replace (length A + length (x :: M' ++ [y]) + length B)%nat
      with (length (A ++ [y]) + length M' + length (x :: B))%nat
      by list_len.
    rewrite IH by list_len.
    cbn [rev]. rewrite rev_app_distr. cbn [rev]. list_eq.
Qed.

Lemma fpe_reverse_bytes_rev (bytes : list Z) (len : Z) :
  0 <= len <= zlength bytes ->
  fpe_reverse_bytes bytes len = rev (take len bytes) ++ drop len bytes.
Proof.
  intros Hl. unfold fpe_reverse_bytes.
  pose proof (reverse_loop_spec (Z.to_nat (Z.shiftr len 1)) [] (take len bytes) []
                                (drop len bytes) eq_refl) as H.
  cbn [length app Nat.add] in H. rewrite Nat.add_0_r in H.
  assert (Hl' : length (take len bytes) = Z.to_nat len).
  { pose proof (zlength_take len bytes Hl). unfold zlength in *; lia. }
  rewrite Hl', take_drop in H. apply H.
  rewrite Z.shiftr_div_pow2 by lia. change (2 ^ 1) with 2.
  pose proof (Z.div_mod len 2 ltac:(lia)). pose proof (Z.mod_pos_bound len 2 ltac:(lia)).
  lia.
Qed.

(** X10: [fpe_reverse_bytes] reverses the first [len] bytes of the buffer
    and leaves the others; applied twice it gives the buffer back. *)
Theorem fpe_reverse_bytes_spec (bytes : list Z) (len : Z) :
  0 <= len <= zlength bytes ->
  fpe_reverse_bytes bytes len = rev (take len bytes) ++ drop len bytes /\
  zlength (fpe_reverse_bytes bytes len) = zlength bytes /\
  fpe_reverse_bytes (fpe_reverse_bytes bytes len) len = bytes.
Proof.
  intros Hlen.
  assert (Hl1 : zlength (rev (take len bytes)) = len)
    by (rewrite zlength_rev; apply zlength_take, Hlen).
  assert (Hl2 : zlength (rev (take len bytes) ++ drop len bytes) = zlength bytes)
    by (rewrite zlength_app, Hl1, zlength_drop; lia).
  rewrite (fpe_reverse_bytes_rev bytes len Hlen).
  split; [reflexivity|]. split; [exact Hl2|].
  rewrite fpe_reverse_bytes_rev by lia.
  rewrite take_app_exact, drop_app_exact by exact Hl1.
  rewrite rev_involutive. apply take_drop.
Qed.

Lemma fpe_reverse_bytes_spec_witness :
  fpe_reverse_bytes [1; 2; 3; 4; 5; 6] 5 = rev (take 5 [1; 2; 3; 4; 5; 6]) ++ drop 5 [1; 2; 3; 4; 5; 6] /\
  zlength (fpe_reverse_bytes [1; 2; 3; 4; 5; 6] 5) = zlength [1; 2; 3; 4; 5; 6] /\
  fpe_reverse_bytes (fpe_reverse_bytes [1; 2; 3; 4; 5; 6] 5) 5 = [1; 2; 3; 4; 5; 6].
Proof.
  apply (fpe_reverse_bytes_spec [1; 2; 3; 4; 5; 6] 5).
  vm_compute; split; discriminate.
Defined.

Lemma map_nth_rev (key : list Z) :
  map (fun i => nth (length key - 1 - i) key 0) (seq 0 (length key)) = rev key.
Proof.
  induction key as [|a key IH] using rev_ind; [reflexivity|].
  rewrite length_app; cbn [length]. rewrite Nat.add_1_r. cbn [seq map].
  rewrite rev_app_distr. cbn [rev app].
  replace (S (length key) - 1 - 0)%nat with (length key) by lia.
  rewrite nth_middle. f_equal.
  rewrite <- seq_shift, map_map. rewrite <- IH.
  apply map_ext_in. intros i Hi. apply in_seq in Hi.
  replace (S (length key) - 1 - S i)%nat with (length key - 1 - i)%nat by lia.
  apply app_nth1. lia.
Qed.

Lemma fpe_reverse_key_rev (key reversed : list Z) (len : Z) :
  0 <= len <= zlength key ->
  fpe_reverse_key key reversed len = rev (take len key) ++ drop len reversed.
Proof.
  intros Hlen. unfold fpe_reverse_key. f_equal.
  assert (Hl : length (take len key) = Z.to_nat len).
  { pose proof (zlength_take len key Hlen). unfold zlength in *; lia. }
  rewrite <- (map_nth_rev (take len key)), Hl.
  apply map_ext_in. intros i Hi. apply in_seq in Hi.
  rewrite <- (take_drop len key) at 1. apply app_nth1. lia.
Qed.

(** ** More on the context *)

Section InitMore.
Context {PF : Platform}.

Lemma key_bits_check (algo bits : Z) :
  (if algo =? FPE_ALGO_AES
   then (bits =? 128) || (bits =? 192) || (bits =? 256)
   else if algo =? FPE_ALGO_SM4 then bits =? 128 else false) = true
  <-> key_bits_ok algo bits.
Proof.
  unfold key_bits_ok, FPE_ALGO_AES, FPE_ALGO_SM4.
  destruct (Z.eqb_spec algo 0) as [->|Ha].
  - destruct (Z.eqb_spec bits 128), (Z.eqb_spec bits 192), (Z.eqb_spec bits 256);
      cbn [orb]; split; intros H; try reflexivity; try discriminate; try lia.
  - destruct (Z.eqb_spec algo 1) as [->|Hs].
    + destruct (Z.eqb_spec bits 128); split; intros H; try reflexivity;
        try discriminate; try lia.
    + split; [discriminate | lia].
Qed.

(** X11: [FPE_CTX_init] returns [-1] and leaves the context as it was
    when the radix is not in [2, 65536], when the algorithm is neither AES
    nor SM4, or when the key size is not one of the algorithm's. *)
Theorem FPE_CTX_init_rejects (ctx : FPE_CTX) (mode algo : Z) (key : list Z)
        (bits radix : Z) :
  radix < 2 \/ 65536 < radix \/ ~ key_bits_ok algo bits ->
  FPE_CTX_init ctx mode algo key bits radix = (-1, ctx).
Proof.
  intros H. unfold FPE_CTX_init, fpe_validate_radix.
  destruct (Z.ltb_spec radix 2); [reflexivity|].
  destruct (Z.gtb_spec radix 65536); [reflexivity|]. cbn [orb Z.eqb negb].
  destruct H as [H|[H|H]]; [lia | lia |].
  destruct (if algo =? FPE_ALGO_AES
            then (bits =? 128) || (bits =? 192) || (bits =? 256)
            else if algo =? FPE_ALGO_SM4 then bits =? 128 else false) eqn:E;
    [|reflexivity].
  exfalso; apply H, key_bits_check, E.
Qed.

(** X12: a successful [FPE_CTX_init] has keyed the cipher the key size
    selects: with the key as given for FF1, and with the key reversed
    byte by byte for FF3 and FF3-1, whose reversed key is also stored in
    [params]. *)
Theorem FPE_CTX_init_keys_cipher (ctx ctx' : FPE_CTX) (mode algo : Z) (key : list Z)
        (bits radix : Z) :
  bits / 8 <= zlength key ->
  FPE_CTX_init ctx mode algo key bits radix = (0, ctx') ->
  (mode = FPE_MODE_FF1 ->
   exists cipher,
     select_cipher algo bits = Some cipher /\
     ctx_cipher_ctx ctx' = Some (evp_keyed cipher (take (bits / 8) key))) /\
  (mode = FPE_MODE_FF3 \/ mode = FPE_MODE_FF3_1 ->
   exists cipher,
     select_cipher algo bits = Some cipher /\
     ctx_cipher_ctx ctx' = Some (evp_keyed cipher (rev (take (bits / 8) key))) /\
     take (bits / 8) (reversed_key (ctx_params ctx')) = rev (take (bits / 8) key)).
Proof.
  intros Hkey H. unfold FPE_CTX_init, fpe_validate_radix in H.
  destruct ((radix <? 2) || (radix >? 65536)); [discriminate|].
  cbn [Z.eqb negb] in H.
  destruct (if algo =? FPE_ALGO_AES
            then (bits =? 128) || (bits =? 192) || (bits =? 256)
            else if algo =? FPE_ALGO_SM4 then bits =? 128 else false) eqn:E;
    [|discriminate].
  cbn [negb] in H. apply key_bits_check in E.
  assert (Hkl : 0 <= bits / 8)
    by (destruct E as [[_ [->|[->| ->]]]|[_ ->]]; vm_compute; discriminate).
  assert (Hrk : take (bits / 8) (fpe_reverse_key key (zeros 32) (bits / 8))
                = rev (take (bits / 8) key)).
  { rewrite fpe_reverse_key_rev by lia. apply take_app_exact.
    rewrite zlength_rev. apply zlength_take; lia. }
  split.
  - intros ->. cbn [FPE_MODE_FF1 Z.eqb] in H.
    destruct (select_cipher algo bits) as [cipher|]; [|discriminate].
    destruct (EVP_EncryptInit_ex cipher (take (bits / 8) key)); [|discriminate].
    cbn [negb] in H. injection H as <-. exists cipher. split; reflexivity.
  - intros Hm.
    assert (Hm1 : (mode =? FPE_MODE_FF1) = false)
      by (destruct Hm as [-> | ->]; reflexivity).
    assert (Hm3 : (mode =? FPE_MODE_FF3) || (mode =? FPE_MODE_FF3_1) = true)
      by (destruct Hm as [-> | ->]; reflexivity).
    rewrite Hm1, Hm3, Hrk in H.
    destruct (select_cipher algo bits) as [cipher|]; [|discriminate].
    destruct (EVP_EncryptInit_ex cipher (rev (take (bits / 8) key))); [|discriminate].
    cbn [negb] in H. injection H as <-. exists cipher.
    split; [reflexivity|]. split; [reflexivity|].
    cbn [set_params set_cipher_ctx ctx_params reversed_key]. unfold memcpy.
    rewrite Hrk. apply take_app_exact.
    rewrite zlength_rev. apply zlength_take; lia.
Qed.

(** X13: in a build without SM4 ([HAVE_OPENSSL_SM4] not defined),
    [FPE_CTX_init] with [FPE_ALGO_SM4] and a 128-bit key returns [-1] in
    the three modes; by then it has copied the key into the context and
    attached an unkeyed cipher context. *)
Theorem FPE_CTX_init_without_sm4 (ctx : FPE_CTX) (mode : Z) (key : list Z) (radix : Z) :
  HAVE_OPENSSL_SM4 = false ->
  mode = FPE_MODE_FF1 \/ mode = FPE_MODE_FF3 \/ mode = FPE_MODE_FF3_1 ->
  2 <= radix <= 65536 ->
  let r := FPE_CTX_init ctx mode FPE_ALGO_SM4 key 128 radix in
  fst r = -1 /\
  ctx_key (snd r) = take 16 key ++ drop 16 (ctx_key ctx) /\
  ctx_cipher_ctx (snd r) = Some evp_fresh.
Proof.
  intros Hsm4 Hmode Hr. cbv zeta. unfold FPE_CTX_init, fpe_validate_radix.
  destruct (Z.ltb_spec radix 2); [lia|]. destruct (Z.gtb_spec radix 65536); [lia|].
  cbn [orb Z.eqb negb FPE_ALGO_SM4 FPE_ALGO_AES].
  unfold select_cipher. rewrite Hsm4. cbn [FPE_ALGO_SM4 FPE_ALGO_AES Z.eqb andb].
  destruct Hmode as [->|[->| ->]]; cbn; repeat split.
Qed.

End InitMore.

Lemma FPE_CTX_init_rejects_witness :
  FPE_CTX_init FPE_CTX_new FPE_MODE_FF1 FPE_ALGO_AES sample_key16 128 1 = (-1, FPE_CTX_new).
Proof.
  apply (FPE_CTX_init_rejects FPE_CTX_new FPE_MODE_FF1 FPE_ALGO_AES sample_key16 128 1).
  left; lia.
Defined.

Lemma FPE_CTX_init_keys_cipher_witness :
  exists cipher,
    select_cipher FPE_ALGO_AES 128 = Some cipher /\
    ctx_cipher_ctx (sample_ctx FPE_MODE_FF3 10)
    = Some (evp_keyed cipher (rev (take (128 / 8) sample_key16))) /\
    take (128 / 8) (reversed_key (ctx_params (sample_ctx FPE_MODE_FF3 10)))
    = rev (take (128 / 8) sample_key16).
Proof.
  apply (FPE_CTX_init_keys_cipher FPE_CTX_new (sample_ctx FPE_MODE_FF3 10)
           FPE_MODE_FF3 FPE_ALGO_AES sample_key16 128 10).
  - vm_compute; discriminate.
  - reflexivity.
  - left; reflexivity.
Defined.

Lemma FPE_CTX_init_without_sm4_witness :
  fst (FPE_CTX_init FPE_CTX_new FPE_MODE_FF3_1 FPE_ALGO_SM4 sample_key16 128 10) = -1 /\
  ctx_key (snd (FPE_CTX_init FPE_CTX_new FPE_MODE_FF3_1 FPE_ALGO_SM4 sample_key16 128 10))
  = take 16 sample_key16 ++ drop 16 (ctx_key FPE_CTX_new) /\
  ctx_cipher_ctx (snd (FPE_CTX_init FPE_CTX_new FPE_MODE_FF3_1 FPE_ALGO_SM4 sample_key16 128 10))
  = Some evp_fresh.
Proof.
  apply (FPE_CTX_init_without_sm4 FPE_CTX_new FPE_MODE_FF3_1 sample_key16 10).
  - reflexivity.
  - right; right; reflexivity.
  - lia.
Defined.

(** ** What the engines refuse, and what they never do *)

Lemma for_down_first {St : Type} (body : Z -> St -> outcome St) (n : nat) (s s' : St) :
  for_down (S n) body s = Ok s' -> exists s1, body (Z.of_nat n) s = Ok s1.
Proof.
  cbn [for_down]. intros H. apply bind_ok in H as (s1 & H1 & _). eauto.
Qed.

Lemma for_up_no_overflow {St : Type} (body : Z -> St -> outcome St) :
  (forall i s, body i s <> Overflow) ->
  forall n i s, for_up n i body s <> Overflow.
Proof.
  intros Hb; induction n as [|n IH]; intros i s; cbn [for_up]; [discriminate|].
  specialize (Hb i s). destruct (body i s); cbn [bind];
    [apply IH | discriminate | contradiction].
Qed.

Lemma for_down_no_overflow {St : Type} (body : Z -> St -> outcome St) :
  (forall i s, body i s <> Overflow) ->
  forall n s, for_down n body s <> Overflow.
Proof.
  intros Hb; induction n as [|n IH]; intros s; cbn [for_down]; [discriminate|].
  specialize (Hb (Z.of_nat n) s). destruct (body (Z.of_nat n) s); cbn [bind];
    [apply IH | discriminate | contradiction].
Qed.

Section Refusals.
Context {PF : Platform}.

(** X14: an input of fewer than 2 or more than 256 digits is refused
    with [-1] by [FPE_encrypt] and [FPE_decrypt], in every mode and
    whatever the context and the tweak are. *)
Theorem FPE_length_bounds (ctx : FPE_CTX) (in_ tweak : list Z) :
  zlength in_ < 2 \/ 256 < zlength in_ ->
  FPE_encrypt ctx in_ tweak = Err /\ FPE_decrypt ctx in_ tweak = Err.
Proof.
  intros Hlen.
  assert (E : (zlength in_ <? 2) || (zlength in_ >? 256) = true).
  { destruct (Z.ltb_spec (zlength in_) 2), (Z.gtb_spec (zlength in_) 256);
      cbn [orb]; try reflexivity; lia. }
  assert (E1 : ff1_encrypt ctx in_ tweak = Err).
  { unfold ff1_encrypt.
    destruct (Z.ltb_spec (zlength in_) 2) as [Hs|Hs]; cbn [orb]; [reflexivity|].
    destruct (zlength in_ >? 0xFFFFFFFF); [reflexivity|].
    destruct (Z.gtb_spec (zlength in_) 256); [reflexivity | lia]. }
  assert (D1 : ff1_decrypt ctx in_ tweak = Err).
  { unfold ff1_decrypt.
    destruct (Z.ltb_spec (zlength in_) 2) as [Hs|Hs]; [reflexivity|].
    destruct (Z.gtb_spec (zlength in_) 256); [reflexivity | lia]. }
  unfold FPE_encrypt, FPE_decrypt, ff3_encrypt, ff3_decrypt, ff3_1_encrypt, ff3_1_decrypt.
  rewrite E, E1, D1.
  destruct (negb (fpe_validate_tweak (ctx_mode ctx) (zlength tweak) =? 0));
    [split; reflexivity|].
  destruct (ctx_mode ctx =? FPE_MODE_FF1); [split; reflexivity|].
  destruct (ctx_mode ctx =? FPE_MODE_FF3); [split; reflexivity|].
  destruct (ctx_mode ctx =? FPE_MODE_FF3_1); split; reflexivity.
Qed.

(** The context holds no keyed cipher: [cipher_ctx] is [NULL], or
    [EVP_EncryptInit_ex] has not succeeded on it. *)
Lemma encrypt_block_unkeyed (c : EVP_CIPHER_CTX) (blk : list Z) :
  (forall cipher k, c <> evp_keyed cipher k) -> encrypt_block c blk = Err.
Proof.
  intros H. destruct c as [|cipher k]; [reflexivity|]. exfalso; exact (H cipher k eq_refl).
Qed.

Lemma ff1_round_y_unkeyed ctx P tweak tweak_len radix b d i m other_len pB y :
  (forall cipher k, ctx_cipher_ctx ctx <> Some (evp_keyed cipher k)) ->
  ff1_round_y ctx P tweak tweak_len radix b d i m other_len pB <> Ok y.
Proof.
  intros Hk H. unfold ff1_round_y in H.
  do 5 (apply bind_ok in H as (? & _ & H)).
  apply bind_ok in H as (S & HS & _).
  unfold ff1_prf in HS.
  destruct (ctx_cipher_ctx ctx) as [c|]; [|discriminate].
  cbn [Z.eqb negb] in HS.
  rewrite encrypt_block_unkeyed in HS; [discriminate|].
  intros cipher k ->. exact (Hk cipher k eq_refl).
Qed.

Lemma ff3_round_unkeyed ctx T round B B_len radix W_len W :
  (forall cipher k, ctx_cipher_ctx ctx <> Some (evp_keyed cipher k)) ->
  ff3_round_encrypt ctx T round B B_len radix W_len <> Ok W /\
  ff3_1_round_encrypt ctx T round B B_len radix W_len <> Ok W.
Proof.
  intros Hk. unfold ff3_round_encrypt, ff3_1_round_encrypt.
  destruct (ctx_cipher_ctx ctx) as [c|]; [|split; discriminate].
  rewrite !encrypt_block_unkeyed by (intros cipher k ->; exact (Hk cipher k eq_refl)).
  split; discriminate.
Qed.

Lemma ff3_rounds_unkeyed F ctx Tl Tr radix u v len i st st' :
  (forall T round B B_len W, F ctx T round B B_len radix 16 <> Ok W) ->
  ff3_encrypt_round F ctx Tl Tr radix u v len i st <> Ok st' /\
  ff3_decrypt_round F ctx Tl Tr radix u v len i st <> Ok st'.
Proof.
  intros HF. destruct st as [pA pB]. unfold ff3_encrypt_round, ff3_decrypt_round.
  split; intros H; apply bind_ok in H as (W & HW & _); exact (HF _ _ _ _ _ HW).
Qed.

(** X15: a context without a keyed cipher (never initialised, or left by
    a failed [FPE_CTX_init]) yields no output: neither [FPE_encrypt] nor
    [FPE_decrypt] returns 0 on it. *)
Theorem FPE_needs_key (ctx : FPE_CTX) (in_ tweak : list Z) :
  (forall cipher k, ctx_cipher_ctx ctx <> Some (evp_keyed cipher k)) ->
  (forall out, FPE_encrypt ctx in_ tweak <> Ok out) /\
  (forall out, FPE_decrypt ctx in_ tweak <> Ok out).
Proof.
  intros Hk.
  assert (H3 : forall Tl Tr radix u v len i st st',
             ff3_encrypt_round ff3_round_encrypt ctx Tl Tr radix u v len i st <> Ok st' /\
             ff3_decrypt_round ff3_round_encrypt ctx Tl Tr radix u v len i st <> Ok st').
  { intros. apply ff3_rounds_unkeyed. intros. apply ff3_round_unkeyed, Hk. }
  assert (H31 : forall Tl Tr radix u v len i st st',
             ff3_encrypt_round ff3_1_round_encrypt ctx Tl Tr radix u v len i st <> Ok st' /\
             ff3_decrypt_round ff3_1_round_encrypt ctx Tl Tr radix u v len i st <> Ok st').
  { intros. apply ff3_rounds_unkeyed. intros. apply ff3_round_unkeyed, Hk. }
  split; intros out H; [unfold FPE_encrypt in H | unfold FPE_decrypt in H];
    (destruct (negb (fpe_validate_tweak (ctx_mode ctx) (zlength tweak) =? 0));
     [discriminate|]);
    (destruct (ctx_mode ctx =? FPE_MODE_FF1);
     [|destruct (ctx_mode ctx =? FPE_MODE_FF3);
       [|destruct (ctx_mode ctx =? FPE_MODE_FF3_1); [|discriminate]]]).
  - unfold ff1_encrypt in H.
    destruct ((zlength in_ <? 2) || (zlength in_ >? 0xFFFFFFFF)); [discriminate|].
    destruct (zlength in_ >? 256); [discriminate|].
    apply bind_ok in H as (st & H & _).
    apply for_up_first in H as ([pA pB] & H).
    unfold ff1_encrypt_round in H. apply bind_ok in H as (y & H & _).
    exact (ff1_round_y_unkeyed _ _ _ _ _ _ _ _ _ _ _ _ Hk H).
  - unfold ff3_encrypt in H.
    destruct ((zlength in_ <? 2) || (zlength in_ >? 256)); [discriminate|].
    destruct (negb (zlength tweak =? 8) && negb (zlength tweak =? 7)
              && negb (zlength tweak =? 0)); [discriminate|].
    destruct (ff3_tweak_halves tweak (zlength tweak)) as [Tl Tr].
    apply bind_ok in H as (st & H & _).
    apply for_up_first in H as (st1 & H). exact (proj1 (H3 _ _ _ _ _ _ _ _ _) H).
  - unfold ff3_1_encrypt in H.
    destruct ((zlength in_ <? 2) || (zlength in_ >? 256)); [discriminate|].
    destruct (negb (zlength tweak =? 7) && negb (zlength tweak =? 8)
              && negb (zlength tweak =? 0)); [discriminate|].
    destruct (ff3_1_tweak_halves tweak (zlength tweak)) as [Tl Tr].
    apply bind_ok in H as (st & H & _).
    apply for_up_first in H as (st1 & H). exact (proj1 (H31 _ _ _ _ _ _ _ _ _) H).
  - unfold ff1_decrypt in H.
    destruct (zlength in_ <? 2); [discriminate|].
    destruct (zlength in_ >? 256); [discriminate|].
    apply bind_ok in H as (st & H & _).
    apply for_down_first in H as ([pA pB] & H).
    unfold ff1_decrypt_round in H. apply bind_ok in H as (y & H & _).
    exact (ff1_round_y_unkeyed _ _ _ _ _ _ _ _ _ _ _ _ Hk H).
  - unfold ff3_decrypt in H.
    destruct ((zlength in_ <? 2) || (zlength in_ >? 256)); [discriminate|].
    destruct (negb (zlength tweak =? 8) && negb (zlength tweak =? 7)
              && negb (zlength tweak =? 0)); [discriminate|].
    destruct (ff3_tweak_halves tweak (zlength tweak)) as [Tl Tr].
    apply bind_ok in H as (st & H & _).
    apply for_down_first in H as (st1 & H). exact (proj2 (H3 _ _ _ _ _ _ _ _ _) H).
  - unfold ff3_1_decrypt in H.
    destruct ((zlength in_ <? 2) || (zlength in_ >? 256)); [discriminate|].
    destruct (negb (zlength tweak =? 7) && negb (zlength tweak =? 8)
              && negb (zlength tweak =? 0)); [discriminate|].
    destruct (ff3_1_tweak_halves tweak (zlength tweak)) as [Tl Tr].
    apply bind_ok in H as (st & H & _).
    apply for_down_first in H as (st1 & H). exact (proj2 (H31 _ _ _ _ _ _ _ _ _) H).
Qed.

(** The rounds of the FF3 family stay inside their buffers. *)
Lemma ff3_rounds_no_overflow F ctx Tl Tr radix u v len i st :
  (forall T round B B_len, F ctx T round B B_len radix 16 <> Overflow) ->
  u <= 256 -> v <= 256 ->
  ff3_encrypt_round F ctx Tl Tr radix u v len i st <> Overflow /\
  ff3_decrypt_round F ctx Tl Tr radix u v len i st <> Overflow.
Proof.
  intros HF Hu Hv. destruct st as [pA pB]. unfold ff3_encrypt_round, ff3_decrypt_round.
  assert (Hm : (if negb (Z.land i 1 =? 0) then v else u) <= 256)
    by (destruct (negb (Z.land i 1 =? 0)); assumption).
  unfold Codec.bytes_to_num_rev.
  rewrite !(guard_write_ok 256 0 _) by lia. cbn [bind].
  split.
  - pose proof (HF (if negb (Z.land i 1 =? 0) then Tl else Tr) i pB
                   (len - (if negb (Z.land i 1 =? 0) then v else u))) as H.
    destruct (F ctx _ i pB _ radix 16); cbn [bind]; [discriminate.. | contradiction].
  - pose proof (HF (if negb (Z.land i 1 =? 0) then Tl else Tr) i pA
                   (len - (if negb (Z.land i 1 =? 0) then v else u))) as H.
    destruct (F ctx _ i pA _ radix 16); cbn [bind]; [discriminate.. | contradiction].
Qed.

Lemma ff3_round_encrypt_no_overflow ctx T round B B_len radix W_len :
  ff3_round_encrypt ctx T round B B_len radix W_len <> Overflow /\
  ff3_1_round_encrypt ctx T round B B_len radix W_len <> Overflow.
Proof.
  unfold ff3_round_encrypt, ff3_1_round_encrypt.
  destruct (ctx_cipher_ctx ctx) as [c|]; [|split; discriminate].
  unfold encrypt_block.
  destruct c as [|cipher k]; cbn [bind]; [split; discriminate|].
  destruct (EVP_EncryptUpdate cipher k _); cbn [bind]; split; discriminate.
Qed.

Lemma bind_no_overflow {A B : Type} (o : outcome A) (k : A -> outcome B) :
  o <> Overflow -> (forall a, k a <> Overflow) -> bind o k <> Overflow.
Proof. destruct o; cbn [bind]; intros Ho Hk; [apply Hk | discriminate | contradiction]. Qed.

(** X16: in the modes FF3 and FF3-1 no call writes outside a buffer:
    whatever the context (keyed or not), the input and the tweak are,
    [FPE_encrypt] and [FPE_decrypt] return 0 or [-1]. *)
Theorem FPE_ff3_memory_safe (ctx : FPE_CTX) (in_ tweak : list Z) :
  ctx_mode ctx = FPE_MODE_FF3 \/ ctx_mode ctx = FPE_MODE_FF3_1 ->
  FPE_encrypt ctx in_ tweak <> Overflow /\ FPE_decrypt ctx in_ tweak <> Overflow.
Proof.
  intros Hmode. unfold FPE_encrypt, FPE_decrypt.
  destruct (negb (fpe_validate_tweak (ctx_mode ctx) (zlength tweak) =? 0));
    [split; discriminate|].
  assert (Hsplit : 2 <= zlength in_ <= 256 ->
                   (zlength in_ + 1) / 2 <= 256 /\ zlength in_ - (zlength in_ + 1) / 2 <= 256).
  { intros H. apply split_ceil_le; lia. }
  destruct Hmode as [-> | ->]; cbn [FPE_MODE_FF1 FPE_MODE_FF3 FPE_MODE_FF3_1 Z.eqb];
    unfold ff3_encrypt, ff3_decrypt, ff3_1_encrypt, ff3_1_decrypt;
    (destruct ((zlength in_ <? 2) || (zlength in_ >? 256)) eqn:E; [split; discriminate|]);
    apply len_check in E; destruct (Hsplit E) as [Hu Hv].
  - destruct (negb (zlength tweak =? 8) && negb (zlength tweak =? 7)
              && negb (zlength tweak =? 0)); [split; discriminate|].
    destruct (ff3_tweak_halves tweak (zlength tweak)) as [Tl Tr].
    split; (apply bind_no_overflow; [|discriminate]).
    + apply for_up_no_overflow. intros i s.
      apply ff3_rounds_no_overflow; try assumption.
      intros; apply ff3_round_encrypt_no_overflow.
    + apply for_down_no_overflow. intros i s.
      apply ff3_rounds_no_overflow; try assumption.
      intros; apply ff3_round_encrypt_no_overflow.
  - destruct (negb (zlength tweak =? 7) && negb (zlength tweak =? 8)
              && negb (zlength tweak =? 0)); [split; discriminate|].
    destruct (ff3_1_tweak_halves tweak (zlength tweak)) as [Tl Tr].
    split; (apply bind_no_overflow; [|discriminate]).
    + apply for_up_no_overflow. intros i s.
      apply ff3_rounds_no_overflow; try assumption.
      intros; apply ff3_round_encrypt_no_overflow.
    + apply for_down_no_overflow. intros i s.
      apply ff3_rounds_no_overflow; try assumption.
      intros; apply ff3_round_encrypt_no_overflow.
Qed.

End Refusals.

Lemma FPE_length_bounds_witness :
  FPE_encrypt (sample_ctx FPE_MODE_FF1 10) [7] [] = Err /\
  FPE_decrypt (sample_ctx FPE_MODE_FF1 10) [7] [] = Err.
Proof.
  apply (FPE_length_bounds (sample_ctx FPE_MODE_FF1 10) [7] []).
  left; vm_compute; reflexivity.
Defined.

Lemma FPE_needs_key_witness :
  (forall out, FPE_encrypt FPE_CTX_new [1; 2; 3] [] <> Ok out) /\
  (forall out, FPE_decrypt FPE_CTX_new [1; 2; 3] [] <> Ok out).
Proof.
  apply (FPE_needs_key FPE_CTX_new [1; 2; 3] []).
  intros cipher k; discriminate.
Defined.

Lemma FPE_ff3_memory_safe_witness :
  FPE_encrypt (sample_ctx FPE_MODE_FF3 10) [1; 2; 3] (zeros 300) <> Overflow /\
  FPE_decrypt (sample_ctx FPE_MODE_FF3 10) [1; 2; 3] (zeros 300) <> Overflow.
Proof.
  apply (FPE_ff3_memory_safe (sample_ctx FPE_MODE_FF3 10) [1; 2; 3] (zeros 300)).
  left; reflexivity.
Defined.

(** ** Encryption undoes decryption *)

(** Running the inverse rounds [n-1 .. 0] and then the rounds [0 .. n-1]
    gives the initial state back. *)
Lemma for_down_up_inverse {St : Type} (enc dec : Z -> St -> outcome St)
      (Inv : Z -> St -> Prop) :
  (forall i s s', 0 <= i -> Inv (i + 1) s -> dec i s = Ok s' ->
                  Inv i s' /\ enc i s' = Ok s) ->
  forall (n : nat) (s s' : St),
    Inv (Z.of_nat n) s -> for_down n dec s = Ok s' ->
    Inv 0 s' /\ for_up n 0 enc s' = Ok s.
Proof.
  intros Hstep; induction n as [|n IH]; intros s s' Hs Hrun.
  - cbn [for_down] in Hrun; injection Hrun as <-. split; [exact Hs | reflexivity].
  - cbn [for_down] in Hrun. apply bind_ok in Hrun as (s1 & H1 & Hrest).
    replace (Z.of_nat (S n)) with (Z.of_nat n + 1) in Hs by lia.
    destruct (Hstep (Z.of_nat n) s s1 (Nat2Z.is_nonneg n) Hs H1) as (Hinv & Henc).
    destruct (IH s1 s' Hinv Hrest) as (H0 & Hup).
    split; [exact H0|].
    rewrite for_up_snoc, Hup. cbn [bind]. rewrite Z.add_0_l. exact Henc.
Qed.

(** Adding [y] to the difference, with the same borrow in, gives the
    first operand back; the difference is a numeral string. *)
Lemma add_sub_digits_down (radix : Z) (a y : list Z) (c : Z) :
  0 < radix <= 2 ^ 32 -> 0 <= c <= 1 ->
  Forall (is_digit radix) a -> Forall (is_digit radix) y -> length a = length y ->
  add_digits_down radix (fst (sub_digits_down radix a y c)) y c
  = (a, snd (sub_digits_down radix a y c)) /\
  0 <= snd (sub_digits_down radix a y c) <= 1 /\
  Forall (is_digit radix) (fst (sub_digits_down radix a y c)) /\
  length (fst (sub_digits_down radix a y c)) = length a.
Proof.
  intros Hr Hc Ha; revert y; induction Ha as [|aj a' Hj Ha' IH];
    intros [|yj y'] Hy Hlen; try discriminate;
    cbn [add_digits_down sub_digits_down fst snd].
  - repeat split; try constructor; lia.
  - inversion Hy as [|? ? Hyj Hy']; subst.
    cbn [length] in Hlen; injection Hlen as Hlen.
    destruct (IH y' Hy' Hlen) as (IHs & IHc & IHd & IHl).
    destruct (sub_digits_down radix a' y' c) as [r b1]; cbn [fst snd] in *.
    unfold is_digit in Hj, Hyj.
    destruct (Z.ltb_spec (aj - yj - b1) 0) as [Hneg|Hpos]; cbn [fst snd];
      cbn [add_digits_down]; rewrite IHs.
    + rewrite (u32_small (aj - yj - b1 + radix)) by lia.
      replace (aj - yj - b1 + radix + yj + b1) with (aj + 1 * radix) by lia.
      rewrite Z.mod_add, Z.div_add, Z.mod_small, Z.div_small by lia.
      rewrite (u32_small aj), (u32_small (0 + 1)) by lia.
      repeat split; try lia.
      * constructor; [unfold is_digit; lia | exact IHd].
      * cbn [length]; congruence.
    + rewrite (u32_small (aj - yj - b1)) by lia.
      replace (aj - yj - b1 + yj + b1) with aj by lia.
      rewrite Z.mod_small, Z.div_small by lia.
      rewrite (u32_small aj), (u32_small 0) by lia.
      repeat split; try lia.
      * constructor; [unfold is_digit; lia | exact IHd].
      * cbn [length]; congruence.
Qed.

Lemma add_sub_digits_up (radix : Z) (a y : list Z) (c : Z) :
  0 < radix <= 2 ^ 32 -> 0 <= c <= 1 ->
  Forall (is_digit radix) a -> Forall (is_digit radix) y -> length a = length y ->
  add_digits_up radix (sub_digits_up radix a y c) y c = a /\
  Forall (is_digit radix) (sub_digits_up radix a y c) /\
  length (sub_digits_up radix a y c) = length a.
Proof.
  intros Hr Hc Ha; revert y c Hc; induction Ha as [|aj a' Hj Ha' IH];
    intros [|yj y'] c Hc Hy Hlen; try discriminate;
    cbn [add_digits_up sub_digits_up].
  - repeat split; constructor.
  - inversion Hy as [|? ? Hyj Hy']; subst.
    cbn [length] in Hlen; injection Hlen as Hlen.
    unfold is_digit in Hj, Hyj.
    destruct (Z.ltb_spec (aj - yj - c) 0) as [Hneg|Hpos]; cbn [add_digits_up length].
    + destruct (IH y' 1 ltac:(lia) Hy' Hlen) as (IHs & IHd & IHl).
      rewrite (u32_small (aj - yj - c + radix)) by lia.
      replace (aj - yj - c + radix + yj + c) with (aj + 1 * radix) by lia.
      rewrite Z.mod_add, Z.div_add, Z.mod_small, Z.div_small by lia.
      rewrite (u32_small aj), (u32_small (0 + 1)) by lia.
      change (0 + 1) with 1. rewrite IHs.
      repeat split; [constructor; [unfold is_digit; lia | exact IHd] | congruence].
    + destruct (IH y' 0 ltac:(lia) Hy' Hlen) as (IHs & IHd & IHl).
      rewrite (u32_small (aj - yj - c)) by lia.
      replace (aj - yj - c + yj + c) with aj by lia.
      rewrite Z.mod_small, Z.div_small by lia.
      rewrite (u32_small aj), (u32_small 0) by lia. rewrite IHs.
      repeat split; [constructor; [unfold is_digit; lia | exact IHd] | congruence].
Qed.

Section FeistelInverse.
Variable Y : Z -> Z -> list Z -> outcome (list Z).
Variables add sub : Z -> list Z -> list Z -> list Z.
Variables u v radix : Z.

Hypothesis u_nonneg : 0 <= u.
Hypothesis v_nonneg : 0 <= v.
Hypothesis Y_digits : forall i m pB y,
    0 <= m -> Y i m pB = Ok y -> zlength y = m /\ Forall (is_digit radix) y.
Hypothesis sub_digits : forall m a y,
    zlength a = m -> zlength y = m ->
    Forall (is_digit radix) a -> Forall (is_digit radix) y ->
    zlength (sub m a y) = m /\ Forall (is_digit radix) (sub m a y) /\
    add m (sub m a y) y = a.

Lemma feistel_round_inverse_dec (i : Z) (s s' : list Z * list Z) :
  0 <= i -> numeral_halves u v radix (i + 1) s ->
  feistel_decrypt_round Y sub u v i s = Ok s' ->
  numeral_halves u v radix i s' /\ feistel_encrypt_round Y add u v i s' = Ok s.
Proof.
  intros _ ((HlA & HlB) & HdA & HdB) Hrun. destruct s as [pA pB].
  cbn [fst snd] in *. rewrite half_len_plus_2 in HlB.
  unfold feistel_decrypt_round in Hrun.
  apply bind_ok in Hrun as (y & Hy & Hs'). injection Hs' as <-.
  assert (Hm : 0 <= half_len u v i)
    by (unfold half_len; destruct (negb (Z.land i 1 =? 0)); assumption).
  destruct (Y_digits _ _ _ _ Hm Hy) as (Hly & Hdy).
  destruct (sub_digits _ _ _ HlB Hly HdB Hdy) as (Hls & Hds & Hadd).
  split.
  - repeat split; cbn [fst snd]; assumption.
  - unfold feistel_encrypt_round. rewrite Hy; cbn [bind]. rewrite Hadd. reflexivity.
Qed.

Lemma engine_roundtrip_dec (n : nat) (c p : list Z) :
  half_len u v (Z.of_nat n) = u -> half_len u v 0 = u -> half_len u v 1 = v ->
  zlength c = u + v -> Forall (is_digit radix) c ->
  engine u v (for_down n (feistel_decrypt_round Y sub u v)) c = Ok p ->
  zlength p = u + v /\ Forall (is_digit radix) p /\
  engine u v (for_up n 0 (feistel_encrypt_round Y add u v)) p = Ok c.
Proof.
  intros Hn H0 H1 Hlen Hdig Hrun. unfold engine in *.
  apply bind_ok in Hrun as ([pA pB] & Hloop & Hp). cbn [fst snd] in Hp.
  assert (HlA : zlength (take u c) = u) by (apply zlength_take; lia).
  assert (HlB : zlength (take v (drop u c)) = v).
  { rewrite take_all by (rewrite zlength_drop; lia). rewrite zlength_drop; lia. }
  assert (Hcat : take u c ++ take v (drop u c) = c).
  { rewrite (take_all v) by (rewrite zlength_drop; lia). apply take_drop. }
  assert (Hinv : numeral_halves u v radix (Z.of_nat n) (take u c, take v (drop u c))).
  { rewrite <- Hcat in Hdig. apply Forall_app in Hdig as [HdA HdB].
    pose proof (half_len_sum u v (Z.of_nat n)).
    repeat split; cbn [fst snd]; try assumption; lia. }
  destruct (for_down_up_inverse (feistel_encrypt_round Y add u v)
              (feistel_decrypt_round Y sub u v) (numeral_halves u v radix)
              feistel_round_inverse_dec n _ _ Hinv Hloop)
    as (((HA & HB) & HdA & HdB) & Hup).
  cbn [fst snd] in HA, HB, HdA, HdB. change (0 + 1) with 1 in HB.
  rewrite H0 in HA. rewrite H1 in HB.
  rewrite !take_all in Hp by lia. injection Hp as <-.
  split; [rewrite zlength_app; lia|]. split; [apply Forall_app; split; assumption|].
  rewrite take_app_exact, drop_app_exact, (take_all v pB) by lia.
  rewrite Hup. cbn [bind fst snd].
  rewrite (take_all u (take u c)), (take_all v (take v (drop u c))) by lia.
  rewrite Hcat. reflexivity.
Qed.

End FeistelInverse.

Section DecryptTheorems.
Context {PF : Platform}.

Lemma ff1_sub_digits (radix m : Z) (a y : list Z) :
  0 < radix <= 2 ^ 32 ->
  zlength a = m -> zlength y = m ->
  Forall (is_digit radix) a -> Forall (is_digit radix) y ->
  zlength (ff1_sub radix m a y) = m /\ Forall (is_digit radix) (ff1_sub radix m a y) /\
  ff1_add radix m (ff1_sub radix m a y) y = a.
Proof.
  intros Hr Ha Hy Hda Hdy.
  destruct (add_sub_digits_down radix a y 0 Hr ltac:(lia) Hda Hdy) as (Hadd & _ & Hd & Hl);
    [unfold zlength in *; lia|].
  assert (Hs : ff1_sub radix m a y = fst (sub_digits_down radix a y 0)).
  { unfold ff1_sub. rewrite !take_all, drop_all, app_nil_r by lia. reflexivity. }
  rewrite Hs.
  assert (Hls : zlength (fst (sub_digits_down radix a y 0)) = m)
    by (unfold zlength in *; lia).
  split; [exact Hls|]. split; [exact Hd|].
  unfold ff1_add. rewrite !take_all, drop_all, app_nil_r by lia.
  rewrite Hadd. reflexivity.
Qed.

Lemma ff3_sub_digits (radix m : Z) (a y : list Z) :
  0 < radix <= 2 ^ 32 ->
  zlength a = m -> zlength y = m ->
  Forall (is_digit radix) a -> Forall (is_digit radix) y ->
  zlength (ff3_sub radix m a y) = m /\ Forall (is_digit radix) (ff3_sub radix m a y) /\
  ff3_add radix m (ff3_sub radix m a y) y = a.
Proof.
  intros Hr Ha Hy Hda Hdy.
  destruct (add_sub_digits_up radix a y 0 Hr ltac:(lia) Hda Hdy) as (Hadd & Hd & Hl);
    [unfold zlength in *; lia|].
  assert (Hs : ff3_sub radix m a y = sub_digits_up radix a y 0).
  { unfold ff3_sub. rewrite !take_all, drop_all, app_nil_r by lia. reflexivity. }
  rewrite Hs.
  assert (Hls : zlength (sub_digits_up radix a y 0) = m)
    by (unfold zlength in *; lia).
  split; [exact Hls|]. split; [exact Hd|].
  unfold ff3_add. rewrite !take_all, drop_all, app_nil_r by lia.
  exact Hadd.
Qed.

Lemma ff1_decrypt_inverse (ctx : FPE_CTX) (c tweak p : list Z) :
  0 < ctx_radix ctx <= 2 ^ 32 ->
  Forall (is_digit (ctx_radix ctx)) c ->
  ff1_decrypt ctx c tweak = Ok p ->
  zlength p = zlength c /\ Forall (is_digit (ctx_radix ctx)) p /\
  ff1_encrypt ctx p tweak = Ok c.
Proof.
  intros Hr Hdig Hdec. unfold ff1_decrypt in Hdec.
  destruct (zlength c <? 2) eqn:E1; [discriminate|].
  destruct (zlength c >? 256) eqn:E2; [discriminate|].
  destruct (split_floor (zlength c) (zlength_nonneg _)) as [Hu Hv].
  rewrite (for_down_ext _ _ (ff1_decrypt_round_feistel _ _ _ _ _ _ _ _ _ _)) in Hdec.
  eapply (engine_roundtrip_dec _ (ff1_add (ctx_radix ctx))) in Hdec;
    try reflexivity; try eassumption; try lia.
  - destruct Hdec as (Hlen & Hd & Henc).
    replace (zlength c / 2 + (zlength c - zlength c / 2)) with (zlength c) in Hlen by lia.
    split; [exact Hlen|]. split; [exact Hd|].
    unfold ff1_encrypt. rewrite Hlen, E1, E2.
    assert (E3 : (zlength c >? 0xFFFFFFFF) = false).
    { destruct (Z.gtb_spec (zlength c) 256); [discriminate|].
      destruct (Z.gtb_spec (zlength c) 0xFFFFFFFF); [lia | reflexivity]. }
    rewrite E3. cbn [orb].
    rewrite (for_up_ext _ _ (ff1_encrypt_round_feistel _ _ _ _ _ _ _ _ _ _)).
    exact Henc.
  - intros; eapply ff1_Y_digits; eauto.
  - intros; apply ff1_sub_digits; assumption.
Qed.

Lemma ff3_decrypt_inverse (ctx : FPE_CTX) (c tweak p : list Z) :
  0 < ctx_radix ctx <= 2 ^ 32 ->
  Forall (is_digit (ctx_radix ctx)) c ->
  ff3_decrypt ctx c tweak = Ok p ->
  zlength p = zlength c /\ Forall (is_digit (ctx_radix ctx)) p /\
  ff3_encrypt ctx p tweak = Ok c.
Proof.
  intros Hr Hdig Hdec. unfold ff3_decrypt in Hdec.
  destruct ((zlength c <? 2) || (zlength c >? 256)) eqn:E1; [discriminate|].
  destruct (negb (zlength tweak =? 8) && negb (zlength tweak =? 7)
            && negb (zlength tweak =? 0)) eqn:E2; [discriminate|].
  destruct (split_ceil (zlength c) (zlength_nonneg _)) as [Hu Hv].
  destruct (ff3_tweak_halves tweak (zlength tweak)) as [Tl Tr] eqn:ET.
  rewrite (for_down_ext _ _ (ff3_decrypt_round_feistel _ _ _ _ _ _ _ _)) in Hdec.
  eapply (engine_roundtrip_dec _ (ff3_add (ctx_radix ctx))) in Hdec;
    try reflexivity; try eassumption; try lia.
  - destruct Hdec as (Hlen & Hd & Henc).
    replace ((zlength c + 1) / 2 + (zlength c - (zlength c + 1) / 2))
      with (zlength c) in Hlen by lia.
    split; [exact Hlen|]. split; [exact Hd|].
    unfold ff3_encrypt. rewrite Hlen, E1, E2, ET.
    rewrite (for_up_ext _ _ (ff3_encrypt_round_feistel _ _ _ _ _ _ _ _)).
    exact Henc.
  - intros; eapply ff3_Y_digits; eauto.
  - intros; apply ff3_sub_digits; assumption.
Qed.

Lemma ff3_1_decrypt_inverse (ctx : FPE_CTX) (c tweak p : list Z) :
  0 < ctx_radix ctx <= 2 ^ 32 ->
  Forall (is_digit (ctx_radix ctx)) c ->
  ff3_1_decrypt ctx c tweak = Ok p ->
  zlength p = zlength c /\ Forall (is_digit (ctx_radix ctx)) p /\
  ff3_1_encrypt ctx p tweak = Ok c.
Proof.
  intros Hr Hdig Hdec. unfold ff3_1_decrypt in Hdec.
  destruct ((zlength c <? 2) || (zlength c >? 256)) eqn:E1; [discriminate|].
  destruct (negb (zlength tweak =? 7) && negb (zlength tweak =? 8)
            && negb (zlength tweak =? 0)) eqn:E2; [discriminate|].
  destruct (split_ceil (zlength c) (zlength_nonneg _)) as [Hu Hv].
  destruct (ff3_1_tweak_halves tweak (zlength tweak)) as [Tl Tr] eqn:ET.
  rewrite (for_down_ext _ _ (ff3_decrypt_round_feistel _ _ _ _ _ _ _ _)) in Hdec.
  eapply (engine_roundtrip_dec _ (ff3_add (ctx_radix ctx))) in Hdec;
    try reflexivity; try eassumption; try lia.
  - destruct Hdec as (Hlen & Hd & Henc).
    replace ((zlength c + 1) / 2 + (zlength c - (zlength c + 1) / 2))
      with (zlength c) in Hlen by lia.
    split; [exact Hlen|]. split; [exact Hd|].
    unfold ff3_1_encrypt. rewrite Hlen, E1, E2, ET.
    rewrite (for_up_ext _ _ (ff3_encrypt_round_feistel _ _ _ _ _ _ _ _)).
    exact Henc.
  - intros; eapply ff3_Y_digits; eauto.
  - intros; apply ff3_sub_digits; assumption.
Qed.

(** The three engines behind the dispatch of [FPE_decrypt]. *)
Lemma FPE_decrypt_inverse (ctx : FPE_CTX) (c tweak p : list Z) :
  2 <= ctx_radix ctx <= 65536 ->
  Forall (is_digit (ctx_radix ctx)) c ->
  FPE_decrypt ctx c tweak = Ok p ->
  zlength p = zlength c /\ Forall (is_digit (ctx_radix ctx)) p /\
  FPE_encrypt ctx p tweak = Ok c.
Proof.
  intros Hr Hdig Hdec.
  assert (Hr' : 0 < ctx_radix ctx <= 2 ^ 32) by (simpl; lia).
  unfold FPE_decrypt in Hdec; unfold FPE_encrypt.
  destruct (negb (fpe_validate_tweak (ctx_mode ctx) (zlength tweak) =? 0));
    [discriminate|].
  destruct (ctx_mode ctx =? FPE_MODE_FF1); [apply ff1_decrypt_inverse; assumption|].
  destruct (ctx_mode ctx =? FPE_MODE_FF3); [apply ff3_decrypt_inverse; assumption|].
  destruct (ctx_mode ctx =? FPE_MODE_FF3_1); [apply ff3_1_decrypt_inverse; assumption|].
  discriminate.
Qed.

(** X17: encryption undoes decryption: what [FPE_decrypt] returns for a
    numeral string is encrypted by [FPE_encrypt], under the same context
    and tweak, to that numeral string.  With the converse this makes
    [FPE_encrypt] a bijection on the numeral strings it accepts. *)
Theorem FPE_decrypt_then_encrypt (ctx : FPE_CTX) (ciphertext tweak plaintext : list Z) :
  2 <= ctx_radix ctx <= 65536 ->
  Forall (is_digit (ctx_radix ctx)) ciphertext ->
  FPE_decrypt ctx ciphertext tweak = Ok plaintext ->
  FPE_encrypt ctx plaintext tweak = Ok ciphertext.
Proof.
  intros Hr Hdig Hdec. exact (proj2 (proj2 (FPE_decrypt_inverse _ _ _ _ Hr Hdig Hdec))).
Qed.

(** X18: [FPE_decrypt] keeps the format: for a numeral string it returns
    a numeral string of the same length over the same radix.  (Unlike
    [FPE_encrypt], whose sums are reduced modulo the radix, it does not
    bring a digit that is not below the radix back into range.) *)
Theorem FPE_decrypt_alphabet (ctx : FPE_CTX) (in_ tweak out : list Z) :
  2 <= ctx_radix ctx <= 65536 ->
  Forall (is_digit (ctx_radix ctx)) in_ ->
  FPE_decrypt ctx in_ tweak = Ok out ->
  zlength out = zlength in_ /\ Forall (is_digit (ctx_radix ctx)) out.
Proof.
  intros Hr Hdig Hdec.
  destruct (FPE_decrypt_inverse _ _ _ _ Hr Hdig Hdec) as (Hl & Hd & _). auto.
Qed.

End DecryptTheorems.

Lemma FPE_decrypt_then_encrypt_witness :
  FPE_encrypt (sample_ctx FPE_MODE_FF1 10) [0; 1; 2; 3; 4; 5; 6; 7; 8; 9] []
  = Ok [2; 4; 3; 3; 4; 7; 7; 4; 8; 4].
Proof.
  apply (FPE_decrypt_then_encrypt (sample_ctx FPE_MODE_FF1 10) [2; 4; 3; 3; 4; 7; 7; 4; 8; 4] []).
  - vm_compute; split; discriminate.
  - repeat constructor; vm_compute; discriminate.
  - vm_compute; reflexivity.
Defined.

Lemma FPE_decrypt_alphabet_witness :
  zlength [0; 1; 2; 3; 4; 5; 6; 7; 8; 9; 5] = zlength [7; 1; 3; 3; 4; 5; 1; 7; 7; 6; 1] /\
  Forall (is_digit (ctx_radix (sample_ctx FPE_MODE_FF3_1 10)))
         [0; 1; 2; 3; 4; 5; 6; 7; 8; 9; 5].
Proof.
  apply (FPE_decrypt_alphabet (sample_ctx FPE_MODE_FF3_1 10)
           [7; 1; 3; 3; 4; 5; 1; 7; 7; 6; 1] [1; 2; 3; 4; 5; 6; 7]).
  - vm_compute; split; discriminate.
  - repeat constructor; vm_compute; discriminate.
  - vm_compute; reflexivity.
Defined.

(** ** The codec as a function of values *)

Lemma be_val_inj (l1 l2 : list Z) :
  Forall is_byte l1 -> Forall is_byte l2 -> length l1 = length l2 ->
  be_val l1 = be_val l2 -> l1 = l2.
Proof.
  intros H1; revert l2; induction H1 as [|b1 r1 Hb1 Hr1 IH]; intros [|b2 r2] H2 Hlen Hv;
    try discriminate; [reflexivity|].
  inversion H2 as [|? ? Hb2 Hr2]; subst.
  cbn [length] in Hlen; injection Hlen as Hlen.
  cbn [be_val] in Hv.
  assert (Hz : zlength r1 = zlength r2) by (unfold zlength; lia).
  rewrite Hz in Hv.
  pose proof (be_val_range r1 Hr1) as B1. pose proof (be_val_range r2 Hr2) as B2.
  rewrite Hz in B1.
  assert (Hp : 0 < 256 ^ zlength r2) by (apply Z.pow_pos_nonneg; [lia | apply zlength_nonneg]).
  assert (Hb : b1 = b2) by nia.
  subst b2. f_equal. apply IH; [assumption | assumption | lia].
Qed.

Lemma be_bytes_bytes (n : nat) (x : Z) :
  Forall is_byte (be_bytes n x) /\ length (be_bytes n x) = n.
Proof.
  induction n as [|n [IHb IHl]]; cbn [be_bytes length]; [split; [constructor | reflexivity]|].
  split; [constructor; [apply Z.mod_pos_bound; lia | exact IHb] | congruence].
Qed.

Lemma horner_le_val (r : Z) (x : list Z) : horner r x 0 = le_val r (rev x).
Proof. rewrite <- (rev_involutive x) at 1. apply horner_rev. Qed.

(** X19: [num_to_bytes] writes the [out_len]-byte big-endian encoding of
    the value of the numeral string, first digit most significant, reduced
    modulo [256^out_len] (too small a width truncates the value from the
    top); [num_to_bytes_rev] does the same for the value whose first digit
    is the least significant. *)
Theorem num_to_bytes_value (r : Z) (x : list Z) (w : Z) :
  2 <= r <= 65536 -> Forall (is_digit r) x -> 0 <= w ->
  Codec.num_to_bytes x (zlength x) r w = be_bytes (Z.to_nat w) (horner r x 0) /\
  Codec.num_to_bytes_rev x (zlength x) r w = be_bytes (Z.to_nat w) (le_val r x).
Proof.
  intros Hr Hx Hw.
  destruct (num_to_bytes_val r x w Hr Hx Hw) as (Hb & Hl & Hv).
  destruct (num_to_bytes_rev_val r x w Hr Hx Hw) as (Hb' & Hl' & Hv').
  split; apply be_val_inj; try assumption; try apply be_bytes_bytes.
  - rewrite (proj2 (be_bytes_bytes _ _)). unfold zlength in *; lia.
  - rewrite Hv, be_val_be_bytes, horner_le_val, Z2Nat.id by lia. reflexivity.
  - rewrite (proj2 (be_bytes_bytes _ _)). unfold zlength in *; lia.
  - rewrite Hv', be_val_be_bytes, Z2Nat.id by lia. reflexivity.
Qed.

Lemma num_to_bytes_value_witness :
  Codec.num_to_bytes [9; 9; 9] (zlength [9; 9; 9]) 10 1 = be_bytes (Z.to_nat 1) (horner 10 [9; 9; 9] 0) /\
  Codec.num_to_bytes_rev [9; 9; 9] (zlength [9; 9; 9]) 10 1 = be_bytes (Z.to_nat 1) (le_val 10 [9; 9; 9]).
Proof.
  apply (num_to_bytes_value 10 [9; 9; 9] 1).
  - lia.
  - repeat constructor; unfold is_digit; lia.
  - lia.
Defined.

Lemma le_val_to_digits (r : Z) (n : nat) (V : Z) :
  0 < r -> 0 <= V -> le_val r (to_digits r n V) = V mod r ^ Z.of_nat n.
Proof.
  intros Hr; revert V; induction n as [|n IH]; intros V HV; cbn [to_digits le_val].
  - cbn [Z.of_nat]. rewrite Z.pow_0_r, Z.mod_1_r. reflexivity.
  - rewrite IH by (apply Z.div_pos; lia).
    rewrite Nat2Z.inj_succ, Z.pow_succ_r by lia.
    rewrite Z.rem_mul_r by (try lia; apply Z.pow_nonzero; lia). reflexivity.
Qed.

Lemma to_digits_digits (r : Z) (n : nat) (V : Z) :
  0 < r -> Forall (is_digit r) (to_digits r n V) /\ length (to_digits r n V) = n.
Proof.
  intros Hr; revert V; induction n as [|n IH]; intros V; cbn [to_digits length];
    [split; [constructor | reflexivity]|].
  destruct (IH (V / r)) as [IHd IHl].
  split; [constructor; [apply Z.mod_pos_bound; lia | exact IHd] | congruence].
Qed.

(** X20: [bytes_to_num] returns the [len] low base-[radix] digits of the
    big-endian value of the bytes, most significant first
    ([bytes_to_num_rev]: least significant first); when the value is below
    [radix^len], the encoder gives the bytes back. *)
Theorem bytes_to_num_value (r : Z) (bytes : list Z) (len : Z) :
  2 <= r <= 65536 -> Forall is_byte bytes -> zlength bytes <= 256 -> 0 <= len ->
  exists x x',
    Codec.bytes_to_num bytes (zlength bytes) len r = Ok x /\
    Codec.bytes_to_num_rev bytes (zlength bytes) len r = Ok x' /\
    x = rev x' /\ zlength x' = len /\ Forall (is_digit r) x' /\
    le_val r x' = be_val bytes mod r ^ len /\
    (be_val bytes < r ^ len ->
     Codec.num_to_bytes x len r (zlength bytes) = bytes /\
     Codec.num_to_bytes_rev x' len r (zlength bytes) = bytes).
Proof.
  intros Hr Hb Hw Hlen.
  pose proof (zlength_nonneg bytes) as Hnn.
  pose proof (be_val_range bytes Hb) as HV.
  set (V := be_val bytes) in *.
  exists (rev (to_digits r (Z.to_nat len) V)), (to_digits r (Z.to_nat len) V).
  unfold Codec.bytes_to_num, Codec.bytes_to_num_rev.
  rewrite guard_write_ok by lia. cbn [bind].
  rewrite take_all by lia.
  rewrite digits_of_bytes_spec by (try assumption; simpl; lia). fold V.
  destruct (to_digits_digits r (Z.to_nat len) V ltac:(lia)) as [Hd Hl].
  assert (Hzl : zlength (to_digits r (Z.to_nat len) V) = len)
    by (unfold zlength; lia).
  assert (Hval : le_val r (to_digits r (Z.to_nat len) V) = V mod r ^ len).
  { rewrite le_val_to_digits by lia. rewrite Z2Nat.id by lia. reflexivity. }
  repeat split; try assumption.
  - rewrite <- Hzl at 2.
    rewrite <- (zlength_rev (to_digits r (Z.to_nat len) V)).
    destruct (num_to_bytes_val r (rev (to_digits r (Z.to_nat len) V)) (zlength bytes) Hr
                (Forall_rev Hd) Hnn) as (Hb1 & Hl1 & Hv1).
    apply be_val_inj; try assumption; [unfold zlength in *; lia|].
    rewrite Hv1, rev_involutive, Hval. fold V.
    rewrite (Z.mod_small V (r ^ len)) by lia.
    rewrite pow256 in HV by lia. rewrite pow256 by lia. apply Z.mod_small; lia.
  - rewrite <- Hzl at 2.
    destruct (num_to_bytes_rev_val r (to_digits r (Z.to_nat len) V) (zlength bytes) Hr
                Hd Hnn) as (Hb1 & Hl1 & Hv1).
    apply be_val_inj; try assumption; [unfold zlength in *; lia|].
    rewrite Hv1, Hval. fold V.
    rewrite (Z.mod_small V (r ^ len)) by lia.
    rewrite pow256 in HV by lia. rewrite pow256 by lia. apply Z.mod_small; lia.
Qed.

Lemma bytes_to_num_value_witness :
  exists x x',
    Codec.bytes_to_num [1; 44] (zlength [1; 44]) 3 10 = Ok x /\
    Codec.bytes_to_num_rev [1; 44] (zlength [1; 44]) 3 10 = Ok x' /\
    x = rev x' /\ zlength x' = 3 /\ Forall (is_digit 10) x' /\
    le_val 10 x' = be_val [1; 44] mod 10 ^ 3 /\
    (be_val [1; 44] < 10 ^ 3 ->
     Codec.num_to_bytes x 3 10 (zlength [1; 44]) = [1; 44] /\
     Codec.num_to_bytes_rev x' 3 10 (zlength [1; 44]) = [1; 44]).
Proof.
  apply (bytes_to_num_value 10 [1; 44] 3).
  - lia.
  - repeat constructor; unfold is_byte; lia.
  - vm_compute; discriminate.
  - lia.
Defined.

(** ** The tweak of FF3 *)

Section FF3Tweak.
Context {PF : Platform}.

Lemma list_of_zlength_7 (T : list Z) :
  zlength T = 7 -> exists t0 t1 t2 t3 t4 t5 t6, T = [t0; t1; t2; t3; t4; t5; t6].
Proof.
  unfold zlength. intros H.
  destruct T as [|t0 [|t1 [|t2 [|t3 [|t4 [|t5 [|t6 [|t7 T]]]]]]]];
    cbn [length] in H; try lia.
  repeat eexists.
Qed.

(** The engines depend on the tweak through its length check and its
    halves only. *)
Lemma ff3_tweak_ext (ctx : FPE_CTX) (in_ t t' : list Z) :
  negb (zlength t =? 8) && negb (zlength t =? 7) && negb (zlength t =? 0)
  = negb (zlength t' =? 8) && negb (zlength t' =? 7) && negb (zlength t' =? 0) ->
  ff3_tweak_halves t (zlength t) = ff3_tweak_halves t' (zlength t') ->
  ff3_encrypt ctx in_ t = ff3_encrypt ctx in_ t' /\
  ff3_decrypt ctx in_ t = ff3_decrypt ctx in_ t'.
Proof.
  intros Hc Hh. unfold ff3_encrypt, ff3_decrypt. rewrite Hc, Hh.
  split; reflexivity.
Qed.

(** X21: [ff3_encrypt] and [ff3_decrypt] return [-1] for every tweak
    length other than 0, 7 and 8, as [fpe_validate_tweak] does; a 7-byte
    tweak gives the result of the 8-byte tweak made of it and a zero byte,
    with [Tl] its first four bytes and [Tr] the other three and zero; and
    no tweak gives the result of eight zero bytes. *)
Theorem ff3_tweak_contract (ctx : FPE_CTX) (in_ tweak : list Z) :
  (~ ff3_tweak_len_ok (zlength tweak) ->
   fpe_validate_tweak FPE_MODE_FF3 (zlength tweak) = -1 /\
   ff3_encrypt ctx in_ tweak = Err /\
   ff3_decrypt ctx in_ tweak = Err) /\
  (zlength tweak = 7 ->
   ff3_tweak_halves tweak (zlength tweak)
   = (take 4 tweak, drop 4 tweak ++ [0]) /\
   ff3_encrypt ctx in_ tweak = ff3_encrypt ctx in_ (tweak ++ [0]) /\
   ff3_decrypt ctx in_ tweak = ff3_decrypt ctx in_ (tweak ++ [0])) /\
  (zlength tweak = 0 ->
   ff3_encrypt ctx in_ tweak = ff3_encrypt ctx in_ (zeros 8) /\
   ff3_decrypt ctx in_ tweak = ff3_decrypt ctx in_ (zeros 8)).
Proof.
  split; [|split].
  - intros H.
    assert (E : negb (zlength tweak =? 8) && negb (zlength tweak =? 7)
                && negb (zlength tweak =? 0) = true).
    { destruct (negb (zlength tweak =? 8) && negb (zlength tweak =? 7)
                && negb (zlength tweak =? 0)) eqn:E; [reflexivity|].
      exfalso; apply H, ff3_tweak_check, E. }
    unfold ff3_encrypt, ff3_decrypt, fpe_validate_tweak.
    cbn [FPE_MODE_FF1 FPE_MODE_FF3 Z.eqb]. rewrite E.
    destruct ((zlength in_ <? 2) || (zlength in_ >? 256)); repeat split.
  - intros H.
    destruct (list_of_zlength_7 tweak H) as (t0 & t1 & t2 & t3 & t4 & t5 & t6 & ->).
    split; [reflexivity|]. apply ff3_tweak_ext; reflexivity.
  - intros H. destruct tweak; [|rewrite zlength_cons in H; pose proof (zlength_nonneg tweak); lia].
    apply ff3_tweak_ext; reflexivity.
Qed.

End FF3Tweak.

Lemma ff3_tweak_contract_witness :
  ff3_tweak_halves [1; 2; 3; 4; 5; 6; 7] (zlength [1; 2; 3; 4; 5; 6; 7])
  = (take 4 [1; 2; 3; 4; 5; 6; 7], drop 4 [1; 2; 3; 4; 5; 6; 7] ++ [0]) /\
  ff3_encrypt (sample_ctx FPE_MODE_FF3 10) [1; 2; 3; 4; 5] [1; 2; 3; 4; 5; 6; 7]
  = ff3_encrypt (sample_ctx FPE_MODE_FF3 10) [1; 2; 3; 4; 5] ([1; 2; 3; 4; 5; 6; 7] ++ [0]) /\
  ff3_decrypt (sample_ctx FPE_MODE_FF3 10) [1; 2; 3; 4; 5] [1; 2; 3; 4; 5; 6; 7]
  = ff3_decrypt (sample_ctx FPE_MODE_FF3 10) [1; 2; 3; 4; 5] ([1; 2; 3; 4; 5; 6; 7] ++ [0]).
Proof.
  destruct (ff3_tweak_contract (sample_ctx FPE_MODE_FF3 10) [1; 2; 3; 4; 5]
              [1; 2; 3; 4; 5; 6; 7]) as (_ & H7 & _).
  apply H7. reflexivity.
Defined.

(** ** More on FF1 *)

(** X22: the padding of [Q] is the number of zero bytes, below 16, that
    makes the length of [Q] a multiple of the block size, so that the
    [Q_len / 16] blocks of the CBC-MAC cover all of [Q]. *)
Theorem ff1_Q_blocks (tweak_len b : Z) :
  0 <= tweak_len -> 0 <= b -> tweak_len + b + 1 < 2 ^ 31 ->
  0 <= ff1_padding_len tweak_len b < 16 /\
  ff1_Q_len tweak_len b mod 16 = 0 /\
  ff1_Q_len tweak_len b / 16 * 16 = ff1_Q_len tweak_len b.
Proof.
  intros Ht Hb Hfit. unfold ff1_Q_len, ff1_padding_len.
  rewrite !s32_small by lia.
  set (y := tweak_len + b + 1).
  replace (- tweak_len - b - 1) with (- y) by (unfold y; lia).
  rewrite Z.rem_opp_l', (Z.rem_mod_nonneg y 16) by (unfold y; lia).
  pose proof (Z.mod_pos_bound y 16 ltac:(lia)) as Hm.
  pose proof (Z.div_mod y 16 ltac:(lia)) as Hdm.
  rewrite Z.rem_mod_nonneg by lia.
  pose proof (Z.mod_pos_bound (- (y mod 16) + 16) 16 ltac:(lia)) as Hp.
  rewrite u32_small by lia.
  assert (Hpad : (- (y mod 16) + 16) mod 16 = (16 - y mod 16) mod 16) by (f_equal; lia).
  assert (Hz : (tweak_len + (- (y mod 16) + 16) mod 16 + 1 + b) mod 16 = 0).
  { replace (tweak_len + (- (y mod 16) + 16) mod 16 + 1 + b)
      with (y + (- (y mod 16) + 16) mod 16) by (unfold y; lia).
    destruct (Z.eq_dec (y mod 16) 0) as [E|E].
    - rewrite E. change ((- 0 + 16) mod 16) with 0. rewrite Z.add_0_r. exact E.
    - rewrite (Z.mod_small (- (y mod 16) + 16)) by lia.
      replace (y + (- (y mod 16) + 16)) with (16 * (y / 16 + 1)) by lia.
      rewrite Z.mul_comm. apply Z.mod_mul. lia. }
  split; [exact Hp|]. split; [exact Hz|].
  pose proof (Z.div_mod (tweak_len + (- (y mod 16) + 16) mod 16 + 1 + b) 16 ltac:(lia)).
  lia.
Qed.

Lemma ff1_Q_blocks_witness :
  0 <= ff1_padding_len 10 5 < 16 /\
  ff1_Q_len 10 5 mod 16 = 0 /\
  ff1_Q_len 10 5 / 16 * 16 = ff1_Q_len 10 5.
Proof. apply (ff1_Q_blocks 10 5); lia. Defined.

Section MoreEngines.
Context {PF : Platform}.

(** X23: in FF1, with a keyed cipher and 2 to 256 digits, [FPE_encrypt]
    and [FPE_decrypt] return an output exactly when the round block [Q]
    (tweak, padding, round byte and [b] bytes) and the [d] bytes of [S]
    fit in their 256-byte buffers. *)
Theorem FPE_ff1_completes_iff (ctx : FPE_CTX) (in_ tweak : list Z) :
  cipher_works ctx -> ctx_mode ctx = FPE_MODE_FF1 -> 2 <= zlength in_ <= 256 ->
  let b := ff1_b (zlength in_ - zlength in_ / 2) (ctx_radix ctx) in
  ((exists out, FPE_encrypt ctx in_ tweak = Ok out) <->
   ff1_fits (zlength tweak) b (ff1_d b)) /\
  ((exists out, FPE_decrypt ctx in_ tweak = Ok out) <->
   ff1_fits (zlength tweak) b (ff1_d b)).
Proof.
  intros Hc Hmode Hlen. cbv zeta.
  unfold FPE_encrypt, FPE_decrypt, fpe_validate_tweak. rewrite Hmode.
  cbn [FPE_MODE_FF1 Z.eqb negb].
  split; split.
  - intros (out & H). unfold ff1_encrypt in H.
    destruct ((zlength in_ <? 2) || (zlength in_ >? 0xFFFFFFFF)); [discriminate|].
    destruct (zlength in_ >? 256); [discriminate|].
    apply bind_ok in H as (st & H & _).
    apply for_up_first in H as ([pA pB] & H).
    unfold ff1_encrypt_round in H. apply bind_ok in H as (y & H & _).
    exact (ff1_round_y_fits _ _ _ _ _ _ _ _ _ _ _ H).
  - intros Hfit. apply (ff1_total ctx in_ tweak Hc Hlen Hfit).
  - intros (out & H). unfold ff1_decrypt in H.
    destruct (zlength in_ <? 2); [discriminate|].
    destruct (zlength in_ >? 256); [discriminate|].
    apply bind_ok in H as (st & H & _).
    apply for_down_first in H as ([pA pB] & H).
    unfold ff1_decrypt_round in H. apply bind_ok in H as (y & H & _).
    exact (ff1_round_y_fits _ _ _ _ _ _ _ _ _ _ _ H).
  - intros Hfit. apply (ff1_total ctx in_ tweak Hc Hlen Hfit).
Qed.

(** ** FF3-1 as FF3 *)

(** X24: the FF3-1 engine is the FF3 engine on a rearranged tweak: for a
    tweak of 7 (or 8) bytes it returns what [ff3_encrypt] and [ff3_decrypt]
    return for the 8 bytes [T0 T1 T2 (T3 & 0xF0) (T3 & 0x0F) T4 T5 T6], and
    without a tweak the two engines agree. *)
Theorem ff3_1_as_ff3 (ctx : FPE_CTX) (in_ T : list Z) :
  (zlength T = 7 \/ zlength T = 8 ->
   let T' := [ nth 0 T 0; nth 1 T 0; nth 2 T 0; Z.land (nth 3 T 0) 0xF0;
               Z.land (nth 3 T 0) 0x0F; nth 4 T 0; nth 5 T 0; nth 6 T 0 ] in
   ff3_1_encrypt ctx in_ T = ff3_encrypt ctx in_ T' /\
   ff3_1_decrypt ctx in_ T = ff3_decrypt ctx in_ T') /\
  (zlength T = 0 ->
   ff3_1_encrypt ctx in_ T = ff3_encrypt ctx in_ T /\
   ff3_1_decrypt ctx in_ T = ff3_decrypt ctx in_ T).
Proof.
  split.
  - intros HT. cbv zeta.
    unfold ff3_1_encrypt, ff3_1_decrypt, ff3_encrypt, ff3_decrypt.
    assert (H1 : negb (zlength T =? 7) && negb (zlength T =? 8) && negb (zlength T =? 0)
                 = false) by (destruct HT as [-> | ->]; reflexivity).
    assert (H2 : ff3_1_tweak_halves T (zlength T)
                 = ([ nth 0 T 0; nth 1 T 0; nth 2 T 0; Z.land (nth 3 T 0) 0xF0 ],
                    [ Z.land (nth 3 T 0) 0x0F; nth 4 T 0; nth 5 T 0; nth 6 T 0 ]))
      by (unfold ff3_1_tweak_halves; destruct HT as [-> | ->]; reflexivity).
    rewrite H1, H2.
    destruct ((zlength in_ <? 2) || (zlength in_ >? 256)); split; reflexivity.
  - intros HT.
    unfold ff3_1_encrypt, ff3_1_decrypt, ff3_encrypt, ff3_decrypt.
    rewrite HT. cbn [Z.eqb negb andb].
    destruct ((zlength in_ <? 2) || (zlength in_ >? 256)); split; reflexivity.
Qed.

(** ** The round function of the FF3 family *)

Lemma be_val_app (l1 l2 : list Z) :
  be_val (l1 ++ l2) = be_val l1 * 256 ^ zlength l2 + be_val l2.
Proof.
  induction l1 as [|b l1 IH]; cbn [app be_val]; [lia|].
  rewrite IH, zlength_app, Z.pow_add_r by apply zlength_nonneg. ring.
Qed.

Lemma take_zeros (n m : Z) : 0 <= n <= m -> take n (zeros m) = zeros n.
Proof.
  intros H. unfold take, zeros.
  replace (Z.to_nat m) with (Z.to_nat n + (Z.to_nat m - Z.to_nat n))%nat by lia.
  rewrite repeat_app, firstn_app, repeat_length, Nat.sub_diag. cbn [firstn].
  rewrite app_nil_r. rewrite firstn_all2 by (rewrite repeat_length; lia). reflexivity.
Qed.

(** X25: the block the round function of FF3 and FF3-1 encrypts is
    [T xor [i]] in four bytes followed by the value of the half [B] (first
    digit least significant) in twelve bytes, big-endian, the whole
    reversed byte by byte; the value is reduced modulo [256^b] for the
    [b <= 12] the function computes, so that of a longer half only the low
    96 bits take part; [W] is the cipher's output reversed. *)
Theorem ff3_round_encrypt_spec (ctx : FPE_CTX) (cipher : EVP_CIPHER) (k : list Z)
        (t0 t1 t2 t3 round : Z) (B : list Z) (radix : Z) (out : list Z) :
  ctx_cipher_ctx ctx = Some (evp_keyed cipher k) ->
  2 <= radix <= 65536 -> Forall (is_digit radix) B ->
  let b := Z.min 12 (ceildiv (u32 (ceil_mul_log2 (zlength B) radix)) 8) in
  let P := [t0; t1; t2; Z.lxor t3 (u8 round)]
           ++ be_bytes 12 (le_val radix B mod 256 ^ b) in
  EVP_EncryptUpdate cipher k (rev P) = Some out -> zlength out = 16 ->
  ff3_round_encrypt ctx [t0; t1; t2; t3] round B (zlength B) radix 16 = Ok (rev out) /\
  ff3_1_round_encrypt ctx [t0; t1; t2; t3] round B (zlength B) radix 16 = Ok (rev out).
Proof.
  intros Hctx Hr HB. cbv zeta. intros Henc Hout.
  set (b0 := ceildiv (u32 (ceil_mul_log2 (zlength B) radix)) 8) in *.
  assert (Hb0 : 0 <= b0).
  { unfold b0, ceildiv. apply Z.div_pos; [apply u32_range | lia]. }
  assert (Hclip : (if b0 >? 12 then 12 else b0) = Z.min 12 b0)
    by (destruct (Z.gtb_spec b0 12); lia).
  set (b := Z.min 12 b0) in *.
  assert (Hb : 0 <= b <= 12) by (unfold b; lia).
  destruct (num_to_bytes_rev_val radix B b Hr HB ltac:(lia)) as (Hnb & Hnl & Hnv).
  (* the block before the reversal *)
  assert (Hblock : take (16 - b)
                     (upd 3 (Z.lxor (nth 3 (memcpy (zeros 16) [t0; t1; t2; t3] 4) 0) (u8 round))
                          (memcpy (zeros 16) [t0; t1; t2; t3] 4))
                   ++ Codec.num_to_bytes_rev B (zlength B) radix b
                   = [t0; t1; t2; Z.lxor t3 (u8 round)]
                     ++ be_bytes 12 (le_val radix B mod 256 ^ b)).
  { change (upd 3 (Z.lxor (nth 3 (memcpy (zeros 16) [t0; t1; t2; t3] 4) 0) (u8 round))
                (memcpy (zeros 16) [t0; t1; t2; t3] 4))
      with ([t0; t1; t2; Z.lxor t3 (u8 round)] ++ zeros 12).
    assert (Htake : take (16 - b) ([t0; t1; t2; Z.lxor t3 (u8 round)] ++ zeros 12)
                    = [t0; t1; t2; Z.lxor t3 (u8 round)] ++ zeros (12 - b)).
    { rewrite <- (take_zeros (12 - b) 12) by lia. unfold take.
      replace (Z.to_nat (16 - b)) with (length [t0; t1; t2; Z.lxor t3 (u8 round)]
                                        + Z.to_nat (12 - b))%nat by (cbn [length]; lia).
      apply firstn_app_2. }
    rewrite Htake, <- app_assoc. f_equal.
    apply be_val_inj.
    - apply Forall_app; split; [apply Forall_zeros_byte | exact Hnb].
    - apply be_bytes_bytes.
    - rewrite length_app, (proj2 (be_bytes_bytes _ _)).
      pose proof (zlength_zeros (12 - b) ltac:(lia)). unfold zlength in *. lia.
    - rewrite be_val_app, be_val_zeros, Hnv, be_val_be_bytes.
      change (Z.of_nat 12) with 12.
      assert (Hpos : 0 < 256 ^ b) by (apply Z.pow_pos_nonneg; lia).
      pose proof (Z.mod_pos_bound (le_val radix B) (256 ^ b) Hpos).
      assert (256 ^ b <= 256 ^ 12) by (apply Z.pow_le_mono_r; lia).
      rewrite (Z.mod_small (le_val radix B mod 256 ^ b) (256 ^ 12)) by lia. lia. }
  assert (Hlen16 : zlength ([t0; t1; t2; Z.lxor t3 (u8 round)]
                            ++ be_bytes 12 (le_val radix B mod 256 ^ b)) = 16).
  { rewrite zlength_app. unfold zlength.
    rewrite (proj2 (be_bytes_bytes _ _)). reflexivity. }
  assert (Hboth : ff3_round_encrypt ctx [t0; t1; t2; t3] round B (zlength B) radix 16
                  = Ok (rev out)).
  { unfold ff3_round_encrypt. rewrite Hctx. fold b0. rewrite Hclip. fold b.
    rewrite Hblock.
    rewrite fpe_reverse_bytes_rev by (rewrite Hlen16; lia).
    rewrite take_all, drop_all, app_nil_r by (rewrite Hlen16; lia).
    unfold encrypt_block. rewrite Henc. cbn [bind].
    rewrite fpe_reverse_bytes_rev by lia.
    rewrite (take_all 16 out), (drop_all 16 out), app_nil_r by lia.
    change (if 16 <? 16 then 16 else 16) with 16.
    rewrite take_all by (rewrite zlength_rev; lia).
    reflexivity. }
  split; [exact Hboth | exact Hboth].
Qed.

End MoreEngines.

Lemma FPE_ff1_completes_iff_witness :
  exists out, FPE_encrypt (sample_ctx FPE_MODE_FF1 10) [0; 1; 2; 3; 4; 5; 6; 7; 8; 9]
                          (zeros 200) = Ok out.
Proof.
  assert (Hc : cipher_works (sample_ctx FPE_MODE_FF1 10))
    by (apply sample_cipher_works; [lia | auto]).
  assert (Hlen : 2 <= zlength [0; 1; 2; 3; 4; 5; 6; 7; 8; 9] <= 256)
    by (vm_compute; split; discriminate).
  destruct (FPE_ff1_completes_iff (sample_ctx FPE_MODE_FF1 10)
              [0; 1; 2; 3; 4; 5; 6; 7; 8; 9] (zeros 200) Hc eq_refl Hlen) as [[_ He] _].
  apply He. vm_compute; split; discriminate.
Defined.

Lemma ff3_1_as_ff3_witness :
  ff3_1_encrypt (sample_ctx FPE_MODE_FF3_1 10) [1; 2; 3; 4; 5] [1; 2; 3; 0xAB; 5; 6; 7]
  = ff3_encrypt (sample_ctx FPE_MODE_FF3_1 10) [1; 2; 3; 4; 5] [1; 2; 3; 0xA0; 0x0B; 5; 6; 7] /\
  ff3_1_decrypt (sample_ctx FPE_MODE_FF3_1 10) [1; 2; 3; 4; 5] [1; 2; 3; 0xAB; 5; 6; 7]
  = ff3_decrypt (sample_ctx FPE_MODE_FF3_1 10) [1; 2; 3; 4; 5] [1; 2; 3; 0xA0; 0x0B; 5; 6; 7].
Proof.
  destruct (ff3_1_as_ff3 (sample_ctx FPE_MODE_FF3_1 10) [1; 2; 3; 4; 5]
              [1; 2; 3; 0xAB; 5; 6; 7]) as [H _].
  apply H. left; reflexivity.
Defined.

Lemma ff3_round_encrypt_spec_witness :
  ff3_round_encrypt (sample_ctx FPE_MODE_FF3 10) [1; 2; 3; 4] 5 [7; 8; 9]
                    (zlength [7; 8; 9]) 10 16
  = Ok (rev (AES.encrypt (rev sample_key16)
               (rev ([1; 2; 3; Z.lxor 4 (u8 5)] ++ be_bytes 12 (le_val 10 [7; 8; 9] mod 256 ^ 2))))).
Proof.
  refine (proj1 (ff3_round_encrypt_spec (sample_ctx FPE_MODE_FF3 10) EVP_aes_128_ecb
                   (rev sample_key16) 1 2 3 4 5 [7; 8; 9] 10 _ _ _ _ _ _)).
  - reflexivity.
  - lia.
  - repeat constructor; unfold is_digit; lia.
  - reflexivity.
  - vm_compute; reflexivity.
Defined.

(** ** The string interface and the one-shot interface (fpe.c) *)

(** The conversions around an operation [enc] on numeral strings that
    has an inverse [dec]. *)
Section StrPipeline.
Variable alphabet : list Z.
Variables enc dec : list Z -> outcome (list Z).
Hypothesis alphabet_nodup : NoDup alphabet.
Hypothesis alphabet_len : zlength alphabet < 2 ^ 31.
Hypothesis enc_inv : forall p c,
    Forall (is_digit (zlength alphabet)) p -> enc p = Ok c ->
    zlength c = zlength p /\ Forall (is_digit (zlength alphabet)) c /\ dec c = Ok p.

Lemma str_pipeline_inverse (s c : list Z) :
  Forall (fun ch => ch <> 0) s ->
  (in_arr <- fpe_str_to_array alphabet s;;
   out_arr <- enc in_arr;;
   fpe_array_to_str alphabet out_arr) = Ok c ->
  zlength c = zlength s /\ Forall (fun ch => In ch alphabet) c /\
  (in_arr <- fpe_str_to_array alphabet c;;
   out_arr <- dec in_arr;;
   fpe_array_to_str alphabet out_arr) = Ok s.
Proof.
  intros Hs H.
  apply bind_ok in H as (in_arr & Hin & H).
  apply bind_ok in H as (out_arr & Henc & Hout).
  destruct (str_to_array_back alphabet s in_arr alphabet_len Hs Hin) as (Hback & Hl & Hd).
  destruct (enc_inv in_arr out_arr Hd Henc) as (Hlo & Hdo & Hdec).
  assert (Hnn : Forall (fun d => 0 <= d) out_arr)
    by (eapply Forall_impl; [|exact Hdo]; intros d [Hd0 _]; exact Hd0).
  destruct (array_to_str_back alphabet out_arr c alphabet_nodup alphabet_len Hnn Hout)
    as (Hlc & Hinc & Hread).
  split; [lia|]. split; [exact Hinc|].
  rewrite Hread; cbn [bind]. rewrite Hdec; cbn [bind]. exact Hback.
Qed.

End StrPipeline.

Section StringTheorems.
Context {PF : Platform}.

(** The three engines behind the dispatch of [FPE_encrypt]. *)
Lemma FPE_encrypt_inverse (ctx : FPE_CTX) (p tweak c : list Z) :
  2 <= ctx_radix ctx <= 65536 ->
  Forall (is_digit (ctx_radix ctx)) p ->
  FPE_encrypt ctx p tweak = Ok c ->
  zlength c = zlength p /\ Forall (is_digit (ctx_radix ctx)) c /\
  FPE_decrypt ctx c tweak = Ok p.
Proof.
  intros Hr Hdig Henc.
  assert (Hr' : 0 < ctx_radix ctx <= 2 ^ 32) by (simpl; lia).
  unfold FPE_encrypt in Henc; unfold FPE_decrypt.
  destruct (negb (fpe_validate_tweak (ctx_mode ctx) (zlength tweak) =? 0));
    [discriminate|].
  destruct (ctx_mode ctx =? FPE_MODE_FF1).
  { destruct (ff1_encrypt_digits ctx p tweak c Hr' Henc).
    pose proof (ff1_roundtrip ctx p tweak c Hr' Hdig Henc). auto. }
  destruct (ctx_mode ctx =? FPE_MODE_FF3).
  { destruct (ff3_encrypt_digits ctx p tweak c Hr' Henc).
    pose proof (ff3_roundtrip ctx p tweak c Hr' Hdig Henc). auto. }
  destruct (ctx_mode ctx =? FPE_MODE_FF3_1); [|discriminate].
  destruct (ff3_1_encrypt_digits ctx p tweak c Hr' Henc).
  pose proof (ff3_1_roundtrip ctx p tweak c Hr' Hdig Henc). auto.
Qed.

Lemma c_string_nonzero (s : list Z) : c_string s -> Forall (fun ch => ch <> 0) s.
Proof. apply Forall_impl. intros ch H; lia. Qed.

(** The string operations, once the alphabet and the length have passed
    the checks. *)
Lemma FPE_str_checked (ctx : FPE_CTX) (alphabet s tweak : list Z) (r : list Z) :
  zlength s < 2 ^ 32 ->
  FPE_encrypt_str ctx alphabet s tweak = Ok r \/ FPE_decrypt_str ctx alphabet s tweak = Ok r ->
  NoDup alphabet /\ 2 <= zlength alphabet <= 65536 /\ ctx_radix ctx = zlength alphabet /\
  fpe_validate_alphabet alphabet = zlength alphabet /\
  s <> [] /\
  FPE_encrypt_str ctx alphabet s tweak
  = (in_arr <- fpe_str_to_array alphabet s;;
     out_arr <- FPE_encrypt ctx in_arr tweak;;
     fpe_array_to_str alphabet out_arr) /\
  FPE_decrypt_str ctx alphabet s tweak
  = (in_arr <- fpe_str_to_array alphabet s;;
     out_arr <- FPE_decrypt ctx in_arr tweak;;
     fpe_array_to_str alphabet out_arr).
Proof.
  intros Hlen H. pose proof (zlength_nonneg s) as Hnn.
  unfold FPE_encrypt_str, FPE_decrypt_str in *.
  rewrite (u32_small (zlength s)) in * by lia.
  destruct (Z.eqb_spec (fpe_validate_alphabet alphabet) 0) as [|Hv];
    [destruct H; discriminate|].
  destruct (Z.eqb_spec (fpe_validate_alphabet alphabet) (ctx_radix ctx)) as [Hr|];
    [|destruct H; discriminate].
  cbn [orb negb] in *.
  destruct (Z.eqb_spec (zlength s) 0) as [|Hs]; [destruct H; discriminate|].
  destruct (validated_alphabet alphabet Hv) as (Hl & Hnd & Hval).
  rewrite take_all by lia.
  repeat split; try assumption; try lia; try congruence.
  intros ->. apply Hs. reflexivity.
Qed.

Lemma FPE_encrypt_str_inverse (ctx : FPE_CTX) (alphabet s tweak c : list Z) :
  c_string s -> zlength s < 2 ^ 32 ->
  FPE_encrypt_str ctx alphabet s tweak = Ok c ->
  zlength c = zlength s /\ Forall (fun ch => In ch alphabet) c /\
  FPE_decrypt_str ctx alphabet c tweak = Ok s.
Proof.
  intros Hs Hlen H.
  destruct (FPE_str_checked ctx alphabet s tweak c Hlen (or_introl H))
    as (Hnd & Hl & Hr & Hv & Hne & He & _).
  rewrite He in H.
  apply (str_pipeline_inverse alphabet (fun p => FPE_encrypt ctx p tweak)
           (fun p => FPE_decrypt ctx p tweak) Hnd ltac:(lia)) in H;
    [|rewrite <- Hr; intros; apply FPE_encrypt_inverse; try assumption; lia
     |apply c_string_nonzero, Hs].
  destruct H as (Hlc & Hin & Hdec). split; [exact Hlc|]. split; [exact Hin|].
  unfold FPE_decrypt_str. rewrite Hv, Hr, Z.eqb_refl.
  destruct (Z.eqb_spec (zlength alphabet) 0); [lia|]. cbn [orb negb].
  rewrite u32_small by (pose proof (zlength_nonneg c); lia).
  destruct (Z.eqb_spec (zlength c) 0) as [E|_].
  { exfalso. apply Hne. destruct s; [reflexivity|].
    rewrite zlength_cons in Hlc. pose proof (zlength_nonneg s). lia. }
  rewrite take_all by lia. exact Hdec.
Qed.

Lemma FPE_decrypt_str_inverse (ctx : FPE_CTX) (alphabet s tweak c : list Z) :
  c_string s -> zlength s < 2 ^ 32 ->
  FPE_decrypt_str ctx alphabet s tweak = Ok c ->
  zlength c = zlength s /\ Forall (fun ch => In ch alphabet) c /\
  FPE_encrypt_str ctx alphabet c tweak = Ok s.
Proof.
  intros Hs Hlen H.
  destruct (FPE_str_checked ctx alphabet s tweak c Hlen (or_intror H))
    as (Hnd & Hl & Hr & Hv & Hne & _ & Hd).
  rewrite Hd in H.
  apply (str_pipeline_inverse alphabet (fun p => FPE_decrypt ctx p tweak)
           (fun p => FPE_encrypt ctx p tweak) Hnd ltac:(lia)) in H;
    [|rewrite <- Hr; intros; apply FPE_decrypt_inverse; try assumption; lia
     |apply c_string_nonzero, Hs].
  destruct H as (Hlc & Hin & Hdec). split; [exact Hlc|]. split; [exact Hin|].
  unfold FPE_encrypt_str. rewrite Hv, Hr, Z.eqb_refl.
  destruct (Z.eqb_spec (zlength alphabet) 0); [lia|]. cbn [orb negb].
  rewrite u32_small by (pose proof (zlength_nonneg c); lia).
  destruct (Z.eqb_spec (zlength c) 0) as [E|_].
  { exfalso. apply Hne. destruct s; [reflexivity|].
    rewrite zlength_cons in Hlc. pose proof (zlength_nonneg s). lia. }
  rewrite take_all by lia. exact Hdec.
Qed.

(** X26: on strings, decryption undoes encryption and encryption undoes
    decryption: the string [FPE_encrypt_str] returns is decrypted by
    [FPE_decrypt_str], under the same context, alphabet and tweak, to the
    input string, and conversely. *)
Theorem FPE_str_roundtrip (ctx : FPE_CTX) (alphabet s tweak c : list Z) :
  c_string s -> zlength s < 2 ^ 32 ->
  (FPE_encrypt_str ctx alphabet s tweak = Ok c ->
   FPE_decrypt_str ctx alphabet c tweak = Ok s) /\
  (FPE_decrypt_str ctx alphabet s tweak = Ok c ->
   FPE_encrypt_str ctx alphabet c tweak = Ok s).
Proof.
  intros Hs Hlen. split; intros H.
  - destruct (FPE_encrypt_str_inverse ctx alphabet s tweak c Hs Hlen H) as (_ & _ & Hd).
    exact Hd.
  - destruct (FPE_decrypt_str_inverse ctx alphabet s tweak c Hs Hlen H) as (_ & _ & He).
    exact He.
Qed.

(** X27: the string interface preserves the format: a string returned
    by [FPE_encrypt_str] or [FPE_decrypt_str] has the length of the input
    string and consists of chars of the alphabet. *)
Theorem FPE_str_format (ctx : FPE_CTX) (alphabet s tweak out : list Z) :
  c_string s -> zlength s < 2 ^ 32 ->
  FPE_encrypt_str ctx alphabet s tweak = Ok out \/
  FPE_decrypt_str ctx alphabet s tweak = Ok out ->
  zlength out = zlength s /\ Forall (fun ch => In ch alphabet) out.
Proof.
  intros Hs Hlen [H|H].
  - destruct (FPE_encrypt_str_inverse ctx alphabet s tweak out Hs Hlen H) as (Hl & Hin & _).
    split; assumption.
  - destruct (FPE_decrypt_str_inverse ctx alphabet s tweak out Hs Hlen H) as (Hl & Hin & _).
    split; assumption.
Qed.

(** X28: the string interface validates its input before any encryption:
    [FPE_encrypt_str] and [FPE_decrypt_str] return [-1] when the alphabet
    is not valid, when its length is not the radix of the context, when
    the string is empty, and when the string holds a char that is not in
    the alphabet. *)
Theorem FPE_str_rejects (ctx : FPE_CTX) (alphabet s tweak : list Z) :
  c_string s -> zlength s < 2 ^ 32 ->
  fpe_validate_alphabet alphabet = 0 \/
  fpe_validate_alphabet alphabet <> ctx_radix ctx \/
  s = [] \/
  Exists (fun ch => ~ In ch alphabet) s ->
  FPE_encrypt_str ctx alphabet s tweak = Err /\
  FPE_decrypt_str ctx alphabet s tweak = Err.
Proof.
  intros Hs Hlen H. pose proof (zlength_nonneg s) as Hnn.
  unfold FPE_encrypt_str, FPE_decrypt_str.
  rewrite (u32_small (zlength s)) by lia.
  destruct (Z.eqb_spec (fpe_validate_alphabet alphabet) 0) as [|Hv];
    [split; reflexivity|].
  destruct (Z.eqb_spec (fpe_validate_alphabet alphabet) (ctx_radix ctx)) as [Hr|];
    [|split; reflexivity].
  cbn [orb negb].
  destruct (Z.eqb_spec (zlength s) 0) as [|Hne]; [split; reflexivity|].
  destruct H as [H|[H|[H|H]]]; try contradiction.
  { subst s. exfalso; apply Hne; reflexivity. }
  rewrite take_all by lia.
  destruct (validated_alphabet alphabet Hv) as (Hl & _ & _).
  destruct (str_to_array_err_iff alphabet s ltac:(lia)) as [[_ Herr] _].
  rewrite Herr; [split; reflexivity|].
  apply Exists_exists in H as (ch & Hin & Hout).
  apply Exists_exists. exists ch. split; [exact Hin|]. split; [|exact Hout].
  unfold c_string in Hs. rewrite Forall_forall in Hs. specialize (Hs ch Hin). lia.
Qed.

(** X29: the one-shot operations are inverse to each other: what
    [FPE_encrypt_oneshot] returns for a numeral string is decrypted by
    [FPE_decrypt_oneshot], with the same mode, algorithm, key, radix and
    tweak, to that numeral string; and what [FPE_encrypt_str_oneshot]
    returns for a string is decrypted by [FPE_decrypt_str_oneshot] to that
    string. *)
Theorem FPE_oneshot_roundtrip (mode algo : Z) (key : list Z) (bits : Z) (tweak : list Z) :
  (forall radix plaintext ciphertext,
      Forall (is_digit radix) plaintext ->
      FPE_encrypt_oneshot mode algo key bits radix plaintext tweak = Ok ciphertext ->
      FPE_decrypt_oneshot mode algo key bits radix ciphertext tweak = Ok plaintext) /\
  (forall alphabet s c,
      c_string s -> zlength s < 2 ^ 32 ->
      FPE_encrypt_str_oneshot mode algo key bits alphabet s tweak = Ok c ->
      FPE_decrypt_str_oneshot mode algo key bits alphabet c tweak = Ok s).
Proof.
  split.
  - intros radix plaintext ciphertext Hdig H.
    unfold FPE_encrypt_oneshot, FPE_decrypt_oneshot in *.
    destruct (FPE_CTX_init FPE_CTX_new mode algo key bits radix) as [ret ctx] eqn:E.
    destruct (Z.eqb_spec ret 0) as [->|]; [|discriminate].
    destruct (FPE_CTX_init_stores _ _ _ _ _ _ _ E) as (Hr & Hrad & _).
    rewrite <- Hrad in Hdig, Hr.
    destruct (FPE_encrypt_inverse ctx plaintext tweak ciphertext Hr Hdig H) as (_ & _ & Hd).
    exact Hd.
  - intros alphabet s c Hs Hlen H.
    unfold FPE_encrypt_str_oneshot, FPE_decrypt_str_oneshot in *.
    destruct (fpe_validate_alphabet alphabet =? 0); [discriminate|].
    destruct (FPE_CTX_init FPE_CTX_new mode algo key bits (fpe_validate_alphabet alphabet))
      as [ret ctx].
    destruct (ret =? 0); [|discriminate].
    destruct (FPE_encrypt_str_inverse ctx alphabet s tweak c Hs Hlen H) as (_ & _ & Hd).
    exact Hd.
Qed.

(** X30: the one-shot operations refuse a mode outside
    {FF1, FF3, FF3-1}, whatever the other arguments are: the context
    [FPE_CTX_init] accepts with such a mode is refused by [FPE_encrypt] and
    [FPE_decrypt]. *)
Theorem FPE_oneshot_unsupported_mode (mode algo : Z) (key : list Z) (bits radix : Z)
        (in_ tweak : list Z) :
  mode <> FPE_MODE_FF1 -> mode <> FPE_MODE_FF3 -> mode <> FPE_MODE_FF3_1 ->
  FPE_encrypt_oneshot mode algo key bits radix in_ tweak = Err /\
  FPE_decrypt_oneshot mode algo key bits radix in_ tweak = Err.
Proof.
  intros H1 H3 H31. unfold FPE_encrypt_oneshot, FPE_decrypt_oneshot.
  destruct (FPE_CTX_init FPE_CTX_new mode algo key bits radix) as [ret ctx] eqn:E.
  destruct (Z.eqb_spec ret 0) as [->|]; [|split; reflexivity].
  destruct (FPE_CTX_init_stores _ _ _ _ _ _ _ E) as (_ & _ & Hm & _).
  apply FPE_encrypt_unsupported_mode; rewrite Hm; assumption.
Qed.

End StringTheorems.

Lemma FPE_str_roundtrip_witness :
  FPE_decrypt_str (sample_ctx FPE_MODE_FF1 10) [48; 49; 50; 51; 52; 53; 54; 55; 56; 57]
                  [50; 52; 51; 51; 52; 55; 55; 52; 56; 52] []
  = Ok [48; 49; 50; 51; 52; 53; 54; 55; 56; 57].
Proof.
  refine (proj1 (FPE_str_roundtrip (sample_ctx FPE_MODE_FF1 10)
                   [48; 49; 50; 51; 52; 53; 54; 55; 56; 57]
                   [48; 49; 50; 51; 52; 53; 54; 55; 56; 57] []
                   [50; 52; 51; 51; 52; 55; 55; 52; 56; 52] _ _) _).
  - repeat constructor; lia.
  - vm_compute; reflexivity.
  - vm_compute; reflexivity.
Defined.

Lemma FPE_str_format_witness :
  zlength [50; 52; 51; 51; 52; 55; 55; 52; 56; 52]
  = zlength [48; 49; 50; 51; 52; 53; 54; 55; 56; 57] /\
  Forall (fun ch => In ch [48; 49; 50; 51; 52; 53; 54; 55; 56; 57])
         [50; 52; 51; 51; 52; 55; 55; 52; 56; 52].
Proof.
  apply (FPE_str_format (sample_ctx FPE_MODE_FF1 10) [48; 49; 50; 51; 52; 53; 54; 55; 56; 57]
           [48; 49; 50; 51; 52; 53; 54; 55; 56; 57] []).
  - repeat constructor; lia.
  - vm_compute; reflexivity.
  - left; vm_compute; reflexivity.
Defined.

Lemma FPE_str_rejects_witness :
  FPE_encrypt_str (sample_ctx FPE_MODE_FF3_1 10) [48; 49; 50; 51; 52; 53; 54; 55; 56; 57]
                  [49; 50; 120] [1; 2; 3; 4; 5; 6; 7] = Err /\
  FPE_decrypt_str (sample_ctx FPE_MODE_FF3_1 10) [48; 49; 50; 51; 52; 53; 54; 55; 56; 57]
                  [49; 50; 120] [1; 2; 3; 4; 5; 6; 7] = Err.
Proof.
  apply (FPE_str_rejects (sample_ctx FPE_MODE_FF3_1 10) [48; 49; 50; 51; 52; 53; 54; 55; 56; 57]
           [49; 50; 120] [1; 2; 3; 4; 5; 6; 7]).
  - repeat constructor; lia.
  - vm_compute; reflexivity.
  - right; right; right. right; right; left. cbn; intuition discriminate.
Defined.

Lemma FPE_oneshot_roundtrip_witness :
  FPE_decrypt_oneshot FPE_MODE_FF1 FPE_ALGO_AES sample_key16 128 10
                      [2; 4; 3; 3; 4; 7; 7; 4; 8; 4] []
  = Ok [0; 1; 2; 3; 4; 5; 6; 7; 8; 9] /\
  FPE_decrypt_str_oneshot FPE_MODE_FF1 FPE_ALGO_AES sample_key16 128
                          [48; 49; 50; 51; 52; 53; 54; 55; 56; 57]
                          [50; 52; 51; 51; 52; 55; 55; 52; 56; 52] []
  = Ok [48; 49; 50; 51; 52; 53; 54; 55; 56; 57].
Proof.
  destruct (FPE_oneshot_roundtrip FPE_MODE_FF1 FPE_ALGO_AES sample_key16 128 []) as [Hn Hs].
  split.
  - apply (Hn 10 [0; 1; 2; 3; 4; 5; 6; 7; 8; 9] [2; 4; 3; 3; 4; 7; 7; 4; 8; 4]).
    + repeat constructor; lia.
    + vm_compute; reflexivity.
  - apply (Hs [48; 49; 50; 51; 52; 53; 54; 55; 56; 57]
              [48; 49; 50; 51; 52; 53; 54; 55; 56; 57]
              [50; 52; 51; 51; 52; 55; 55; 52; 56; 52]).
    + repeat constructor; lia.
    + vm_compute; reflexivity.
    + vm_compute; reflexivity.
Defined.

Lemma FPE_oneshot_unsupported_mode_witness :
  FPE_encrypt_oneshot 3 FPE_ALGO_AES sample_key16 128 10 [1; 2; 3] [] = Err /\
  FPE_decrypt_oneshot 3 FPE_ALGO_AES sample_key16 128 10 [1; 2; 3] [] = Err.
Proof.
  apply (FPE_oneshot_unsupported_mode 3 FPE_ALGO_AES sample_key16 128 10 [1; 2; 3] []);
    discriminate.
Defined.
